(** * KeenClassik: the puzzle-generation test harness and the max-flow tests

    A shallow embedding of [tests/native/keen_test_harness.c] (descriptor
    validators and the bounded-retry orchestrator [test_combination]) and of
    [tests/native/maxflow_test.c] (the diamond network test), with the
    properties the specification states about them.

    Conventions of the embedding.
    - A C string is the list of its characters before the terminating NUL;
      reading [*p] at the end of the list reads the terminator.
    - A pointer into a string is the suffix that starts at it, so [p++] is
      the tail and [*p] the head.
    - [int] values live in [Z].  Where an operation can leave the range of
      a 32-bit [int] for some input, the two's-complement wrap-around is
      written out with [wrap32] (ISO C leaves signed overflow undefined; the
      theorems that depend on the result carry a no-overflow condition).
      Increments bounded by a loop bound that is itself an [int] are left
      plain.
    - Arrays are lists, read with [rd] and written with [<[ i := x ]>].
    - A [for] loop over a fixed range recurses on the number of iterations
      left.  A [while] loop whose end is one of the properties runs on
      fuel and returns [None] when the fuel runs out; that enough fuel
      gives a result is then proved. *)

From Stdlib Require Import ZArith List Ascii String Lia Bool.
From Stdlib Require Import DecimalString.
From Stdlib Require DecimalFacts DecimalPos DecimalZ.
From stdpp Require Import base list.

Local Open Scope Z_scope.

(** * The program *)

(** ** Characters and C strings *)

Definition cstring := list ascii.

Definition lit (s : string) : cstring := list_ascii_of_string s.

Definition code (c : ascii) : Z := Z.of_N (N_of_ascii c).

(** [<ctype.h>] in the "C" locale, applied to an [unsigned char]. *)
Definition isdigit (c : ascii) : bool := (48 <=? code c) && (code c <=? 57).

Definition isalpha (c : ascii) : bool :=
  ((65 <=? code c) && (code c <=? 90)) || ((97 <=? code c) && (code c <=? 122)).

Definition isspace (c : ascii) : bool :=
  (code c =? 32) || ((9 <=? code c) && (code c <=? 13)).

Definition is_char (c d : ascii) : bool := Ascii.eqb c d.

Definition COMMA : ascii := ","%char.
Definition SEMI : ascii := ";"%char.

(** [sep = strchr(desc, ';')]: the characters before [sep] and the
    characters after it ([sep + 1]); [None] is the NULL result. *)
Fixpoint strchr_semi (desc : cstring) : option (cstring * cstring) :=
  match desc with
  | [] => None
  | c :: rest =>
      if is_char c SEMI then Some ([], rest)
      else match strchr_semi rest with
           | Some (before, after) => Some (c :: before, after)
           | None => None
           end
  end.

(** [atoi]: leading white space, an optional sign, then decimal digits. *)
Fixpoint atoi_digits (s : cstring) (acc : Z) : Z :=
  match s with
  | c :: s' => if isdigit c then atoi_digits s' (acc * 10 + (code c - 48)) else acc
  | [] => acc
  end.

Fixpoint atoi (s : cstring) : Z :=
  match s with
  | c :: s' =>
      if isspace c then atoi s'
      else if is_char c "-"%char then - atoi_digits s' 0
      else if is_char c "+"%char then atoi_digits s' 0
      else atoi_digits s 0
  | [] => 0
  end.

(** ** Integer types *)

Definition INT_MAX : Z := 2147483647.
Definition INT_MIN : Z := -2147483648.

Definition wrap32 (z : Z) : Z := (z + 2 ^ 31) mod 2 ^ 32 - 2 ^ 31.

(** [unsigned int] and [unsigned long] arithmetic is modular. *)
Definition u32 (z : Z) : Z := z mod 2 ^ 32.
Definition u64 (z : Z) : Z := z mod 2 ^ 64.

(** ** Test configuration *)

Definition MIN_GRID_SIZE : Z := 3.
Definition CLASSIK_MAX_GRID_SIZE : Z := 9.
Definition CLASSIK_DIFFS : Z := 4.
Definition PUZZLES_PER_COMBO : Z := 5.
Definition MAX_ATTEMPTS : Z := 25.
Definition CLASSIK_MAX_CAGE_SIZE : Z := 6.

(** Modelled from the spec: [MAX_CLUE_VALUE] is defined in [keen.h], which
    is not among the sources; the specification gives its value, 99999. *)
Definition MAX_CLUE_VALUE : Z := 99999.

(** ** clue_values_within_cap *)

(** The five [return false] sites of [clue_values_within_cap], in source
    order, and its single [return true]. *)
Inductive reject_site : Type :=
  | NoDelimiter    (* if (!sep) return false;                      *)
  | BadOperator    (* if (!isalpha((unsigned char)op)) return false; *)
  | ShortField     (* if (strlen(p) < 5) return false;             *)
  | OverCap        (* if (val > (int)MAX_CLUE_VALUE) return false; *)
  | BadTrailing.   (* else if ( *p != 0) return false;             *)

Inductive verdict : Type :=
  | Pass
  | Reject (site : reject_site).

(** The body of [while ( *p)].  [strlen(p) < 5] fails exactly when five
    characters can be taken from [p]; [memcpy] then copies those five. *)
Fixpoint clue_values_loop (p : cstring) : verdict :=
  match p with
  | [] => Pass
  | op :: p1 =>
      if negb (isalpha op) then Reject BadOperator
      else match p1 with
           | c1 :: c2 :: c3 :: c4 :: c5 :: p2 =>
               let buf := [c1; c2; c3; c4; c5] in
               let val := atoi buf in
               if val >? MAX_CLUE_VALUE then Reject OverCap
               else match p2 with
                    | [] => Pass
                    | c :: p3 =>
                        if is_char c COMMA then clue_values_loop p3
                        else Reject BadTrailing
                    end
           | _ => Reject ShortField
           end
  end.

Definition clue_values_verdict (desc : cstring) : verdict :=
  match strchr_semi desc with
  | None => Reject NoDelimiter
  | Some (_, p) => clue_values_loop p
  end.

Definition clue_values_within_cap (desc : cstring) : bool :=
  match clue_values_verdict desc with
  | Pass => true
  | Reject _ => false
  end.

(** ** parse_root_indices *)

(** In [parse_root_indices] the pointer [p] stays in [[desc, sep]]; it is
    represented by the characters between [p] and [sep].  So [p < sep] is
    "non-empty", [p == sep] is "empty", and [*p] at [sep] is [';']. *)

(** [while (p < sep && isdigit( *p)) { val = val * 10 + ( *p - '0'); p++; digits++; }] *)
Fixpoint scan_digits (p : cstring) (val digits : Z) : Z * Z * cstring :=
  match p with
  | c :: p' =>
      if isdigit c
      then scan_digits p' (wrap32 (val * 10 + (code c - 48))) (digits + 1)
      else (val, digits, p)
  | [] => (val, digits, [])
  end.

(** The [for] loop over [i], with [n] iterations left; [roots[i] = val]
    fills the array from the left. *)
Fixpoint parse_roots_loop (n : nat) (i a : Z) (p : cstring) (roots : list Z)
  : option (list Z * cstring) :=
  match n with
  | O => Some (roots, p)
  | S n' =>
      let '(val, digits, p1) := scan_digits p 0 0 in
      if (digits =? 0) || (val <? 0) || (val >=? a) then None
      else
        let roots' := roots ++ [val] in
        if i <? a - 1 then
          match p1 with
          | c :: p2 =>
              if is_char c COMMA then parse_roots_loop n' (i + 1) a p2 roots'
              else None
          | [] => None
          end
        else parse_roots_loop n' (i + 1) a p1 roots'
  end.

(** [None] is [return false]; [Some roots] is [return true] with the
    filled array. *)
Definition parse_root_indices (desc : cstring) (w : Z) : option (list Z) :=
  match strchr_semi desc with
  | None => None
  | Some (field, _) =>
      let a := wrap32 (w * w) in
      match parse_roots_loop (Z.to_nat a) 0 a field [] with
      | Some (roots, []) => Some roots
      | _ => None
      end
  end.

(** ** parse_ops *)

(** Reading [arr[i]] for an [int] index.  Outside the array the C read is
    undefined; every use below is on an index inside it. *)
Definition rd (arr : list Z) (i : Z) : Z := default 0 (arr !! Z.to_nat i).

Definition NUL : ascii := zero.

Definition rd_char (arr : list ascii) (i : Z) : ascii := default NUL (arr !! Z.to_nat i).

(** [for (d = 0; d < 5; d++) { if (!isdigit( *p)) return false; p++; }] *)
Fixpoint skip_digits (d : nat) (p : cstring) : option cstring :=
  match d with
  | O => Some p
  | S d' =>
      match p with
      | c :: p' => if isdigit c then skip_digits d' p' else None
      | [] => None
      end
  end.

Fixpoint parse_ops_loop (n : nat) (i : Z) (roots : list Z) (p : cstring)
    (ops : list ascii) : option (list ascii) :=
  match n with
  | O => Some ops
  | S n' =>
      if negb (rd roots i =? i) then parse_ops_loop n' (i + 1) roots p ops
      else
        match p with
        | [] => None
        | op :: p1 =>
            match skip_digits 5 p1 with
            | None => None
            | Some p2 =>
                let ops' := <[Z.to_nat i := op]> ops in
                let p3 := match p2 with
                          | c :: p' => if is_char c COMMA then p' else p2
                          | [] => p2
                          end in
                parse_ops_loop n' (i + 1) roots p3 ops'
            end
        end
  end.

Definition parse_ops (desc : cstring) (w : Z) (roots : list Z) (ops : list ascii)
  : option (list ascii) :=
  match strchr_semi desc with
  | None => None
  | Some (_, p) =>
      let a := wrap32 (w * w) in
      parse_ops_loop (Z.to_nat a) 0 roots p ops
  end.

(** ** cage_sizes_within_limit and mult_cages_within_limit *)

(** One iteration of the counting loop:
    [r = roots[i]; counts[r]++; if (counts[r] > max_cage) max_cage = counts[r];] *)
Definition count_step (st : list Z * Z) (r : Z) : list Z * Z :=
  let counts := <[Z.to_nat r := rd st.1 r + 1]> st.1 in
  (counts, if rd counts r >? st.2 then rd counts r else st.2).

(** The result pairs the returned flag with the value stored in
    [*max_seen]. *)
Definition cage_sizes_within_limit (roots : list Z) (a max_size : Z) : bool * Z :=
  let counts := replicate (Z.to_nat a) 0 in
  let max_cage := (fold_left count_step (take (Z.to_nat a) roots) (counts, 0)).2 in
  (max_cage <=? max_size, max_cage).

Definition tally (counts : list Z) (r : Z) : list Z :=
  <[Z.to_nat r := rd counts r + 1]> counts.

Definition mult_cages_within_limit (roots : list Z) (ops : list ascii)
    (a max_mul : Z) : bool :=
  let counts :=
    fold_left tally (take (Z.to_nat a) roots) (replicate (Z.to_nat a) 0) in
  forallb
    (fun i => negb ((rd roots i =? i) && is_char (rd_char ops i) "m"%char
                    && (rd counts i >? max_mul)))
    (seqZ 0 a).

(** ** max_mul_cells_for_size *)

(** [while (val <= MAX_CLUE_VALUE / (unsigned long)w) { val *= w; cells++; }]
    [None] is a run without a result: the loop does not end for [w = 1], so
    it runs on fuel, and for [w = 0] its test divides by zero.  The second
    component records every value [val] takes. *)
Fixpoint max_mul_cells_loop (fuel : nat) (w val cells : Z) (vals : list Z)
  : option (Z * list Z) :=
  if u64 w =? 0 then None
  else if val <=? MAX_CLUE_VALUE / u64 w then
    match fuel with
    | O => None
    | S fuel' =>
        let val' := u64 (val * u64 w) in
        max_mul_cells_loop fuel' w val' (cells + 1) (vals ++ [val'])
    end
  else Some (cells, vals).

Definition max_mul_cells_run (fuel : nat) (w : Z) : option (Z * list Z) :=
  max_mul_cells_loop fuel w 1 0 [1].

Definition max_mul_cells_for_size (fuel : nat) (w : Z) : option Z :=
  fst <$> max_mul_cells_run fuel w.

(** ** The orchestrator: test_combination *)

Record game_params : Type := {
  gp_w : Z;
  gp_diff : Z;
  gp_multiplication_only : Z;
  gp_mode_flags : Z;
  gp_profile : Z;
}.

(** The generator is an external collaborator ([random_new] and
    [new_game_desc] of the puzzle library).  Following its contract in the
    specification, [generate(params, seeded_rng) -> descriptor | null], it
    is a pair of functions; [None] is the NULL result. *)
Record generator : Type := {
  random_state : Type;
  random_new : cstring -> option random_state;
  new_game_desc : game_params -> random_state -> option cstring;
}.

(** The fields of [TestResult] that are integers; [avg_attempts] and
    [total_time_ms] are floating-point clock readings. *)
Record TestResult : Type := {
  tr_size : Z;
  tr_diff : Z;
  tr_puzzles : Z;
  tr_attempts : Z;
  tr_successes : Z;
  tr_failures : Z;
}.

(** Decimal output of [%d] and [%u]. *)
Definition dec (z : Z) : cstring := lit (NilZero.string_of_int (Z.to_int z)).

(** [snprintf(seed_str, sizeof(seed_str), "test_%u_%d_%d",
             base_seed + (unsigned int)puzzle, puzzle, attempts)]
    with [char seed_str[64]]. *)
Definition seed_string (base_seed puzzle attempts : Z) : cstring :=
  take 63 (lit "test_" ++ dec (u32 (base_seed + u32 puzzle)) ++ lit "_"
           ++ dec puzzle ++ lit "_" ++ dec attempts).

Definition make_params (size diff profile : Z) : game_params :=
  {| gp_w := size; gp_diff := diff; gp_multiplication_only := 0;
     gp_mode_flags := 0; gp_profile := profile |}.

(** The validation block of [test_combination] (the body of
    [if (desc != NULL)]): [false] is one of its [continue] exits, [true]
    reaches [success = true]. *)
Definition descriptor_accepted (size max_cage_size max_mul_cells : Z)
    (desc : cstring) : bool :=
  if negb (clue_values_within_cap desc) then false
  else if (max_cage_size >? 0) || (max_mul_cells >? 0) then
    let a := wrap32 (size * size) in
    let ops := replicate (Z.to_nat a) NUL in
    match parse_root_indices desc size with
    | None => false
    | Some roots =>
        if (max_cage_size >? 0)
           && negb (cage_sizes_within_limit roots a max_cage_size).1
        then false
        else if (max_mul_cells >? 0)
                && match parse_ops desc size roots ops with
                   | None => true
                   | Some ops' =>
                       negb (mult_cages_within_limit roots ops' a max_mul_cells)
                   end
        then false
        else true
    end
  else true.

(** What one iteration of the retry loop did (a ghost record of the run). *)
Inductive attempt_outcome : Type :=
  | RngFailed
  | NoDescriptor (params : game_params)
  | Rejected (params : game_params) (desc : cstring)
  | Accepted (params : game_params) (desc : cstring).

Record attempt_event : Type := {
  ev_puzzle : Z;
  ev_attempt : Z;
  ev_seed : cstring;
  ev_outcome : attempt_outcome;
}.

(** The variables of the [while] loop, and the events so far. *)
Record loop_state : Type := {
  ls_success : bool;
  ls_attempts : Z;
  ls_total_attempts : Z;
  ls_successes : Z;
  ls_events : list attempt_event;
}.

Section Orchestrator.
Variable G : generator.
Variables size diff profile max_cage_size max_mul_cells : Z.
Variable base_seed : Z.

(** The body of [while (!success && attempts < MAX_ATTEMPTS)]. *)
Definition attempt_body (puzzle : Z) (st : loop_state) : loop_state :=
  let attempts := ls_attempts st + 1 in
  let total_attempts := wrap32 (ls_total_attempts st + 1) in
  let seed_str := seed_string base_seed puzzle attempts in
  let continue outcome :=
    {| ls_success := ls_success st; ls_attempts := attempts;
       ls_total_attempts := total_attempts;
       ls_successes := ls_successes st;
       ls_events := ls_events st ++
         [{| ev_puzzle := puzzle; ev_attempt := attempts;
             ev_seed := seed_str; ev_outcome := outcome |}] |} in
  match random_new G seed_str with
  | None => continue RngFailed
  | Some rs =>
      let params := make_params size diff profile in
      match new_game_desc G params rs with
      | None => continue (NoDescriptor params)
      | Some desc =>
          if descriptor_accepted size max_cage_size max_mul_cells desc then
            {| ls_success := true; ls_attempts := attempts;
               ls_total_attempts := total_attempts;
               ls_successes := ls_successes st + 1;
               ls_events := ls_events st ++
                 [{| ev_puzzle := puzzle; ev_attempt := attempts;
                     ev_seed := seed_str;
                     ev_outcome := Accepted params desc |}] |}
          else continue (Rejected params desc)
      end
  end.

(** The [while] loop, on fuel: [None] when the fuel runs out before the
    loop condition fails. *)
Fixpoint attempt_loop (fuel : nat) (puzzle : Z) (st : loop_state)
  : option loop_state :=
  if negb (ls_success st) && (ls_attempts st <? MAX_ATTEMPTS) then
    match fuel with
    | O => None
    | S fuel' => attempt_loop fuel' puzzle (attempt_body puzzle st)
    end
  else Some st.

(** One sample, as the run leaves it (ghost). *)
Record sample : Type := {
  sm_puzzle : Z;
  sm_success : bool;
  sm_attempts : Z;
  sm_events : list attempt_event;
}.

(** The variables of the [for] loop over [puzzle]. *)
Record run_state : Type := {
  rs_result : TestResult;
  rs_total_attempts : Z;
  rs_samples : list sample;
}.

(** One iteration of [for (puzzle = 0; puzzle < puzzles; puzzle++)]. *)
Definition puzzle_body (fuel : nat) (puzzle : Z) (st : run_state)
  : option run_state :=
  let result := rs_result st in
  match attempt_loop fuel puzzle
          {| ls_success := false; ls_attempts := 0;
             ls_total_attempts := rs_total_attempts st;
             ls_successes := tr_successes result;
             ls_events := [] |} with
  | None => None
  | Some ls =>
      Some {| rs_result :=
                {| tr_size := tr_size result; tr_diff := tr_diff result;
                   tr_puzzles := tr_puzzles result;
                   tr_attempts := wrap32 (tr_attempts result + ls_attempts ls);
                   tr_successes := ls_successes ls;
                   tr_failures := if ls_success ls then tr_failures result
                                  else tr_failures result + 1 |};
              rs_total_attempts := ls_total_attempts ls;
              rs_samples := rs_samples st ++
                [{| sm_puzzle := puzzle; sm_success := ls_success ls;
                    sm_attempts := ls_attempts ls;
                    sm_events := ls_events ls |}] |}
  end.

Fixpoint puzzles_loop (fuel : nat) (n : nat) (puzzle : Z) (st : run_state)
  : option run_state :=
  match n with
  | O => Some st
  | S n' =>
      match puzzle_body fuel puzzle st with
      | None => None
      | Some st' => puzzles_loop fuel n' (puzzle + 1) st'
      end
  end.

(** [fuel] bounds the iterations of each sample's [while] loop. *)
Definition test_combination (fuel : nat) (puzzles : Z)
  : option (TestResult * list sample) :=
  let result :=
    {| tr_size := size; tr_diff := diff; tr_puzzles := puzzles;
       tr_attempts := 0; tr_successes := 0; tr_failures := 0 |} in
  match puzzles_loop fuel (Z.to_nat puzzles) 0
          {| rs_result := result; rs_total_attempts := 0;
             rs_samples := [] |} with
  | None => None
  | Some st => Some (rs_result st, rs_samples st)
  end.

End Orchestrator.

(** ** The orchestrator over a generator that keeps state *)

Module Stateful.

(** The same harness code, with a puzzle library that may keep state of its
    own between calls (static data, the allocator, a cache): [world] is
    that state, and every call of [random_new], [new_game_desc] and
    [random_free] returns the state it leaves.  Nothing is assumed of the
    library here. *)
Record generator : Type := {
  world : Type;
  random_state : Type;
  random_new : cstring -> world -> option random_state * world;
  new_game_desc :
    game_params -> random_state -> world -> option cstring * world;
  random_free : random_state -> world -> world;
}.

Section Orchestrator.
Variable G : generator.
Variables size diff profile max_cage_size max_mul_cells : Z.
Variable base_seed : Z.

(** The body of [while (!success && attempts < MAX_ATTEMPTS)].  Every path
    on which [rs] is not NULL ends with [random_free(rs)]. *)
Definition attempt_body (puzzle : Z) (st : loop_state) (w : world G)
  : loop_state * world G :=
  let attempts := ls_attempts st + 1 in
  let total_attempts := wrap32 (ls_total_attempts st + 1) in
  let seed_str := seed_string base_seed puzzle attempts in
  let continue outcome :=
    {| ls_success := ls_success st; ls_attempts := attempts;
       ls_total_attempts := total_attempts;
       ls_successes := ls_successes st;
       ls_events := ls_events st ++
         [{| ev_puzzle := puzzle; ev_attempt := attempts;
             ev_seed := seed_str; ev_outcome := outcome |}] |} in
  match random_new G seed_str w with
  | (None, w1) => (continue RngFailed, w1)
  | (Some rs, w1) =>
      let params := make_params size diff profile in
      match new_game_desc G params rs w1 with
      | (None, w2) => (continue (NoDescriptor params), random_free G rs w2)
      | (Some desc, w2) =>
          if descriptor_accepted size max_cage_size max_mul_cells desc then
            ({| ls_success := true; ls_attempts := attempts;
                ls_total_attempts := total_attempts;
                ls_successes := ls_successes st + 1;
                ls_events := ls_events st ++
                  [{| ev_puzzle := puzzle; ev_attempt := attempts;
                      ev_seed := seed_str;
                      ev_outcome := Accepted params desc |}] |},
             random_free G rs w2)
          else (continue (Rejected params desc), random_free G rs w2)
      end
  end.

Fixpoint attempt_loop (fuel : nat) (puzzle : Z) (st : loop_state) (w : world G)
  : option (loop_state * world G) :=
  if negb (ls_success st) && (ls_attempts st <? MAX_ATTEMPTS) then
    match fuel with
    | O => None
    | S fuel' =>
        let '(st', w') := attempt_body puzzle st w in
        attempt_loop fuel' puzzle st' w'
    end
  else Some (st, w).

(** One iteration of [for (puzzle = 0; puzzle < puzzles; puzzle++)]. *)
Definition puzzle_body (fuel : nat) (puzzle : Z) (st : run_state) (w : world G)
  : option (run_state * world G) :=
  let result := rs_result st in
  match attempt_loop fuel puzzle
          {| ls_success := false; ls_attempts := 0;
             ls_total_attempts := rs_total_attempts st;
             ls_successes := tr_successes result;
             ls_events := [] |} w with
  | None => None
  | Some (ls, w') =>
      Some ({| rs_result :=
                 {| tr_size := tr_size result; tr_diff := tr_diff result;
                    tr_puzzles := tr_puzzles result;
                    tr_attempts := wrap32 (tr_attempts result + ls_attempts ls);
                    tr_successes := ls_successes ls;
                    tr_failures := if ls_success ls then tr_failures result
                                   else tr_failures result + 1 |};
               rs_total_attempts := ls_total_attempts ls;
               rs_samples := rs_samples st ++
                 [{| sm_puzzle := puzzle; sm_success := ls_success ls;
                     sm_attempts := ls_attempts ls;
                     sm_events := ls_events ls |}] |}, w')
  end.

Fixpoint puzzles_loop (fuel : nat) (n : nat) (puzzle : Z) (st : run_state)
    (w : world G) : option (run_state * world G) :=
  match n with
  | O => Some (st, w)
  | S n' =>
      match puzzle_body fuel puzzle st w with
      | None => None
      | Some (st', w') => puzzles_loop fuel n' (puzzle + 1) st' w'
      end
  end.

(** [test_combination], run with the library in state [w]: the result, the
    samples, and the state the library is left in. *)
Definition test_combination (fuel : nat) (puzzles : Z) (w : world G)
  : option (TestResult * list sample * world G) :=
  let result :=
    {| tr_size := size; tr_diff := diff; tr_puzzles := puzzles;
       tr_attempts := 0; tr_successes := 0; tr_failures := 0 |} in
  match puzzles_loop fuel (Z.to_nat puzzles) 0
          {| rs_result := result; rs_total_attempts := 0;
             rs_samples := [] |} w with
  | None => None
  | Some (st, w') => Some (rs_result st, rs_samples st, w')
  end.

End Orchestrator.

End Stateful.

(** ** The flow-network solver and its diamond test *)

Module Maxflow.

(** Modelled from the spec: the solver ([maxflow_optimized.c], declared in
    [maxflow.h]) is not among the sources; only its unit tests are.  The
    definitions of this module up to [maxflow_with_scratch] are written
    from the solver's contract in the specification.  A graph is the flat
    array [edges] of [ne] pairs [(from, to)], as the tests build it.
    Residual arcs are numbered: arc [e < ne] is edge [e] itself, with
    residual [capacity[e] - flow[e]]; its paired back arc carries the
    residual [flow[e]]. *)

Definition edge_from (edges : list Z) (e : Z) : Z := rd edges (2 * e).
Definition edge_to (edges : list Z) (e : Z) : Z := rd edges (2 * e + 1).

(** Modelled from the spec: [maxflow_setup_backedges] (not among the
    sources), the spec's [setup_backedges(ne, edges[]) -> backedges[]],
    "for every edge, locates or synthesizes its residual counterpart";
    [backedges[e]] is the index of the paired residual arc of edge [e]. *)
Definition maxflow_setup_backedges (ne : Z) (edges : list Z) : list Z :=
  (fun e => ne + e) <$> seqZ 0 ne.

Definition arc_edge (ne k : Z) : Z := if k <? ne then k else k - ne.

Definition arc_tail (ne : Z) (edges : list Z) (k : Z) : Z :=
  if k <? ne then edge_from edges k else edge_to edges (k - ne).

Definition arc_residual (ne : Z) (capacity flow : list Z) (k : Z) : Z :=
  if k <? ne then rd capacity k - rd flow k else rd flow (k - ne).

Definition UNVISITED : Z := -1.
Definition SOURCE_MARK : Z := -2.

Section Solve.
Variables nv source sink ne : Z.
Variables edges backedges capacity : list Z.

(** Relaxing edge [e] from the frontier vertex [u]: along the edge when it
    has residual capacity, and along its back arc when it carries flow.
    [prev[v]] is the arc by which the search reached [v]. *)
Definition relax (flow : list Z) (u : Z) (st : list Z * list Z) (e : Z)
  : list Z * list Z :=
  let st1 :=
    if (edge_from edges e =? u) && (0 <? rd capacity e - rd flow e)
       && (rd st.1 (edge_to edges e) =? UNVISITED)
    then (<[Z.to_nat (edge_to edges e) := e]> st.1, st.2 ++ [edge_to edges e])
    else st in
  if (edge_to edges e =? u) && (0 <? rd flow e)
     && (rd st1.1 (edge_from edges e) =? UNVISITED)
  then (<[Z.to_nat (edge_from edges e) := rd backedges e]> st1.1,
        st1.2 ++ [edge_from edges e])
  else st1.

(** Breadth-first search over the residual graph; every vertex enters the
    frontier at most once, so [nv] rounds suffice. *)
Fixpoint bfs (rounds : nat) (flow : list Z) (queue prev : list Z) : list Z :=
  match rounds with
  | O => prev
  | S rounds' =>
      match queue with
      | [] => prev
      | u :: queue' =>
          let st := fold_left (relax flow u) (seqZ 0 ne) (prev, queue') in
          bfs rounds' flow st.2 st.1
      end
  end.

(** The arcs of the path found, from the sink back to the source. *)
Fixpoint path_arcs (steps : nat) (prev : list Z) (v : Z) : list Z :=
  match steps with
  | O => []
  | S steps' =>
      if v =? source then []
      else let k := rd prev v in k :: path_arcs steps' prev (arc_tail ne edges k)
  end.

Definition bottleneck (flow : list Z) (arcs : list Z) : Z :=
  match arcs with
  | [] => 0
  | k :: rest =>
      fold_left (fun b k' => Z.min b (arc_residual ne capacity flow k')) rest
                (arc_residual ne capacity flow k)
  end.

Definition push (b : Z) (flow : list Z) (k : Z) : list Z :=
  let e := arc_edge ne k in
  <[Z.to_nat e := if k <? ne then rd flow e + b else rd flow e - b]> flow.

(** Repeated shortest augmenting paths until the sink is unreachable. *)
Fixpoint augment_loop (fuel : nat) (flow : list Z) (total : Z)
  : option (Z * list Z) :=
  let prev0 := <[Z.to_nat source := SOURCE_MARK]> (replicate (Z.to_nat nv) UNVISITED) in
  let prev := bfs (Z.to_nat nv) flow [source] prev0 in
  if rd prev sink =? UNVISITED then Some (total, flow)
  else
    match fuel with
    | O => None
    | S fuel' =>
        let arcs := path_arcs (Z.to_nat nv) prev sink in
        let b := bottleneck flow arcs in
        augment_loop fuel' (fold_left (push b) arcs flow) (total + b)
    end.

(** Modelled from the spec: [maxflow_with_scratch] (not among the
    sources), the spec's [solve(scratch, nv, source, sink, ne, edges[],
    backedges[], capacity[], flow[out]) -> max-flow value], by "repeated
    shortest augmenting-path search (breadth-first) over the residual
    graph, augmenting along the found path by the path's bottleneck
    residual capacity, until no augmenting path remains".  The result pairs
    the returned value with the [flow] array; the scratch arena (marks and
    frontier) is the pair of lists the search threads.  The number of
    augmentations of this method is at most [nv * ne]. *)
Definition maxflow_with_scratch : option (Z * list Z) :=
  augment_loop (Z.to_nat (nv * ne)) (replicate (Z.to_nat ne) 0) 0.

End Solve.

(** [test_diamond] of [maxflow_test.c]: the value the solver returns and
    the flow array it leaves. *)
Definition diamond_edges : list Z := [0; 1; 0; 2; 1; 2; 1; 3; 2; 3].
Definition diamond_capacity : list Z := [10; 10; 1; 10; 10].

Definition diamond_solve : option (Z * list Z) :=
  let nv := 4 in
  let ne := 5 in
  let backedges := maxflow_setup_backedges ne diamond_edges in
  maxflow_with_scratch nv 0 3 ne diamond_edges backedges diamond_capacity.

(** [TEST_ASSERT(result == 20, ...)]; the function returns 1 when the
    assertion holds and 0 when it fails. *)
Definition test_diamond : Z :=
  match diamond_solve with
  | Some (result, _) => if result =? 20 then 1 else 0
  | None => 0
  end.

(** Net flow out of vertex [v] under [flow]. *)
Definition net_out (ne : Z) (edges flow : list Z) (v : Z) : Z :=
  fold_left
    (fun acc e =>
       acc + (if edge_from edges e =? v then rd flow e else 0)
           - (if edge_to edges e =? v then rd flow e else 0))
    (seqZ 0 ne) 0.

(** A feasible flow: within capacity on every edge and conserved at every
    vertex other than the two terminals. *)
Definition feasible (nv source sink ne : Z) (edges capacity flow : list Z) : bool :=
  forallb (fun e => (0 <=? rd flow e) && (rd flow e <=? rd capacity e)) (seqZ 0 ne)
  && forallb (fun v => (v =? source) || (v =? sink) || (net_out ne edges flow v =? 0))
             (seqZ 0 nv).

(** Capacity of the cut whose source side is the set [side]. *)
Definition cut_capacity (ne : Z) (edges capacity : list Z) (side : list Z) : Z :=
  fold_left
    (fun acc e =>
       if existsb (Z.eqb (edge_from edges e)) side
          && negb (existsb (Z.eqb (edge_to edges e)) side)
       then acc + rd capacity e else acc)
    (seqZ 0 ne) 0.

End Maxflow.

(** ** print_progress *)

Definition CR : ascii := "013"%char.

(** One cell of the bar: [=] before [pos], [>] at [pos], blank after. *)
Definition bar_cell (pos i : Z) : ascii :=
  if i <? pos then "="%char else if i =? pos then ">"%char else " "%char.

(** What [print_progress(current, total)] writes to stdout.  [None] is the
    integer division that has no result: a zero divisor, or [INT_MIN / -1].
    The product [current * width] is an [int]. *)
Definition print_progress (current total : Z) : option cstring :=
  let width := 50 in
  let scaled := wrap32 (current * width) in
  if (total =? 0) || ((scaled =? INT_MIN) && (total =? -1)) then None
  else
    let pos := scaled ÷ total in
    Some ([CR] ++ lit "[" ++ (bar_cell pos <$> seqZ 0 width) ++ lit "] "
            ++ dec current ++ lit "/" ++ dec total).

(** ** run_profile_tests, run_all_tests and main *)

Definition puzzles_for_size (size : Z) : Z := PUZZLES_PER_COMBO.

Definition DIFF_NAMES : list cstring :=
  [lit "Easy"; lit "Normal"; lit "Hard"; lit "Extreme"].

(** The [status] column of the detailed table. *)
Inductive status : Type := PASS | PARTIAL | FAIL.

Definition status_of (r : TestResult) : status :=
  if tr_successes r =? tr_puzzles r then PASS
  else if tr_successes r >? 0 then PARTIAL
  else FAIL.

(** One call of [test_combination] as [run_profile_tests] made it, with
    the progress bar printed before it (a ghost record of the run). *)
Record combo_call : Type := {
  cc_size : Z;
  cc_diff : Z;
  cc_max_mul_cells : Z;
  cc_base_seed : Z;
  cc_progress : cstring;
  cc_samples : list sample;
}.

(** The variables of the generation loops.  [ps_results] is the part of the
    [results] array written so far, so [result_idx] is its length. *)
Record profile_state : Type := {
  ps_results : list TestResult;
  ps_total_tests : Z;
  ps_total_successes : Z;
  ps_total_failures : Z;
  ps_calls : list combo_call;
}.

(** A row of the detailed table: the arguments of its [printf], the loop's
    [size], [DIFF_NAMES[d]] (printed in full by [%-15s]) and the status of
    the result read for it. *)
Record detail_row : Type := {
  dr_size : Z;
  dr_name : cstring;
  dr_status : status;
}.

(** What a run leaves: [pr_failures] is the value returned, [pr_header]
    the header cells of the results matrix as printed, [pr_rows] the rows
    of the detailed table, [pr_all_passed] tells which closing line was
    printed.  The cells of the results matrix, the floating-point columns
    and the clock readings are left out. *)
Record profile_report : Type := {
  pr_failures : Z;
  pr_total_tests : Z;
  pr_total_successes : Z;
  pr_results : list TestResult;
  pr_calls : list combo_call;
  pr_final_progress : cstring;
  pr_header : list cstring;
  pr_rows : list detail_row;
  pr_all_passed : bool;
}.

Section ProfileRun.
Variable G : generator.
Variable fuel : nat.
Variables profile min_size max_size diff_count max_cage_size : Z.
Variable enforce_mul_cap : bool.
(** [(unsigned int)time(NULL)]. *)
Variable base_seed : Z.

(** The body of the inner generation loop.  [None]: a [while] loop out of
    fuel, a division by zero ([max_mul_cells_for_size(0)],
    [print_progress] with no combination), or a write past the
    [num_combos] entries of [results]. *)
Definition combo_body (num_combos size diff : Z) (st : profile_state)
  : option profile_state :=
  let current := wrap32 (wrap32 (wrap32 (size - min_size) * diff_count) + diff) in
  let puzzles := puzzles_for_size size in
  match (if enforce_mul_cap then max_mul_cells_for_size fuel size
         else Some 0) with
  | None => None
  | Some max_mul_cells =>
      match print_progress current num_combos with
      | None => None
      | Some bar =>
          let seed := u32 (base_seed + u32 (wrap32 (current * 1000))) in
          match test_combination G size diff profile max_cage_size
                  max_mul_cells seed fuel puzzles with
          | None => None
          | Some (result, samples) =>
              if Z.of_nat (length (ps_results st)) <? num_combos then
                Some {| ps_results := ps_results st ++ [result];
                        ps_total_tests := wrap32 (ps_total_tests st + puzzles);
                        ps_total_successes :=
                          wrap32 (ps_total_successes st + tr_successes result);
                        ps_total_failures :=
                          wrap32 (ps_total_failures st + tr_failures result);
                        ps_calls := ps_calls st ++
                          [{| cc_size := size; cc_diff := diff;
                              cc_max_mul_cells := max_mul_cells;
                              cc_base_seed := seed; cc_progress := bar;
                              cc_samples := samples |}] |}
              else None
          end
      end
  end.

(** [for (int diff = 0; diff < diff_count; diff++)], [n] iterations left. *)
Fixpoint diff_loop (num_combos size : Z) (n : nat) (diff : Z)
    (st : profile_state) : option profile_state :=
  match n with
  | O => Some st
  | S n' =>
      match combo_body num_combos size diff st with
      | None => None
      | Some st' => diff_loop num_combos size n' (diff + 1) st'
      end
  end.

(** [for (int size = min_size; size <= max_size; size++)], [n] iterations
    left.  [size++] at [INT_MAX] has no result. *)
Fixpoint size_loop (num_combos : Z) (n : nat) (size : Z)
    (st : profile_state) : option profile_state :=
  match n with
  | O => Some st
  | S n' =>
      match diff_loop num_combos size (Z.to_nat diff_count) 0 st with
      | None => None
      | Some st' =>
          if size =? INT_MAX then None
          else size_loop num_combos n' (size + 1) st'
      end
  end.

(** [printf(" %6.6s", s)]: a blank, then at most six characters of [s],
    right-justified in a field of six. *)
Definition header_cell (s : cstring) : cstring :=
  let shown := take 6 s in
  lit " " ++ replicate (6 - length shown) " "%char ++ shown.

(** The header loop of the results matrix,
    [printf(" %6.6s", DIFF_NAMES[d])] for [d < diff_count]: the cells it
    prints; [None] is a read past the four names. *)
Fixpoint header_loop (n : nat) (d : Z) (cells : list cstring)
  : option (list cstring) :=
  match n with
  | O => Some cells
  | S n' =>
      match DIFF_NAMES !! Z.to_nat d with
      | None => None
      | Some name => header_loop n' (d + 1) (cells ++ [header_cell name])
      end
  end.

(** The loops of the detailed table, reading [results[result_idx++]];
    [None] is a read of an entry that was never written. *)
Fixpoint detail_diff_loop (results : list TestResult) (size : Z) (n : nat)
    (d : Z) (acc : Z * list detail_row) : option (Z * list detail_row) :=
  match n with
  | O => Some acc
  | S n' =>
      match results !! Z.to_nat acc.1, DIFF_NAMES !! Z.to_nat d with
      | Some r, Some name =>
          detail_diff_loop results size n' (d + 1)
            (acc.1 + 1,
             acc.2 ++ [{| dr_size := size; dr_name := name;
                          dr_status := status_of r |}])
      | _, _ => None
      end
  end.

Fixpoint detail_size_loop (results : list TestResult) (n : nat) (size : Z)
    (acc : Z * list detail_row) : option (Z * list detail_row) :=
  match n with
  | O => Some acc
  | S n' =>
      match detail_diff_loop results size (Z.to_nat diff_count) 0 acc with
      | None => None
      | Some acc' =>
          if size =? INT_MAX then None
          else detail_size_loop results n' (size + 1) acc'
      end
  end.

(** [run_profile_tests].  The [results] array has [num_combos] entries; a
    negative [num_combos] has no allocation. *)
Definition run_profile_tests : option profile_report :=
  let num_combos :=
    wrap32 (wrap32 (wrap32 (max_size - min_size) + 1) * diff_count) in
  let sizes := Z.to_nat (max_size - min_size + 1) in
  if num_combos <? 0 then None
  else
    match size_loop num_combos sizes min_size
            {| ps_results := []; ps_total_tests := 0;
               ps_total_successes := 0; ps_total_failures := 0;
               ps_calls := [] |} with
    | None => None
    | Some st =>
        match print_progress num_combos num_combos with
        | None => None
        | Some bar =>
            match header_loop (Z.to_nat diff_count) 0 [] with
            | None => None
            | Some names =>
                match detail_size_loop (ps_results st) sizes min_size (0, []) with
                | None => None
                | Some (_, rows) =>
                    Some {| pr_failures := ps_total_failures st;
                            pr_total_tests := ps_total_tests st;
                            pr_total_successes := ps_total_successes st;
                            pr_results := ps_results st;
                            pr_calls := ps_calls st;
                            pr_final_progress := bar;
                            pr_header := names;
                            pr_rows := rows;
                            pr_all_passed := negb (ps_total_failures st >? 0) |}
                end
            end
        end
    end.

End ProfileRun.

(** [KEEN_PROFILE_CLASSIK_MODERN] is an enumerator of keen.h; the harness
    only passes it on, so it is a parameter here. *)
Definition run_all_tests (G : generator) (fuel : nat) (profile now : Z)
  : option (Z * profile_report) :=
  match run_profile_tests G fuel profile MIN_GRID_SIZE CLASSIK_MAX_GRID_SIZE
          CLASSIK_DIFFS CLASSIK_MAX_CAGE_SIZE true (u32 now) with
  | None => None
  | Some report => Some (wrap32 (0 + pr_failures report), report)
  end.

(** [main]: the exit status. *)
Definition main (G : generator) (fuel : nat) (profile now : Z) : option Z :=
  match run_all_tests G fuel profile now with
  | None => None
  | Some (failures, _) => Some (if failures >? 0 then 1 else 0)
  end.

(** ** The test driver of maxflow_test.c *)

Module MaxflowTest.

(** The solver under test ([maxflow.h]) is an external collaborator of the
    driver: [maxflow_setup_backedges(ne, edges, backedges)] fills
    [backedges]; [maxflow_with_scratch(scratch, nv, source, sink, ne, edges,
    backedges, capacity, flow, NULL)] returns the flow value and fills
    [flow], or does not return ([None]). *)
Record solver : Type := {
  maxflow_setup_backedges : Z -> list Z -> list Z;
  maxflow_with_scratch :
    Z -> Z -> Z -> Z -> list Z -> list Z -> list Z -> list Z -> option (Z * list Z);
}.

(** The static counters [tests_run] and [tests_passed]. *)
Record counters : Type := {
  tests_run : Z;
  tests_passed : Z;
}.

(** The rest of a test function from some point on: from the counters to
    the counters and the value returned; [None] when the solver does not
    return. *)
Definition test : Type := counters -> option (counters * Z).

(** [return v;] *)
Definition Return (v : Z) : test := fun c => Some (c, v).

(** [TEST_ASSERT(cond, msg);] followed by [rest]. *)
Definition TEST_ASSERT (cond : bool) (rest : test) : test :=
  fun c =>
    let c1 := {| tests_run := wrap32 (tests_run c + 1);
                 tests_passed := tests_passed c |} in
    if negb cond then Some (c1, 0)
    else rest {| tests_run := tests_run c1;
                 tests_passed := wrap32 (tests_passed c1 + 1) |}.

Section Driver.
Variable sv : solver.
(** Whether [malloc] gives the scratch buffer of test number [t]. *)
Variable malloc_ok : Z -> bool.

(** The lines from [maxflow_setup_backedges] to [free(scratch)], followed
    by [rest], which sees [result] and [flow]. *)
Definition solve (nv source sink ne : Z) (edges capacity flow : list Z)
    (rest : Z -> list Z -> test) : test :=
  fun c =>
    let backedges := maxflow_setup_backedges sv ne edges in
    match maxflow_with_scratch sv nv source sink ne edges backedges capacity flow with
    | None => None
    | Some (result, flow') => rest result flow' c
    end.

Definition test_simple_two_nodes : test :=
  let nv := 2 in
  let ne := 1 in
  let edges := [0; 1] in
  let capacity := [5] in
  let flow := [0] in
  TEST_ASSERT (malloc_ok 1)
    (solve nv 0 1 ne edges capacity flow (fun result flow =>
       TEST_ASSERT (result =? 5)
         (TEST_ASSERT (rd flow 0 =? 5)
            (Return 1)))).

Definition test_parallel_paths : test :=
  let nv := 4 in
  let ne := 4 in
  let edges := [0; 1; 0; 2; 1; 3; 2; 3] in
  let capacity := [3; 2; 2; 3] in
  let flow := [0; 0; 0; 0] in
  TEST_ASSERT (malloc_ok 2)
    (solve nv 0 3 ne edges capacity flow (fun result flow =>
       TEST_ASSERT (result =? 4)
         (Return 1))).

Definition test_no_path : test :=
  let nv := 4 in
  let ne := 2 in
  let edges := [0; 1; 2; 3] in
  let capacity := [5; 5] in
  let flow := [0; 0] in
  TEST_ASSERT (malloc_ok 3)
    (solve nv 0 3 ne edges capacity flow (fun result flow =>
       TEST_ASSERT (result =? 0)
         (Return 1))).

Definition test_bottleneck : test :=
  let nv := 4 in
  let ne := 3 in
  let edges := [0; 1; 1; 2; 2; 3] in
  let capacity := [10; 2; 10] in
  let flow := [0; 0; 0] in
  TEST_ASSERT (malloc_ok 4)
    (solve nv 0 3 ne edges capacity flow (fun result flow =>
       TEST_ASSERT (result =? 2)
         (TEST_ASSERT (rd flow 1 =? 2)
            (Return 1)))).

Definition test_diamond : test :=
  let nv := 4 in
  let ne := 5 in
  let edges := [0; 1; 0; 2; 1; 2; 1; 3; 2; 3] in
  let capacity := [10; 10; 1; 10; 10] in
  let flow := [0; 0; 0; 0; 0] in
  TEST_ASSERT (malloc_ok 5)
    (solve nv 0 3 ne edges capacity flow (fun result flow =>
       TEST_ASSERT (result =? 20)
         (Return 1))).

Definition test_zero_capacity : test :=
  let nv := 3 in
  let ne := 2 in
  let edges := [0; 1; 1; 2] in
  let capacity := [5; 0] in
  let flow := [0; 0] in
  TEST_ASSERT (malloc_ok 6)
    (solve nv 0 2 ne edges capacity flow (fun result flow =>
       TEST_ASSERT (result =? 0)
         (Return 1))).

(** The two skipped tests count themselves as run and passed. *)
Definition skipped : test :=
  fun c => Some ({| tests_run := wrap32 (tests_run c + 1);
                    tests_passed := wrap32 (tests_passed c + 1) |}, 1).

Definition test_single_node : test := skipped.

Definition test_linear_chain : test :=
  let nv := 8 in
  let ne := 7 in
  let edges := [0; 1; 1; 2; 2; 3; 3; 4; 4; 5; 5; 6; 6; 7] in
  let capacity := [5; 5; 5; 5; 5; 5; 5] in
  let flow := [0; 0; 0; 0; 0; 0; 0] in
  TEST_ASSERT (malloc_ok 8)
    (solve nv 0 7 ne edges capacity flow (fun result flow =>
       TEST_ASSERT (result =? 5)
         (Return 1))).

Definition test_negative_capacity : test := skipped.

(** The state of [main]: the counters and, for each test run so far,
    whether [RUN_TEST] printed [PASS]. *)
Definition RUN_TEST (fn : test) (st : option (counters * list bool))
  : option (counters * list bool) :=
  match st with
  | None => None
  | Some (c, verdicts) =>
      match fn c with
      | None => None
      | Some (c', v) => Some (c', verdicts ++ [negb (v =? 0)])
      end
  end.

Definition tests : list test :=
  [test_simple_two_nodes; test_parallel_paths; test_no_path; test_bottleneck;
   test_diamond; test_zero_capacity; test_single_node; test_linear_chain;
   test_negative_capacity].

(** [main]: the exit status, the final counters and the verdicts printed. *)
Definition main : option (Z * counters * list bool) :=
  match foldl (fun st fn => RUN_TEST fn st)
              (Some ({| tests_run := 0; tests_passed := 0 |}, [])) tests with
  | None => None
  | Some (c, verdicts) =>
      Some (if tests_passed c =? tests_run c then 0 else 1, c, verdicts)
  end.

End Driver.

End MaxflowTest.

(** * Vocabulary of the properties *)

(** ** Cage sizes and caps *)

(** The number of cells whose root is [r]: the size of the cage of [r]
    (zero when no cell has root [r]). *)
Definition cage_size (roots : list Z) (r : Z) : Z :=
  Z.of_nat (count_occ Z.eq_dec roots r).

(** The invariant of the counting loop after the cells [seen]. *)
Definition counts_inv (a : Z) (seen : list Z) (st : list Z * Z) : Prop :=
  length st.1 = Z.to_nat a /\
  (forall r, 0 <= r < a -> rd st.1 r = cage_size seen r) /\
  (forall r, cage_size seen r <= st.2) /\
  ((seen = [] /\ st.2 = 0) \/ (exists r, r ∈ seen /\ cage_size seen r = st.2)).

Definition in_range (a : Z) (roots : list Z) : Prop :=
  Forall (fun r => 0 <= r < a) roots.

(** The clue values [clue_values_within_cap] reads: [atoi] of each
    five-character field, in order, up to the point where its loop stops. *)
Fixpoint clue_values_read (p : cstring) : list Z :=
  match p with
  | op :: c1 :: c2 :: c3 :: c4 :: c5 :: p2 =>
      atoi [c1; c2; c3; c4; c5] ::
      match p2 with
      | c :: p3 => if is_char c COMMA then clue_values_read p3 else []
      | [] => []
      end
  | _ => []
  end.

Definition clue_values (desc : cstring) : list Z :=
  match strchr_semi desc with
  | Some (_, p) => clue_values_read p
  | None => []
  end.

(** The checks behind one accepted descriptor. *)
Definition passes_caps (size max_cage_size max_mul_cells : Z) (desc : cstring) : Prop :=
  let a := wrap32 (size * size) in
  clue_values_within_cap desc = true /\
  Forall (fun val => val <= MAX_CLUE_VALUE) (clue_values desc) /\
  (0 < max_cage_size ->
   exists roots,
     parse_root_indices desc size = Some roots /\
     (cage_sizes_within_limit roots a max_cage_size).1 = true /\
     forall r, cage_size roots r <= max_cage_size) /\
  (0 < max_mul_cells ->
   exists roots ops,
     parse_root_indices desc size = Some roots /\
     parse_ops desc size roots (replicate (Z.to_nat a) NUL) = Some ops /\
     mult_cages_within_limit roots ops a max_mul_cells = true /\
     forall i, 0 <= i < a -> rd roots i = i -> rd_char ops i = "m"%char ->
       cage_size roots i <= max_mul_cells).

(** ** Attempts and samples of a run *)

Definition is_accepted (o : attempt_outcome) : bool :=
  match o with
  | Accepted _ _ => true
  | _ => false
  end.

(** The generator inputs an attempt used, and what came back. *)
Definition outcome_params (o : attempt_outcome) : option game_params :=
  match o with
  | RngFailed => None
  | NoDescriptor params | Rejected params _ | Accepted params _ => Some params
  end.

Definition outcome_desc (o : attempt_outcome) : option cstring :=
  match o with
  | RngFailed | NoDescriptor _ => None
  | Rejected _ desc | Accepted _ desc => Some desc
  end.

Definition accepted_in (evs : list attempt_event) : list cstring :=
  flat_map (fun ev => match ev_outcome ev with
                      | Accepted _ desc => [desc]
                      | _ => []
                      end) evs.

(** The descriptors a run counted as successes. *)
Definition accepted_descriptors (samples : list sample) : list cstring :=
  flat_map (fun s => accepted_in (sm_events s)) samples.

Definition count_samples (f : sample -> bool) (samples : list sample) : Z :=
  Z.of_nat (length (List.filter f samples)).

Definition exhausted (s : sample) : bool := negb (sm_success s).

Section AttemptEvents.
Variable G : generator.
Variables size diff profile max_cage_size max_mul_cells : Z.
Variable base_seed : Z.

(** What attempt number [k] of sample [puzzle] does, as a function of the
    run's parameters alone. *)
Definition outcome_of (seed_str : cstring) : attempt_outcome :=
  match random_new G seed_str with
  | None => RngFailed
  | Some rs =>
      let params := make_params size diff profile in
      match new_game_desc G params rs with
      | None => NoDescriptor params
      | Some desc =>
          if descriptor_accepted size max_cage_size max_mul_cells desc
          then Accepted params desc else Rejected params desc
      end
  end.

Definition event_of (puzzle k : Z) : attempt_event :=
  {| ev_puzzle := puzzle; ev_attempt := k;
     ev_seed := seed_string base_seed puzzle k;
     ev_outcome := outcome_of (seed_string base_seed puzzle k) |}.

(** Sample [puzzle] uses up its budget: none of its [MAX_ATTEMPTS]
    attempts gets a descriptor that passes the validation.  A function of
    the generator's answers to that sample's own seeds. *)
Definition budget_exhausted (puzzle : Z) : bool :=
  forallb (fun k => negb (is_accepted (outcome_of (seed_string base_seed puzzle k))))
          (seqZ 1 MAX_ATTEMPTS).

(** What the loop has done when it stops, started in a state [st] that has
    not succeeded: the events it added are those of attempts
    [ls_attempts st + 1, ...], all but possibly the last are failures, and
    it stops either at the first accepted attempt or with the budget
    used up. *)
Definition loop_post (puzzle : Z) (st st' : loop_state) : Prop :=
  exists evs,
    ls_events st' = ls_events st ++ evs /\
    evs = event_of puzzle <$> seqZ (ls_attempts st + 1) (ls_attempts st' - ls_attempts st) /\
    ls_attempts st <= ls_attempts st' <= MAX_ATTEMPTS /\
    ((ls_success st' = false /\ ls_attempts st' = MAX_ATTEMPTS /\
      ls_successes st' = ls_successes st /\
      Forall (fun ev => is_accepted (ev_outcome ev) = false) evs)
     \/
     (ls_success st' = true /\ ls_attempts st < ls_attempts st' /\
      ls_successes st' = ls_successes st + 1 /\
      exists failed ev, evs = failed ++ [ev] /\
        is_accepted (ev_outcome ev) = true /\
        Forall (fun ev' => is_accepted (ev_outcome ev') = false) failed)).

(** What the run leaves of one sample. *)
Definition sample_ok (s : sample) : Prop :=
  sm_events s = event_of (sm_puzzle s) <$> seqZ 1 (sm_attempts s) /\
  ((sm_success s = true /\ 1 <= sm_attempts s <= MAX_ATTEMPTS /\
    exists failed ev, sm_events s = failed ++ [ev] /\
      is_accepted (ev_outcome ev) = true /\
      Forall (fun ev' => is_accepted (ev_outcome ev') = false) failed)
   \/
   (sm_success s = false /\ sm_attempts s = MAX_ATTEMPTS /\
    Forall (fun ev => is_accepted (ev_outcome ev) = false) (sm_events s))).

(** The invariant of the [for] loop before sample number [puzzle]. *)
Definition run_inv (puzzle : Z) (st : run_state) : Prop :=
  sm_puzzle <$> rs_samples st = seqZ 0 puzzle /\
  tr_successes (rs_result st) = count_samples sm_success (rs_samples st) /\
  tr_failures (rs_result st) = count_samples exhausted (rs_samples st) /\
  Forall sample_ok (rs_samples st).

End AttemptEvents.

(** ** Sample generators and runs *)

(** A generator that returns the same descriptor on every attempt. *)
Definition constant_generator (desc : option cstring) : generator :=
  {| random_state := cstring;
     random_new := fun seed_str => Some seed_str;
     new_game_desc := fun _ _ => desc |}.

(** A generator whose descriptor depends on the seed string alone. *)
Definition seeded_generator (pick : cstring -> option cstring) : generator :=
  {| random_state := cstring;
     random_new := fun seed_str => Some seed_str;
     new_game_desc := fun _ rs => pick rs |}.

Fixpoint cstring_eqb (s t : cstring) : bool :=
  match s, t with
  | [], [] => true
  | c :: s', d :: t' => is_char c d && cstring_eqb s' t'
  | _, _ => false
  end.

Definition good_desc : cstring := lit "0,0,0,3,3,3,6,6,6;a00006,m00006,s00001".

(** A root array that is not idempotent: cell 0 has root 1 and cell 1 has
    root 0.  No cell is its own root. *)
Definition swapped_desc : cstring := lit "1,0,1,0,1,0,1,0,1;a00001".

(** A descriptor on every attempt whose number ends in 3. *)
Definition third_attempt (seed_str : cstring) : option cstring :=
  if is_char (List.last seed_str NUL) "3"%char then Some good_desc else None.

(** A descriptor only on the third attempt of sample 1 under base seed
    1000. *)
Definition second_sample_only (seed_str : cstring) : option cstring :=
  if cstring_eqb seed_str (lit "test_1001_1_3") then Some good_desc else None.

(** ** The root array of an accepted descriptor *)

(** A root array is idempotent when the root of every cell is its own
    root. *)
Definition idempotent (roots : list Z) : Prop :=
  forall i, 0 <= i < Z.of_nat (length roots) -> rd roots (rd roots i) = rd roots i.

(** ** Determinism of an attempt *)

(** Every attempt of a run, in order. *)
Definition run_events (samples : list sample) : list attempt_event :=
  flat_map sm_events samples.

(** The generator call of an attempt, as a function of the parameters and
    the seed string: [new_game_desc(&params, random_new(seed_str), ...)]. *)
Definition generate (G : generator) (params : game_params) (seed_str : cstring)
  : option cstring :=
  match random_new G seed_str with
  | Some rs => new_game_desc G params rs
  | None => None
  end.

(** Modelled from the spec: [random_new] and [new_game_desc] are not among
    the sources.  This is the generator's contract,
    [generate(params, seeded_rng) -> descriptor | null] with the
    determinism requirement on the generator: what a call returns depends
    on its arguments only, not on the state the library is in. *)
Definition seed_determined (G : Stateful.generator) : Prop :=
  (forall seed_str w w',
     (Stateful.random_new G seed_str w).1 = (Stateful.random_new G seed_str w').1) /\
  (forall params rs w w',
     (Stateful.new_game_desc G params rs w).1
     = (Stateful.new_game_desc G params rs w').1).

(** The generator call of an attempt made with the library in state [w]:
    what [new_game_desc(&params, random_new(seed_str), ...)] returns. *)
Definition generate_in (G : Stateful.generator) (params : game_params)
    (seed_str : cstring) (w : Stateful.world G) : option cstring :=
  match Stateful.random_new G seed_str w with
  | (Some rs, w1) => (Stateful.new_game_desc G params rs w1).1
  | (None, _) => None
  end.

(** What the harness is answerable for in an attempt: the seed string is
    the one of the attempt's puzzle and attempt index, and the parameters
    passed to the generator, when it was called, are those of the
    combination. *)
Definition attempt_inputs_ok (size diff profile base_seed : Z)
    (e : attempt_event) : Prop :=
  ev_seed e = seed_string base_seed (ev_puzzle e) (ev_attempt e) /\
  forall params, outcome_params (ev_outcome e) = Some params ->
                 params = make_params size diff profile.

(** What the library answers in state [w0], as functions of the arguments. *)
Definition answers (G : Stateful.generator) (w0 : Stateful.world G) : generator :=
  {| random_state := Stateful.random_state G;
     random_new := fun seed_str => (Stateful.random_new G seed_str w0).1;
     new_game_desc := fun params rs => (Stateful.new_game_desc G params rs w0).1 |}.

(** A library that counts its calls and answers from the seed string
    alone. *)
Definition counting_generator (pick : cstring -> option cstring)
  : Stateful.generator :=
  {| Stateful.world := Z;
     Stateful.random_state := cstring;
     Stateful.random_new := fun seed_str w => (Some seed_str, w + 1);
     Stateful.new_game_desc := fun _ rs w => (pick rs, w + 1);
     Stateful.random_free := fun _ w => w + 1 |}.

(** A library whose descriptor depends on how many calls it has seen: it
    gives a descriptor only when that number is even. *)
Definition moody_generator : Stateful.generator :=
  {| Stateful.world := Z;
     Stateful.random_state := cstring;
     Stateful.random_new := fun seed_str w => (Some seed_str, w + 1);
     Stateful.new_game_desc :=
       fun _ _ w => (if Z.even w then Some good_desc else None, w + 1);
     Stateful.random_free := fun _ w => w |}.

(** ** Decoding malformed descriptors *)

(** The vocabulary of the wire format: the roots field is a list of
    tokens joined by commas; the clue field is a list of entries, an
    operator character followed by a value field. *)
Fixpoint join_commas (toks : list cstring) : cstring :=
  match toks with
  | [] => []
  | tok :: toks' =>
      match toks' with
      | [] => tok
      | _ :: _ => tok ++ COMMA :: join_commas toks'
      end
  end.

Fixpoint split_commas (s : cstring) : list cstring :=
  match s with
  | [] => [[]]
  | c :: s' =>
      if is_char c COMMA then [] :: split_commas s'
      else match split_commas s' with
           | tok :: toks => (c :: tok) :: toks
           | [] => [[c]]
           end
  end.

Definition all_digits (tok : cstring) : bool := forallb isdigit tok.

(** The number a string of digits denotes (no wrap-around). *)
Definition decimal_from (acc : Z) (tok : cstring) : Z :=
  fold_left (fun v c => v * 10 + (code c - 48)) tok acc.

Definition decimal_value (tok : cstring) : Z := decimal_from 0 tok.

(** The number of digits a string starts with. *)
Fixpoint leading_digits (s : cstring) : nat :=
  match s with
  | c :: s' => if isdigit c then S (leading_digits s') else O
  | [] => O
  end.

(** The tokens of the roots field and the segments of the clue field of a
    descriptor. *)
Definition root_tokens (desc : cstring) : list cstring :=
  match strchr_semi desc with
  | Some (field, _) => split_commas field
  | None => []
  end.

Definition clue_segments (desc : cstring) : list cstring :=
  match strchr_semi desc with
  | Some (_, clues) => split_commas clues
  | None => []
  end.

(** A root index that does not fit an [int]: the accumulation wraps to 0. *)
Definition wrapped_root_desc : cstring :=
  lit "4294967296,0,0,3,3,3,6,6,6;a00006,m00006,s00001".

(** Clue segments [b1] and [c2], whose value fields have one digit. *)
Definition short_clue_desc : cstring :=
  lit "0,0,0,3,3,3,6,6,6;a00006,m00006,s00001,b1,c2,,d00003".

(** A token of the roots field: any characters but the two separators. *)
Definition field_token (tok : cstring) : Prop :=
  (COMMA ∉ tok) /\ (SEMI ∉ tok).

(** A token that is no cell index of a grid with [a] cells: it is empty,
    holds a character that is not a digit, or denotes a number of [int]
    range that is not below [a].  (A run of digits whose number does not
    fit an [int] wraps around while it is read.) *)
Definition bad_root_token (a : Z) (tok : cstring) : Prop :=
  tok = [] \/ all_digits tok = false \/ a <= decimal_value tok <= INT_MAX.

Definition roots_rejected (res : option (list Z * cstring)) : Prop :=
  match res with
  | Some (_, []) => False
  | _ => True
  end.

(** Clue entries: an operator and a value field.  In the clue field each
    is followed by a comma. *)
Definition render_entries (entries : list (ascii * cstring)) : cstring :=
  flat_map (fun e => e.1 :: e.2 ++ [COMMA]) entries.

(** An entry [clue_values_within_cap] passes over: a letter and five
    characters. *)
Definition field_entry (e : ascii * cstring) : Prop :=
  isalpha e.1 = true /\ length e.2 = 5%nat.

(** An entry [parse_ops] passes over: a character and five digits. *)
Definition digit_entry (e : ascii * cstring) : Prop :=
  length e.2 = 5%nat /\ all_digits e.2 = true.

(** The cells that are their own root, in index order: the cells whose
    entry [parse_ops] reads. *)
Definition own_roots (roots : list Z) (a : Z) : list Z :=
  List.filter (fun i => rd roots i =? i) (seqZ 0 a).

(** * Vocabulary of the further properties *)

(** ** Well-formed descriptors *)

(** A token [parse_root_indices] accepts for a grid of [a] cells: a
    non-empty run of digits that denotes a cell index. *)
Definition root_token (a : Z) (tok : cstring) : Prop :=
  tok <> [] /\ all_digits tok = true /\ decimal_value tok < a.

(** How a token of the roots field and the root read from it are related
    when [parse_root_indices] returns true. *)
Definition token_read (a : Z) (tok : cstring) (r : Z) : Prop :=
  tok <> [] /\ all_digits tok = true /\ 0 <= r < a /\
  (decimal_value tok <= INT_MAX -> r = decimal_value tok).

(** The clue fields [clue_values_within_cap] accepts: entries of a letter
    and any five characters, separated by single commas, with an optional
    comma after the last one. *)
Inductive clue_field : cstring -> Prop :=
  | clue_field_empty : clue_field []
  | clue_field_last (op : ascii) (field : cstring) :
      isalpha op = true -> length field = 5%nat -> clue_field (op :: field)
  | clue_field_more (op : ascii) (field rest : cstring) :
      isalpha op = true -> length field = 5%nat -> clue_field rest ->
      clue_field (op :: field ++ COMMA :: rest).

(** Storing operators into the cells [cells], in order:
    [ops[cell] = op] for each pair. *)
Fixpoint assign_ops (cells : list Z) (operators : list ascii) (ops : list ascii)
  : list ascii :=
  match cells, operators with
  | i :: cells', op :: operators' =>
      assign_ops cells' operators' (<[Z.to_nat i := op]> ops)
  | _, _ => ops
  end.

(** An entry as [parse_ops] read it: the operator, the five characters
    after it, and whether a comma was skipped after them. *)
Definition read_entry : Type := ascii * cstring * bool.

Definition render_read (e : read_entry) : cstring :=
  e.1.1 :: e.1.2 ++ (if e.2 then [COMMA] else []).

(** ** Caps *)

(** A cap [cap'] is at least as permissive as [cap]: it is disabled, or
    both are enabled and [cap'] is the larger. *)
Definition looser (cap cap' : Z) : Prop := cap' <= 0 \/ (0 < cap /\ cap <= cap').

(** ** Attempts of a run *)

(** The attempts the samples of a run made, added up. *)
Definition attempts_sum (samples : list sample) : Z :=
  foldr Z.add 0 (sm_attempts <$> samples).

(** Every attempt of a run, in order. *)
Definition run_events_of (samples : list sample) : list attempt_event :=
  concat (sm_events <$> samples).

(** ** Runs of run_profile_tests *)

Definition failures_sum (results : list TestResult) : Z :=
  foldr Z.add 0 (tr_failures <$> results).

(** The row of the detailed table that belongs to a result: labelled with
    the result's own size and difficulty. *)
Definition row_of (r : TestResult) : option detail_row :=
  match DIFF_NAMES !! Z.to_nat (tr_diff r) with
  | None => None
  | Some name =>
      Some {| dr_size := tr_size r; dr_name := name; dr_status := status_of r |}
  end.

(** Entry number [i] of [results] in a run over sizes from [min_size] with
    [diff_count] difficulties each. *)
Definition result_ok (min_size diff_count i : Z) (r : TestResult) : Prop :=
  tr_size r = min_size + i / diff_count /\
  tr_diff r = i mod diff_count /\
  tr_puzzles r = PUZZLES_PER_COMBO /\
  0 <= tr_successes r /\ 0 <= tr_failures r /\
  tr_successes r + tr_failures r = PUZZLES_PER_COMBO.

Section ProfileRunInvariants.
Variable G : generator.
Variable fuel : nat.
Variables profile min_size max_size diff_count max_cage_size : Z.
Variable enforce_mul_cap : bool.
Variable base_seed : Z.

(** The number of combinations, without wrap-around. *)
Definition combos : Z := (max_size - min_size + 1) * diff_count.

(** Call number [i] of [test_combination], and the result [r] it gave. *)
Definition call_ok (i : Z) (call : combo_call) (r : TestResult) : Prop :=
  cc_size call = min_size + i / diff_count /\
  cc_diff call = i mod diff_count /\
  cc_base_seed call = u32 (base_seed + 1000 * i) /\
  (if enforce_mul_cap
   then max_mul_cells_for_size fuel (cc_size call) = Some (cc_max_mul_cells call)
   else cc_max_mul_cells call = 0) /\
  print_progress i combos = Some (cc_progress call) /\
  sm_puzzle <$> cc_samples call = seqZ 0 PUZZLES_PER_COMBO /\
  Forall (sample_ok G (cc_size call) (cc_diff call) profile max_cage_size
            (cc_max_mul_cells call) (cc_base_seed call))
         (cc_samples call) /\
  tr_successes r = count_samples sm_success (cc_samples call) /\
  tr_failures r = count_samples exhausted (cc_samples call).

(** The invariant of the generation loops after [c] combinations. *)
Definition profile_inv (c : Z) (st : profile_state) : Prop :=
  Z.of_nat (length (ps_results st)) = c /\
  length (ps_calls st) = length (ps_results st) /\
  ps_total_tests st = PUZZLES_PER_COMBO * c /\
  ps_total_successes st + ps_total_failures st = PUZZLES_PER_COMBO * c /\
  0 <= ps_total_successes st /\
  0 <= ps_total_failures st /\
  ps_total_failures st = failures_sum (ps_results st) /\
  (forall i r, ps_results st !! i = Some r ->
               result_ok min_size diff_count (Z.of_nat i) r) /\
  (forall i call r, ps_calls st !! i = Some call -> ps_results st !! i = Some r ->
                    call_ok (Z.of_nat i) call r).

(** The invariant of the loops of the detailed table after [c] rows. *)
Definition rows_inv (results : list TestResult) (c : Z)
    (acc : Z * list detail_row) : Prop :=
  acc.1 = c /\ row_of <$> take (Z.to_nat c) results = Some <$> acc.2.

End ProfileRunInvariants.

(** What a complete run of [run_profile_tests] leaves. *)
Definition report_ok (G : generator) (fuel : nat)
    (profile min_size max_size diff_count max_cage_size : Z)
    (enforce_mul_cap : bool) (base_seed : Z) (report : profile_report) : Prop :=
  let n := combos min_size max_size diff_count in
  Z.of_nat (length (pr_results report)) = n /\
  length (pr_calls report) = length (pr_results report) /\
  pr_total_tests report = PUZZLES_PER_COMBO * n /\
  pr_total_successes report + pr_failures report = PUZZLES_PER_COMBO * n /\
  0 <= pr_total_successes report /\
  0 <= pr_failures report /\
  pr_failures report = failures_sum (pr_results report) /\
  (forall i r, pr_results report !! i = Some r ->
               result_ok min_size diff_count (Z.of_nat i) r) /\
  (forall i call r, pr_calls report !! i = Some call ->
                    pr_results report !! i = Some r ->
                    call_ok G fuel profile min_size max_size diff_count
                      max_cage_size enforce_mul_cap base_seed
                      (Z.of_nat i) call r) /\
  print_progress n n = Some (pr_final_progress report) /\
  pr_header report = header_cell <$> take (Z.to_nat diff_count) DIFF_NAMES /\
  row_of <$> pr_results report = Some <$> pr_rows report /\
  pr_all_passed report = negb (pr_failures report >? 0).

(** ** Runs of the max-flow test driver *)

(** The solver returns on the graph of a test. *)
Definition solver_returns (sv : MaxflowTest.solver)
    (g : Z * Z * Z * Z * list Z * list Z) : Prop :=
  let '(nv, source, sink, ne, edges, capacity) := g in
  is_Some (MaxflowTest.maxflow_with_scratch sv nv source sink ne edges
             (MaxflowTest.maxflow_setup_backedges sv ne edges) capacity
             (replicate (Z.to_nat ne) 0)).

(** The graphs of the seven tests that call the solver: [nv], [source],
    [sink], [ne], [edges] and [capacity]. *)
Definition test_graphs : list (Z * Z * Z * Z * list Z * list Z) :=
  [(2, 0, 1, 1, [0; 1], [5]);
   (4, 0, 3, 4, [0; 1; 0; 2; 1; 3; 2; 3], [3; 2; 2; 3]);
   (4, 0, 3, 2, [0; 1; 2; 3], [5; 5]);
   (4, 0, 3, 3, [0; 1; 1; 2; 2; 3], [10; 2; 10]);
   (4, 0, 3, 5, [0; 1; 0; 2; 1; 2; 1; 3; 2; 3], [10; 10; 1; 10; 10]);
   (3, 0, 2, 2, [0; 1; 1; 2], [5; 0]);
   (8, 0, 7, 7, [0; 1; 1; 2; 2; 3; 3; 4; 4; 5; 5; 6; 6; 7], [5; 5; 5; 5; 5; 5; 5])].

(** The number of [FAIL] verdicts. *)
Definition failed_count (verdicts : list bool) : Z :=
  Z.of_nat (length (List.filter negb verdicts)).

(** What a test function does to the counters when it makes between [lo]
    and [hi] assertions: it returns 0 or 1, and [tests_run - tests_passed]
    grows by one exactly when it returns 0. *)
Definition test_ok (lo hi : Z) (fn : MaxflowTest.test) : Prop :=
  forall c,
    0 <= MaxflowTest.tests_passed c <= MaxflowTest.tests_run c ->
    MaxflowTest.tests_run c + hi <= 100 ->
    exists c' v,
      fn c = Some (c', v) /\ (v = 0 \/ v = 1) /\
      MaxflowTest.tests_passed c <= MaxflowTest.tests_passed c' /\
      MaxflowTest.tests_run c + lo <= MaxflowTest.tests_run c'
        <= MaxflowTest.tests_run c + hi /\
      MaxflowTest.tests_run c' - MaxflowTest.tests_passed c'
        = MaxflowTest.tests_run c - MaxflowTest.tests_passed c + (1 - v).

(** Modelled from the spec: the solver of [Maxflow] as a solver for the
    driver; it starts from the zero flow whatever [flow] holds. *)
Definition model_solver : MaxflowTest.solver :=
  {| MaxflowTest.maxflow_setup_backedges := Maxflow.maxflow_setup_backedges;
     MaxflowTest.maxflow_with_scratch :=
       fun nv source sink ne edges backedges capacity _ =>
         Maxflow.maxflow_with_scratch nv source sink ne edges backedges capacity |}.

(** * Properties *)

Example clue_values_ok :
  clue_values_within_cap (lit "0,0,0,0;a00004") = true.
Proof. reflexivity. Qed.

(** ** Properties of [atoi] *)

Lemma isdigit_code c : isdigit c = true -> 0 <= code c - 48 <= 9.
Proof. unfold isdigit. intros H. apply andb_true_iff in H. lia. Qed.

Lemma atoi_digits_bounds s : forall acc,
  0 <= acc ->
  acc <= atoi_digits s acc < (acc + 1) * 10 ^ Z.of_nat (length s).
Proof.
  induction s as [|c s IH]; intros acc Hacc; simpl atoi_digits.
  - simpl. lia.
  - destruct (isdigit c) eqn:Hd.
    + apply isdigit_code in Hd.
      specialize (IH (acc * 10 + (code c - 48)) ltac:(lia)).
      replace (Z.of_nat (length (c :: s))) with (Z.succ (Z.of_nat (length s)))
        by (simpl length; lia).
      rewrite Z.pow_succ_r by lia.
      assert (0 < 10 ^ Z.of_nat (length s)) by (apply Z.pow_pos_nonneg; lia).
      nia.
    + assert (1 <= 10 ^ Z.of_nat (length (c :: s)))
        by (apply Z.lt_pred_le, Z.pow_pos_nonneg; lia).
      nia.
Qed.

Lemma atoi_upper s : atoi s < 10 ^ Z.of_nat (length s).
Proof.
  induction s as [|c s IH].
  - simpl. lia.
  - assert (Hpow : 10 ^ Z.of_nat (length s) <= 10 ^ Z.of_nat (length (c :: s))).
    { apply Z.pow_le_mono_r; simpl length; lia. }
    assert (Hpos : 0 < 10 ^ Z.of_nat (length s)) by (apply Z.pow_pos_nonneg; lia).
    change (atoi (c :: s)) with
      (if isspace c then atoi s
       else if is_char c "-"%char then - atoi_digits s 0
       else if is_char c "+"%char then atoi_digits s 0
       else atoi_digits (c :: s) 0).
    destruct (isspace c); [lia|].
    destruct (is_char c "-").
    { pose proof (atoi_digits_bounds s 0 ltac:(lia)). lia. }
    destruct (is_char c "+").
    { pose proof (atoi_digits_bounds s 0 ltac:(lia)). lia. }
    pose proof (atoi_digits_bounds (c :: s) 0 ltac:(lia)). lia.
Qed.

Lemma atoi_five c1 c2 c3 c4 c5 : atoi [c1; c2; c3; c4; c5] <= MAX_CLUE_VALUE.
Proof.
  pose proof (atoi_upper [c1; c2; c3; c4; c5]) as H.
  change (10 ^ Z.of_nat (length [c1; c2; c3; c4; c5])) with 100000 in H.
  unfold MAX_CLUE_VALUE. lia.
Qed.

(** ** The over-cap exit of [clue_values_within_cap] *)

Lemma clue_values_loop_entry op c1 c2 c3 c4 c5 p2 :
  clue_values_loop (op :: c1 :: c2 :: c3 :: c4 :: c5 :: p2) =
  if negb (isalpha op) then Reject BadOperator
  else if atoi [c1; c2; c3; c4; c5] >? MAX_CLUE_VALUE then Reject OverCap
  else match p2 with
       | [] => Pass
       | c :: p3 => if is_char c COMMA then clue_values_loop p3 else Reject BadTrailing
       end.
Proof. reflexivity. Qed.

Lemma clue_values_loop_short op p1 :
  (length p1 < 5)%nat ->
  clue_values_loop (op :: p1) =
  if negb (isalpha op) then Reject BadOperator else Reject ShortField.
Proof.
  intros Hlen.
  destruct p1 as [|c1 [|c2 [|c3 [|c4 [|c5 p2]]]]]; try reflexivity.
  simpl in Hlen. lia.
Qed.

Lemma atoi_five_leb c1 c2 c3 c4 c5 :
  (atoi [c1; c2; c3; c4; c5] >? MAX_CLUE_VALUE) = false.
Proof. pose proof (atoi_five c1 c2 c3 c4 c5). lia. Qed.

Lemma clue_values_loop_sites n : forall p,
  (length p <= n)%nat ->
  clue_values_loop p = Pass \/ clue_values_loop p = Reject BadOperator \/
  clue_values_loop p = Reject ShortField \/ clue_values_loop p = Reject BadTrailing.
Proof.
  induction n as [|n IH]; intros p Hlen.
  - destruct p; [now left | simpl in Hlen; lia].
  - destruct p as [|op p1]; [now left|].
    destruct (Nat.lt_ge_cases (length p1) 5) as [Hshort|Hlong].
    + rewrite clue_values_loop_short by exact Hshort.
      destruct (negb (isalpha op)); auto.
    + destruct p1 as [|c1 [|c2 [|c3 [|c4 [|c5 p2]]]]]; simpl in Hlong; try lia.
      rewrite clue_values_loop_entry, atoi_five_leb.
      destruct (negb (isalpha op)); [auto|].
      destruct p2 as [|c p3]; [now left|].
      destruct (is_char c COMMA); [|auto].
      apply IH. simpl in Hlen. lia.
Qed.

(** C10.  In [clue_values_within_cap] the exit taken when a parsed value
    exceeds [MAX_CLUE_VALUE] is never reached: [atoi] of a five-character
    field is at most 99999.  For every input the function returns false
    only at one of the four structural exits (no [';'], an operator that
    is not a letter, fewer than five characters left, a bad character
    after the field). *)
Theorem clue_values_over_cap_unreachable (desc : cstring) :
  clue_values_verdict desc <> Reject OverCap /\
  (forall c1 c2 c3 c4 c5, atoi [c1; c2; c3; c4; c5] <= MAX_CLUE_VALUE) /\
  (clue_values_within_cap desc = false ->
   clue_values_verdict desc = Reject NoDelimiter \/
   clue_values_verdict desc = Reject BadOperator \/
   clue_values_verdict desc = Reject ShortField \/
   clue_values_verdict desc = Reject BadTrailing).
Proof.
  assert (Hsites :
    clue_values_verdict desc = Pass \/
    clue_values_verdict desc = Reject NoDelimiter \/
    clue_values_verdict desc = Reject BadOperator \/
    clue_values_verdict desc = Reject ShortField \/
    clue_values_verdict desc = Reject BadTrailing).
  { unfold clue_values_verdict.
    destruct (strchr_semi desc) as [[before p]|]; [|auto].
    destruct (clue_values_loop_sites (length p) p (le_n _)) as [H|[H|[H|H]]];
      rewrite H; auto. }
  split; [|split].
  - intros Hcap. rewrite Hcap in Hsites.
    destruct Hsites as [H|[H|[H|[H|H]]]]; discriminate H.
  - exact atoi_five.
  - unfold clue_values_within_cap. intros Hfalse.
    destruct Hsites as [H|H]; [rewrite H in Hfalse; discriminate|exact H].
Qed.

(** ** max_mul_cells_for_size *)

Lemma leb_div_mul (val w : Z) :
  0 < w -> (val <=? MAX_CLUE_VALUE / w) = (val * w <=? MAX_CLUE_VALUE).
Proof.
  intros Hw.
  destruct (Z.leb_spec (val * w) MAX_CLUE_VALUE) as [H|H].
  - apply Z.leb_le. apply Z.div_le_lower_bound; lia.
  - apply Z.leb_gt.
    pose proof (Z.mul_div_le MAX_CLUE_VALUE w Hw).
    pose proof (Z.mul_succ_div_gt MAX_CLUE_VALUE w Hw). nia.
Qed.

Lemma max_mul_cells_loop_spec (w : Z) :
  2 <= w <= INT_MAX ->
  forall (fuel : nat) (cells : Z) (vals : list Z),
    0 <= cells ->
    w ^ cells <= MAX_CLUE_VALUE ->
    MAX_CLUE_VALUE < w ^ (cells + Z.of_nat fuel) ->
    exists k,
      max_mul_cells_loop fuel w (w ^ cells) cells vals
        = Some (k, vals ++ (Z.pow w <$> seqZ (cells + 1) (k - cells))) /\
      cells <= k /\ w ^ k <= MAX_CLUE_VALUE < w ^ (k + 1).
Proof.
  intros Hw.
  assert (Hu : u64 w = w).
  { unfold u64. apply Z.mod_small. unfold INT_MAX in Hw. lia. }
  induction fuel as [|fuel IH]; intros cells vals Hcells Hle Hfuel.
  - replace (cells + Z.of_nat 0) with cells in Hfuel by lia. lia.
  - cbn [max_mul_cells_loop]. rewrite Hu.
    destruct (Z.eqb_spec w 0) as [|_]; [lia|].
    rewrite leb_div_mul by lia.
    assert (Hsucc : w ^ (cells + 1) = w ^ cells * w)
      by (rewrite Z.pow_add_r by lia; rewrite Z.pow_1_r; reflexivity).
    destruct (Z.leb_spec (w ^ cells * w) MAX_CLUE_VALUE) as [Hgo|Hstop].
    + assert (Hval : u64 (w ^ cells * w) = w ^ (cells + 1)).
      { rewrite Hsucc. unfold u64. apply Z.mod_small.
        assert (0 < w ^ cells) by (apply Z.pow_pos_nonneg; lia).
        unfold MAX_CLUE_VALUE in Hgo. nia. }
      rewrite Hval.
      destruct (IH (cells + 1) (vals ++ [w ^ (cells + 1)])) as (k & Hk & Hck & Hpow).
      * lia.
      * lia.
      * replace (cells + 1 + Z.of_nat fuel) with (cells + Z.of_nat (S fuel)) by lia.
        exact Hfuel.
      * exists k. split; [|split; [lia|exact Hpow]].
        rewrite Hk. f_equal. f_equal. rewrite <- app_assoc. f_equal.
        rewrite (seqZ_cons (cells + 1) (k - cells)) by lia.
        replace (Z.succ (cells + 1)) with (cells + 1 + 1) by lia.
        replace (Z.pred (k - cells)) with (k - (cells + 1)) by lia.
        reflexivity.
    + exists cells. split; [|split; [lia|lia]].
      replace (cells - cells) with 0 by lia.
      cbn. rewrite app_nil_r. destruct fuel; reflexivity.
Qed.

Example max_mul_cells_3_to_9 :
  max_mul_cells_for_size 17 <$> [3; 4; 5; 6; 7; 8; 9]
  = Some <$> [10; 8; 7; 6; 5; 5; 5].
Proof. reflexivity. Qed.

(** The loop does not end for [w = 1]: any amount of fuel runs out. *)
Example max_mul_cells_width_1 : max_mul_cells_for_size 1000 1 = None.
Proof. vm_compute. reflexivity. Qed.

(** For [w = 0] the loop condition divides by zero: no result, with any
    fuel. *)
Example max_mul_cells_width_0 (fuel : nat) : max_mul_cells_for_size fuel 0 = None.
Proof. destruct fuel; reflexivity. Qed.

(** C2.  For every grid width [w >= 3] (an [int]) the loop of
    [max_mul_cells_for_size] ends (eleven iterations of fuel are enough)
    and returns the largest [k] with [w ^ k <= MAX_CLUE_VALUE]; the
    values [val] takes are exactly [w^0, ..., w^k], so no multiplication
    wraps and none exceeds [MAX_CLUE_VALUE]. *)
Theorem max_mul_cells_largest_exponent (w : Z) (extra : nat) :
  3 <= w <= INT_MAX ->
  exists k,
    max_mul_cells_for_size (11 + extra) w = Some k /\
    0 <= k /\
    w ^ k <= MAX_CLUE_VALUE /\
    (forall j, 0 <= j -> w ^ j <= MAX_CLUE_VALUE -> j <= k) /\
    max_mul_cells_run (11 + extra) w = Some (k, Z.pow w <$> seqZ 0 (k + 1)) /\
    Forall (fun val => 1 <= val <= MAX_CLUE_VALUE) (Z.pow w <$> seqZ 0 (k + 1)).
Proof.
  intros Hw.
  assert (Hfuel : MAX_CLUE_VALUE < w ^ (0 + Z.of_nat (11 + extra))).
  { apply Z.lt_le_trans with (3 ^ 11); [reflexivity|].
    apply Z.le_trans with (3 ^ (0 + Z.of_nat (11 + extra))).
    - apply Z.pow_le_mono_r; lia.
    - apply Z.pow_le_mono_l; lia. }
  destruct (max_mul_cells_loop_spec w ltac:(lia) (11 + extra) 0 [1]
              ltac:(lia) ltac:(rewrite Z.pow_0_r; unfold MAX_CLUE_VALUE; lia) Hfuel)
    as (k & Hrun & Hk & Hpow).
  rewrite Z.pow_0_r in Hrun.
  assert (Hvals : [1] ++ (Z.pow w <$> seqZ (0 + 1) (k - 0))
                  = Z.pow w <$> seqZ 0 (k + 1)).
  { rewrite (seqZ_cons 0 (k + 1)) by lia.
    replace (Z.pred (k + 1)) with (k - 0) by lia. reflexivity. }
  rewrite Hvals in Hrun.
  exists k. unfold max_mul_cells_for_size, max_mul_cells_run.
  rewrite Hrun. repeat split; try lia.
  - intros j Hj Hjle.
    destruct (Z.le_gt_cases j k) as [|Hgt]; [assumption|exfalso].
    assert (w ^ (k + 1) <= w ^ j) by (apply Z.pow_le_mono_r; lia).
    lia.
  - apply Forall_fmap, Forall_forall. intros i Hi.
    apply elem_of_seqZ in Hi. simpl.
    split.
    + apply Z.lt_pred_le, Z.pow_pos_nonneg; lia.
    + apply Z.le_trans with (w ^ k); [|lia].
      apply Z.pow_le_mono_r; lia.
Qed.

(** The theorem at width 9, the largest Classik grid. *)
Lemma max_mul_cells_largest_exponent_witness :
  3 <= 9 <= INT_MAX /\
  exists k,
    max_mul_cells_for_size (11 + 0) 9 = Some k /\
    0 <= k /\
    9 ^ k <= MAX_CLUE_VALUE /\
    (forall j, 0 <= j -> 9 ^ j <= MAX_CLUE_VALUE -> j <= k) /\
    max_mul_cells_run (11 + 0) 9 = Some (k, Z.pow 9 <$> seqZ 0 (k + 1)) /\
    Forall (fun val => 1 <= val <= MAX_CLUE_VALUE) (Z.pow 9 <$> seqZ 0 (k + 1)).
Proof.
  assert (Hw : 3 <= 9 <= INT_MAX) by (unfold INT_MAX; lia).
  split; [exact Hw|].
  exact (max_mul_cells_largest_exponent 9 0 Hw).
Defined.

(** ** Cage sizes *)

Lemma cage_size_nil r : cage_size [] r = 0.
Proof. reflexivity. Qed.

Lemma cage_size_nonneg roots r : 0 <= cage_size roots r.
Proof. unfold cage_size. lia. Qed.

Lemma cage_size_snoc roots r r' :
  cage_size (roots ++ [r]) r' = cage_size roots r' + (if Z.eq_dec r r' then 1 else 0).
Proof.
  unfold cage_size. rewrite count_occ_app. simpl.
  destruct (Z.eq_dec r r'); lia.
Qed.

Lemma cage_size_pos roots r : r ∈ roots -> 0 < cage_size roots r.
Proof.
  intros Hin. apply list_elem_of_In in Hin.
  apply (count_occ_In Z.eq_dec) in Hin. unfold cage_size. lia.
Qed.

Lemma rd_insert_eq (arr : list Z) (i x : Z) :
  (Z.to_nat i < length arr)%nat -> rd (<[Z.to_nat i := x]> arr) i = x.
Proof. intros H. unfold rd. rewrite list_lookup_insert_eq by exact H. reflexivity. Qed.

Lemma rd_insert_ne (arr : list Z) (i j x : Z) :
  Z.to_nat i <> Z.to_nat j -> rd (<[Z.to_nat i := x]> arr) j = rd arr j.
Proof. intros H. unfold rd. rewrite list_lookup_insert_ne by exact H. reflexivity. Qed.

Lemma rd_replicate (n : nat) (x i : Z) :
  (Z.to_nat i < n)%nat -> rd (replicate n x) i = x.
Proof. intros H. unfold rd. rewrite lookup_replicate_2 by exact H. reflexivity. Qed.

Lemma counts_inv_init a : counts_inv a [] (replicate (Z.to_nat a) 0, 0).
Proof.
  repeat split; simpl.
  - apply length_replicate.
  - intros r Hr. rewrite rd_replicate by lia. reflexivity.
  - intros r. rewrite cage_size_nil. lia.
  - left. auto.
Qed.

Lemma counts_inv_step a seen st r :
  0 <= r < a -> counts_inv a seen st -> counts_inv a (seen ++ [r]) (count_step st r).
Proof.
  intros Hr (Hlen & Hrd & Hmax & Hwit).
  assert (Hnew : rd (<[Z.to_nat r := rd st.1 r + 1]> st.1) r = cage_size (seen ++ [r]) r).
  { rewrite rd_insert_eq by lia. rewrite cage_size_snoc, Hrd by lia.
    destruct (Z.eq_dec r r); [reflexivity|contradiction]. }
  unfold count_step. cbn [fst snd]. rewrite Hnew.
  assert (Hgrow : cage_size (seen ++ [r]) r = cage_size seen r + 1).
  { rewrite cage_size_snoc. destruct (Z.eq_dec r r); [reflexivity|contradiction]. }
  repeat split; cbn [fst snd].
  - rewrite length_insert. exact Hlen.
  - intros r' Hr'. destruct (Z.eq_dec r r') as [->|Hne].
    + exact Hnew.
    + rewrite rd_insert_ne by lia. rewrite cage_size_snoc, Hrd by lia.
      destruct (Z.eq_dec r r'); [contradiction|lia].
  - intros r'. pose proof (Hmax r'). pose proof (Hmax r).
    rewrite (cage_size_snoc seen r r').
    destruct (Z.eq_dec r r') as [->|Hne];
      destruct (Z.gtb_spec (cage_size (seen ++ [r']) r') st.2); try lia;
      destruct (Z.gtb_spec (cage_size (seen ++ [r]) r) st.2); lia.
  - right.
    destruct (Z.gtb_spec (cage_size (seen ++ [r]) r) st.2) as [Hgt|Hle].
    + exists r. split; [|reflexivity]. apply elem_of_app. right. apply list_elem_of_singleton. reflexivity.
    + destruct Hwit as [[-> Hzero]|(r0 & Hin & Hsize)].
      * rewrite cage_size_nil in Hgrow. simpl app in *. lia.
      * exists r0. split; [apply elem_of_app; left; exact Hin|].
        rewrite cage_size_snoc. destruct (Z.eq_dec r r0) as [->|Hne]; lia.
Qed.

Lemma counts_inv_fold a cells : forall seen st,
  Forall (fun r => 0 <= r < a) cells ->
  counts_inv a seen st ->
  counts_inv a (seen ++ cells) (fold_left count_step cells st).
Proof.
  induction cells as [|r cells IH]; intros seen st Hrange Hinv.
  - rewrite app_nil_r. exact Hinv.
  - apply Forall_cons in Hrange as [Hr Hrange].
    simpl fold_left.
    replace (seen ++ r :: cells) with ((seen ++ [r]) ++ cells)
      by (rewrite <- app_assoc; reflexivity).
    apply IH; [exact Hrange|]. apply counts_inv_step; assumption.
Qed.

Lemma cage_sizes_counts roots a max_size :
  Z.of_nat (length roots) = a ->
  Forall (fun r => 0 <= r < a) roots ->
  exists counts,
    cage_sizes_within_limit roots a max_size
      = ((counts, (cage_sizes_within_limit roots a max_size).2).2 <=? max_size,
         (cage_sizes_within_limit roots a max_size).2) /\
    counts_inv a roots (counts, (cage_sizes_within_limit roots a max_size).2).
Proof.
  intros Hlen Hrange.
  unfold cage_sizes_within_limit. cbn [fst snd].
  rewrite firstn_all2 by lia.
  pose proof (counts_inv_fold a roots [] _ Hrange (counts_inv_init a)) as Hinv.
  simpl app in Hinv.
  destruct (fold_left count_step roots (replicate (Z.to_nat a) 0, 0)) as [counts m] eqn:Hfold.
  exists counts. split; [reflexivity|exact Hinv].
Qed.

Example cage_sizes_example :
  cage_sizes_within_limit [0; 0; 2; 2; 2; 5; 5; 5; 5] 9 3 = (false, 4).
Proof. reflexivity. Qed.

(** C7.  For a root array of length [a] with entries in [[0, a)] and any
    [max_size], [cage_sizes_within_limit] returns true exactly when no
    cage has more than [max_size] cells, and the value it stores in
    [*max_seen] is the size of the largest cage.  The size of the cage of
    [r] is the number of cells with root [r]; for the empty array the
    stored value is 0. *)
Theorem cage_sizes_within_limit_correct (roots : list Z) (a max_size : Z) :
  Z.of_nat (length roots) = a ->
  Forall (fun r => 0 <= r < a) roots ->
  ((cage_sizes_within_limit roots a max_size).1 = true
     <-> forall r, cage_size roots r <= max_size) /\
  (roots <> [] ->
     ((cage_sizes_within_limit roots a max_size).1 = true
        <-> forall r, r ∈ roots -> cage_size roots r <= max_size)) /\
  (forall r, cage_size roots r <= (cage_sizes_within_limit roots a max_size).2) /\
  (roots <> [] ->
     exists r, r ∈ roots /\
       cage_size roots r = (cage_sizes_within_limit roots a max_size).2) /\
  (roots = [] -> (cage_sizes_within_limit roots a max_size).2 = 0).
Proof.
  intros Hlen Hrange.
  destruct (cage_sizes_counts roots a max_size Hlen Hrange)
    as (counts & Heq & (_ & _ & Hmax & Hwit)).
  cbn [fst snd] in *.
  set (m := (cage_sizes_within_limit roots a max_size).2) in *.
  assert (Hflag : (cage_sizes_within_limit roots a max_size).1 = (m <=? max_size))
    by (rewrite Heq; reflexivity).
  rewrite Hflag.
  assert (Hwit' : roots <> [] -> exists r, r ∈ roots /\ cage_size roots r = m).
  { intros Hne. destruct Hwit as [[Hnil _]|Hex]; [contradiction|exact Hex]. }
  split; [|split; [|split; [|split]]].
  - split.
    + intros Hle r. apply Z.leb_le in Hle. specialize (Hmax r). lia.
    + intros Hall. apply Z.leb_le.
      destruct Hwit as [[-> Hzero]|(r & _ & Hr)].
      * specialize (Hall 0). rewrite cage_size_nil in Hall. lia.
      * specialize (Hall r). lia.
  - intros Hne. split.
    + intros Hle r _. apply Z.leb_le in Hle. specialize (Hmax r). lia.
    + intros Hall. apply Z.leb_le.
      destruct (Hwit' Hne) as (r & Hin & Hr). specialize (Hall r Hin). lia.
  - exact Hmax.
  - exact Hwit'.
  - intros Hnil. destruct Hwit as [[_ Hzero]|(r & Hin & _)]; [exact Hzero|].
    rewrite Hnil in Hin. inversion Hin.
Qed.

(** The theorem on a 3x3 grid with cages of 2, 3 and 4 cells. *)
Lemma cage_sizes_within_limit_correct_witness :
  let roots := [0; 0; 2; 2; 2; 5; 5; 5; 5] in
  (Z.of_nat (length roots) = 9 /\ Forall (fun r => 0 <= r < 9) roots) /\
  ((cage_sizes_within_limit roots 9 6).1 = true
     <-> forall r, cage_size roots r <= 6) /\
  (roots <> [] ->
     ((cage_sizes_within_limit roots 9 6).1 = true
        <-> forall r, r ∈ roots -> cage_size roots r <= 6)) /\
  (forall r, cage_size roots r <= (cage_sizes_within_limit roots 9 6).2) /\
  (roots <> [] ->
     exists r, r ∈ roots /\
       cage_size roots r = (cage_sizes_within_limit roots 9 6).2) /\
  (roots = [] -> (cage_sizes_within_limit roots 9 6).2 = 0).
Proof.
  assert (Hlen : Z.of_nat (length [0; 0; 2; 2; 2; 5; 5; 5; 5]) = 9) by reflexivity.
  assert (Hrange : Forall (fun r => 0 <= r < 9) [0; 0; 2; 2; 2; 5; 5; 5; 5])
    by (repeat constructor; lia).
  split; [split; [exact Hlen|exact Hrange]|].
  exact (cage_sizes_within_limit_correct [0; 0; 2; 2; 2; 5; 5; 5; 5] 9 6 Hlen Hrange).
Defined.

(** ** What an accepted descriptor has passed *)

Lemma parse_roots_loop_range (a : Z) (n : nat) : forall i p roots roots' p',
  parse_roots_loop n i a p roots = Some (roots', p') ->
  exists new, roots' = roots ++ new /\ length new = n /\ in_range a new.
Proof.
  induction n as [|n IH]; intros i p roots roots' p' Hrun.
  - simpl in Hrun. injection Hrun as <- <-.
    exists []. rewrite app_nil_r. repeat split. constructor.
  - cbn [parse_roots_loop] in Hrun.
    destruct (scan_digits p 0 0) as [[val digits] p1].
    destruct ((digits =? 0) || (val <? 0) || (val >=? a)) eqn:Hbad; [discriminate|].
    apply orb_false_iff in Hbad as [Hbad Hhigh].
    apply orb_false_iff in Hbad as [_ Hlow].
    assert (Hval : 0 <= val < a) by lia.
    assert (Hnext : exists j q, parse_roots_loop n j a q (roots ++ [val]) = Some (roots', p')).
    { destruct (i <? a - 1).
      - destruct p1 as [|c p2]; [discriminate|].
        destruct (is_char c COMMA); [eauto|discriminate].
      - eauto. }
    destruct Hnext as (j & q & Hnext).
    apply IH in Hnext as (new & -> & Hlen & Hrange).
    exists (val :: new). rewrite <- app_assoc. repeat split.
    + simpl. lia.
    + constructor; assumption.
Qed.

Lemma parse_root_indices_range desc w roots :
  parse_root_indices desc w = Some roots ->
  length roots = Z.to_nat (wrap32 (w * w)) /\ in_range (wrap32 (w * w)) roots.
Proof.
  unfold parse_root_indices.
  destruct (strchr_semi desc) as [[field rest]|]; [|discriminate].
  cbn zeta.
  destruct (parse_roots_loop _ 0 _ field []) as [[roots' p']|] eqn:Hloop; [|discriminate].
  destruct p'; [|discriminate]. intros [= ->].
  apply parse_roots_loop_range in Hloop as (new & -> & Hlen & Hrange).
  simpl. auto.
Qed.

Lemma fold_tally_counts cells : forall counts m,
  (fold_left count_step cells (counts, m)).1 = fold_left tally cells counts.
Proof.
  induction cells as [|r cells IH]; intros counts m; [reflexivity|].
  simpl. unfold count_step at 2. cbn [fst snd]. rewrite IH. reflexivity.
Qed.

Lemma tally_counts roots a :
  length roots = Z.to_nat a ->
  in_range a roots ->
  forall r, 0 <= r < a ->
    rd (fold_left tally (take (Z.to_nat a) roots) (replicate (Z.to_nat a) 0)) r
    = cage_size roots r.
Proof.
  intros Hlen Hrange r Hr.
  rewrite firstn_all2 by lia.
  rewrite <- (fold_tally_counts roots _ 0).
  pose proof (counts_inv_fold a roots [] _ Hrange (counts_inv_init a)) as (_ & Hrd & _).
  apply Hrd. exact Hr.
Qed.

Lemma cage_sizes_flag_sound roots a max_size :
  length roots = Z.to_nat a ->
  in_range a roots ->
  (cage_sizes_within_limit roots a max_size).1 = true ->
  forall r, cage_size roots r <= max_size.
Proof.
  intros Hlen Hrange Hflag r.
  unfold cage_sizes_within_limit in Hflag. cbn [fst] in Hflag.
  rewrite firstn_all2 in Hflag by lia.
  pose proof (counts_inv_fold a roots [] _ Hrange (counts_inv_init a)) as (_ & _ & Hmax & _).
  simpl app in Hmax. specialize (Hmax r). apply Z.leb_le in Hflag. lia.
Qed.

Lemma mult_cages_flag_sound roots ops a max_mul :
  length roots = Z.to_nat a ->
  in_range a roots ->
  mult_cages_within_limit roots ops a max_mul = true ->
  forall i, 0 <= i < a ->
    rd roots i = i -> rd_char ops i = "m"%char -> cage_size roots i <= max_mul.
Proof.
  intros Hlen Hrange Hflag i Hi Hroot Hop.
  unfold mult_cages_within_limit in Hflag.
  rewrite forallb_forall in Hflag.
  specialize (Hflag i). rewrite <- list_elem_of_In, elem_of_seqZ in Hflag.
  specialize (Hflag ltac:(lia)).
  rewrite tally_counts in Hflag by assumption.
  rewrite Hroot, Hop, Z.eqb_refl in Hflag. cbn in Hflag.
  apply negb_true_iff in Hflag. lia.
Qed.

Lemma clue_values_read_capped n : forall p,
  (length p <= n)%nat -> Forall (fun val => val <= MAX_CLUE_VALUE) (clue_values_read p).
Proof.
  induction n as [|n IH]; intros p Hlen.
  - destruct p; [constructor|simpl in Hlen; lia].
  - destruct p as [|op [|c1 [|c2 [|c3 [|c4 [|c5 p2]]]]]]; try constructor.
    + apply atoi_five.
    + destruct p2 as [|c p3]; [constructor|].
      destruct (is_char c COMMA); [|constructor].
      apply IH. simpl in Hlen. lia.
Qed.

Lemma descriptor_accepted_passes size max_cage_size max_mul_cells desc :
  descriptor_accepted size max_cage_size max_mul_cells desc = true ->
  passes_caps size max_cage_size max_mul_cells desc.
Proof.
  unfold descriptor_accepted, passes_caps. cbn zeta.
  destruct (clue_values_within_cap desc) eqn:Hclue; [|discriminate].
  cbn [negb]. intros Hacc.
  split; [reflexivity|]. split.
  { unfold clue_values. destruct (strchr_semi desc) as [[? p]|]; [|constructor].
    apply (clue_values_read_capped (length p)). reflexivity. }
  destruct (Z.gtb_spec max_cage_size 0) as [Hcage|Hcage];
    destruct (Z.gtb_spec max_mul_cells 0) as [Hmul|Hmul];
    cbn [orb andb] in Hacc;
    (split; [intros Hc|intros Hm]); try lia;
    destruct (parse_root_indices desc size) as [roots|] eqn:Hroots; try discriminate;
    destruct (parse_root_indices_range _ _ _ Hroots) as [Hlen Hrange].
  - destruct (cage_sizes_within_limit roots _ max_cage_size).1 eqn:Hflag; [|discriminate].
    exists roots. split; [reflexivity|]. split; [exact Hflag|].
    eapply cage_sizes_flag_sound; eassumption.
  - destruct (cage_sizes_within_limit roots _ max_cage_size).1; [|discriminate].
    cbn [negb] in Hacc.
    destruct (parse_ops desc size roots _) as [ops|] eqn:Hops; [|discriminate].
    destruct (mult_cages_within_limit roots ops _ max_mul_cells) eqn:Hflag; [|discriminate].
    exists roots, ops. split; [reflexivity|]. split; [exact Hops|]. split; [exact Hflag|].
    eapply mult_cages_flag_sound; eassumption.
  - destruct (cage_sizes_within_limit roots _ max_cage_size).1 eqn:Hflag; [|discriminate].
    exists roots. split; [reflexivity|]. split; [exact Hflag|].
    eapply cage_sizes_flag_sound; eassumption.
  - destruct (parse_ops desc size roots _) as [ops|] eqn:Hops; [|discriminate].
    destruct (mult_cages_within_limit roots ops _ max_mul_cells) eqn:Hflag; [|discriminate].
    exists roots, ops. split; [reflexivity|]. split; [exact Hops|]. split; [exact Hflag|].
    eapply mult_cages_flag_sound; eassumption.
Qed.

(** ** The retry loop *)

Section OrchestratorFacts.
Variable G : generator.
Variables size diff profile max_cage_size max_mul_cells : Z.
Variable base_seed : Z.

Local Abbreviation body :=
  (attempt_body G size diff profile max_cage_size max_mul_cells base_seed).
Local Abbreviation loop :=
  (attempt_loop G size diff profile max_cage_size max_mul_cells base_seed).

Local Abbreviation outcome_of :=
  (outcome_of G size diff profile max_cage_size max_mul_cells).
Local Abbreviation event_of :=
  (event_of G size diff profile max_cage_size max_mul_cells base_seed).
Local Abbreviation loop_post :=
  (loop_post G size diff profile max_cage_size max_mul_cells base_seed).
Local Abbreviation sample_ok :=
  (sample_ok G size diff profile max_cage_size max_mul_cells base_seed).
Local Abbreviation run_inv :=
  (run_inv G size diff profile max_cage_size max_mul_cells base_seed).

Lemma attempt_body_eq puzzle st :
  body puzzle st =
  let ev := event_of puzzle (ls_attempts st + 1) in
  {| ls_success := if is_accepted (ev_outcome ev) then true else ls_success st;
     ls_attempts := ls_attempts st + 1;
     ls_total_attempts := wrap32 (ls_total_attempts st + 1);
     ls_successes := if is_accepted (ev_outcome ev) then ls_successes st + 1
                     else ls_successes st;
     ls_events := ls_events st ++ [ev] |}.
Proof.
  unfold attempt_body, event_of, outcome_of. cbn zeta. cbn [ev_outcome].
  destruct (random_new G _) as [rs|]; [|reflexivity].
  destruct (new_game_desc G _ rs) as [desc|]; [|reflexivity].
  destruct (descriptor_accepted _ _ _ desc); reflexivity.
Qed.

Lemma attempt_loop_exit fuel puzzle st :
  negb (ls_success st) && (ls_attempts st <? MAX_ATTEMPTS) = false ->
  loop fuel puzzle st = Some st.
Proof. intros H. destruct fuel; simpl; rewrite H; reflexivity. Qed.

Lemma attempt_loop_step fuel puzzle st :
  negb (ls_success st) && (ls_attempts st <? MAX_ATTEMPTS) = true ->
  loop (S fuel) puzzle st = loop fuel puzzle (body puzzle st).
Proof. intros H. simpl. rewrite H. reflexivity. Qed.

Lemma attempt_loop_spec (fuel : nat) : forall puzzle st,
  ls_success st = false ->
  0 <= ls_attempts st <= MAX_ATTEMPTS ->
  (Z.to_nat (MAX_ATTEMPTS - ls_attempts st) <= fuel)%nat ->
  exists st', loop fuel puzzle st = Some st' /\ loop_post puzzle st st'.
Proof.
  induction fuel as [|fuel IH]; intros puzzle st Hfail Hrange Hfuel.
  - assert (Hfull : ls_attempts st = MAX_ATTEMPTS) by lia.
    exists st. split.
    + apply attempt_loop_exit. rewrite Hfail. simpl. lia.
    + exists []. rewrite app_nil_r, Z.sub_diag.
      split; [reflexivity|]. split; [reflexivity|]. split; [lia|].
      left. split; [exact Hfail|]. split; [exact Hfull|]. split; [reflexivity|constructor].
  - destruct (Z.ltb_spec (ls_attempts st) MAX_ATTEMPTS) as [Hlt|Hge].
    + rewrite attempt_loop_step by (rewrite Hfail; simpl; lia).
      rewrite attempt_body_eq. cbn zeta.
      set (ev := event_of puzzle (ls_attempts st + 1)).
      destruct (is_accepted (ev_outcome ev)) eqn:Hacc.
      * eexists. split; [apply attempt_loop_exit; reflexivity|].
        exists [ev]. cbn [ls_events ls_attempts ls_success ls_successes].
        replace (ls_attempts st + 1 - ls_attempts st) with 1 by lia.
        split; [reflexivity|]. split; [reflexivity|]. split; [lia|].
        right. split; [reflexivity|]. split; [lia|]. split; [reflexivity|].
        exists [], ev. split; [reflexivity|]. split; [exact Hacc|constructor].
      * rewrite Hfail.
        set (st1 := {| ls_success := false; ls_attempts := ls_attempts st + 1;
                       ls_total_attempts := wrap32 (ls_total_attempts st + 1);
                       ls_successes := ls_successes st;
                       ls_events := ls_events st ++ [ev] |}).
        destruct (IH puzzle st1) as (st' & Hrun & evs & Hevs & Hshape & Hatt & Hend).
        { reflexivity. }
        { subst st1. cbn [ls_attempts]. lia. }
        { subst st1. cbn [ls_attempts]. lia. }
        subst st1. cbn [ls_events ls_attempts ls_success ls_successes] in *.
        exists st'. split; [exact Hrun|].
        exists (ev :: evs). rewrite Hevs, <- app_assoc.
        split; [reflexivity|]. split; [|split; [lia|]].
        { rewrite (seqZ_cons (ls_attempts st + 1)) by lia. cbn [fmap list_fmap].
          fold ev. f_equal. rewrite Hshape. f_equal. f_equal; lia. }
        destruct Hend as [(Hs & Ha & Hn & Hall)|(Hs & Ha & Hn & failed & last & Hsplit & Hlast & Hall)].
        -- left. split; [exact Hs|]. split; [exact Ha|]. split; [lia|].
           constructor; assumption.
        -- right. split; [exact Hs|]. split; [lia|]. split; [lia|].
           exists (ev :: failed), last. rewrite Hsplit.
           split; [reflexivity|]. split; [exact Hlast|].
           constructor; assumption.
    + assert (Hfull : ls_attempts st = MAX_ATTEMPTS) by lia.
      exists st. split.
      * apply attempt_loop_exit. rewrite Hfail. simpl. lia.
      * exists []. rewrite app_nil_r, Z.sub_diag.
        split; [reflexivity|]. split; [reflexivity|]. split; [lia|].
        left. split; [exact Hfail|]. split; [exact Hfull|]. split; [reflexivity|constructor].
Qed.

Local Abbreviation start_state total successes :=
  {| ls_success := false; ls_attempts := 0; ls_total_attempts := total;
     ls_successes := successes; ls_events := [] |}.

(** C5.  The retry loop of a sample ends within [MAX_ATTEMPTS] = 25
    iterations (that much fuel is enough, whatever the generator does).
    When it ends, iteration number [k] was attempt number [k], for every
    iteration and whatever its outcome (no random state, no descriptor, a
    rejected descriptor, an accepted one), so the attempt count is the
    number of iterations; and either the sample is accepted, with an
    attempt count between 1 and 25 and its last attempt the only accepted
    one, or it is exhausted after exactly 25 attempts, none accepted. *)
Theorem retry_loop_bounded (extra : nat) (puzzle total successes : Z) :
  exists st,
    loop (Z.to_nat MAX_ATTEMPTS + extra) puzzle (start_state total successes) = Some st /\
    ls_events st = event_of puzzle <$> seqZ 1 (ls_attempts st) /\
    Z.of_nat (length (ls_events st)) = ls_attempts st /\
    ((ls_success st = true /\ 1 <= ls_attempts st <= 25 /\
      exists failed ev, ls_events st = failed ++ [ev] /\
        is_accepted (ev_outcome ev) = true /\
        Forall (fun ev' => is_accepted (ev_outcome ev') = false) failed)
     \/
     (ls_success st = false /\ ls_attempts st = 25 /\
      Forall (fun ev => is_accepted (ev_outcome ev) = false) (ls_events st))).
Proof.
  destruct (attempt_loop_spec (Z.to_nat MAX_ATTEMPTS + extra) puzzle
              (start_state total successes))
    as (st & Hrun & evs & Hevs & Hshape & Hatt & Hend).
  { reflexivity. }
  { cbn [ls_attempts]. unfold MAX_ATTEMPTS. lia. }
  { cbn [ls_attempts]. lia. }
  cbn [ls_events ls_attempts ls_successes app] in *.
  rewrite Z.sub_0_r in Hshape. rewrite <- Hevs in *.
  exists st. split; [exact Hrun|]. split; [exact Hshape|]. split.
  { rewrite Hshape, length_fmap, length_seqZ. lia. }
  unfold MAX_ATTEMPTS in *.
  destruct Hend as [(Hs & Ha & _ & Hall)|(Hs & Ha & _ & Hlast)].
  - right. auto.
  - left. split; [exact Hs|]. split; [lia|exact Hlast].
Qed.

(** ** The loop over the samples *)

Lemma count_samples_snoc f samples s :
  count_samples f (samples ++ [s])
  = count_samples f samples + (if f s then 1 else 0).
Proof.
  unfold count_samples. rewrite List.filter_app, length_app. simpl.
  destruct (f s); simpl; lia.
Qed.

Lemma count_samples_total samples :
  count_samples sm_success samples + count_samples exhausted samples
  = Z.of_nat (length samples).
Proof.
  induction samples as [|s samples IH]; [reflexivity|].
  unfold count_samples, exhausted in *. simpl.
  destruct (sm_success s); simpl; lia.
Qed.

Local Abbreviation pbody :=
  (puzzle_body G size diff profile max_cage_size max_mul_cells base_seed).
Local Abbreviation ploop :=
  (puzzles_loop G size diff profile max_cage_size max_mul_cells base_seed).

Lemma puzzle_body_spec (extra : nat) (puzzle : Z) (st : run_state) :
  0 <= puzzle ->
  run_inv puzzle st ->
  exists st',
    pbody (Z.to_nat MAX_ATTEMPTS + extra) puzzle st = Some st' /\
    run_inv (puzzle + 1) st' /\
    tr_size (rs_result st') = tr_size (rs_result st) /\
    tr_diff (rs_result st') = tr_diff (rs_result st) /\
    tr_puzzles (rs_result st') = tr_puzzles (rs_result st).
Proof.
  intros Hpuzzle (Hidx & Hsucc & Hfail & Hall).
  unfold puzzle_body.
  destruct (attempt_loop_spec (Z.to_nat MAX_ATTEMPTS + extra) puzzle
              (start_state (rs_total_attempts st) (tr_successes (rs_result st))))
    as (ls & Hrun & evs & Hevs & Hshape & Hatt & Hend).
  { reflexivity. }
  { cbn [ls_attempts]. unfold MAX_ATTEMPTS. lia. }
  { cbn [ls_attempts]. lia. }
  cbn [ls_events ls_attempts ls_successes app] in *.
  rewrite Z.sub_0_r in Hshape. rewrite <- Hevs in *.
  rewrite Hrun. eexists. split; [reflexivity|].
  cbn [rs_result rs_samples tr_size tr_diff tr_puzzles tr_successes tr_failures].
  split; [|auto].
  unfold run_inv. cbn [rs_result rs_samples tr_successes tr_failures].
  rewrite fmap_app, Hidx, !count_samples_snoc. cbn [fmap list_fmap sm_puzzle].
  unfold exhausted at 2. cbn [sm_success].
  split; [|split; [|split]].
  - rewrite (seqZ_app 0 puzzle 1) by lia. reflexivity.
  - destruct Hend as [(Hs & _ & Hn & _)|(Hs & _ & Hn & _)]; rewrite Hs, Hn; simpl; lia.
  - destruct Hend as [(Hs & _ & Hn & _)|(Hs & _ & Hn & _)]; rewrite Hs; simpl; lia.
  - apply Forall_app. split; [exact Hall|]. constructor; [|constructor].
    unfold sample_ok. cbn [sm_events sm_puzzle sm_attempts sm_success].
    split; [exact Hshape|].
    destruct Hend as [(Hs & Ha & _ & Hnone)|(Hs & Ha & _ & Hlast)].
    + right. auto.
    + left. split; [exact Hs|]. split; [lia|exact Hlast].
Qed.

Lemma puzzles_loop_spec (extra : nat) (n : nat) : forall (puzzle : Z) (st : run_state),
  0 <= puzzle ->
  run_inv puzzle st ->
  exists st',
    ploop (Z.to_nat MAX_ATTEMPTS + extra) n puzzle st = Some st' /\
    run_inv (puzzle + Z.of_nat n) st' /\
    tr_size (rs_result st') = tr_size (rs_result st) /\
    tr_diff (rs_result st') = tr_diff (rs_result st) /\
    tr_puzzles (rs_result st') = tr_puzzles (rs_result st).
Proof.
  induction n as [|n IH]; intros puzzle st Hpuzzle Hinv.
  - exists st. rewrite Z.add_0_r. auto.
  - cbn [puzzles_loop].
    destruct (puzzle_body_spec extra puzzle st Hpuzzle Hinv)
      as (st1 & Hbody & Hinv1 & Hsz & Hdf & Hpz).
    rewrite Hbody.
    destruct (IH (puzzle + 1) st1 ltac:(lia) Hinv1) as (st' & Hrun & Hinv' & Hsz' & Hdf' & Hpz').
    exists st'. split; [exact Hrun|].
    replace (puzzle + Z.of_nat (S n)) with (puzzle + 1 + Z.of_nat n) by lia.
    split; [exact Hinv'|]. rewrite Hsz', Hdf', Hpz'. auto.
Qed.

Local Abbreviation run :=
  (test_combination G size diff profile max_cage_size max_mul_cells base_seed).

(** The run ends; its result and its samples satisfy the loop invariant at
    [max 0 puzzles]. *)
Lemma test_combination_spec (extra : nat) (puzzles : Z) :
  exists result samples,
    run (Z.to_nat MAX_ATTEMPTS + extra) puzzles = Some (result, samples) /\
    sm_puzzle <$> samples = seqZ 0 puzzles /\
    tr_successes result = count_samples sm_success samples /\
    tr_failures result = count_samples exhausted samples /\
    Forall sample_ok samples /\
    tr_size result = size /\ tr_diff result = diff /\ tr_puzzles result = puzzles.
Proof.
  unfold test_combination.
  set (st0 := {| rs_result := _; rs_total_attempts := 0; rs_samples := [] |}).
  destruct (puzzles_loop_spec extra (Z.to_nat puzzles) 0 st0) as (st & Hrun & Hinv & Hsz & Hdf & Hpz).
  { lia. }
  { unfold run_inv. subst st0. cbn. auto. }
  rewrite Hrun. exists (rs_result st), (rs_samples st).
  destruct Hinv as (Hidx & Hs & Hf & Hall).
  split; [reflexivity|]. split.
  { rewrite Hidx. unfold seqZ. rewrite Z.add_0_l, Nat2Z.id. reflexivity. }
  subst st0. cbn in Hsz, Hdf, Hpz. auto 10.
Qed.

Lemma accepted_in_none evs :
  Forall (fun ev => is_accepted (ev_outcome ev) = false) evs -> accepted_in evs = [].
Proof.
  induction 1 as [|ev evs Hev _ IH]; [reflexivity|].
  unfold accepted_in in *. simpl. rewrite IH.
  destruct (ev_outcome ev); try reflexivity. discriminate Hev.
Qed.

Lemma accepted_in_app evs1 evs2 :
  accepted_in (evs1 ++ evs2) = accepted_in evs1 ++ accepted_in evs2.
Proof. unfold accepted_in. apply flat_map_app. Qed.

Lemma outcome_of_accepted seed_str params desc :
  outcome_of seed_str = Accepted params desc ->
  descriptor_accepted size max_cage_size max_mul_cells desc = true.
Proof.
  unfold outcome_of.
  destruct (random_new G seed_str) as [rs|]; [|discriminate].
  destruct (new_game_desc G _ rs) as [d|]; [|discriminate].
  destruct (descriptor_accepted _ _ _ d) eqn:Hacc; [|discriminate].
  intros [= _ <-]. exact Hacc.
Qed.

Lemma accepted_in_events_pass puzzle ks :
  Forall (passes_caps size max_cage_size max_mul_cells)
         (accepted_in (event_of puzzle <$> ks)).
Proof.
  induction ks as [|k ks IH]; [constructor|].
  cbn [fmap list_fmap]. change (event_of puzzle k :: ?l) with ([event_of puzzle k] ++ l).
  rewrite accepted_in_app. apply Forall_app. split; [|exact IH].
  unfold accepted_in. simpl.
  destruct (outcome_of (seed_string base_seed puzzle k)) as [| | |params desc] eqn:Hout;
    try constructor; [|constructor].
  apply descriptor_accepted_passes. eapply outcome_of_accepted. exact Hout.
Qed.

Lemma sample_ok_accepted s :
  sample_ok s ->
  Z.of_nat (length (accepted_in (sm_events s))) = (if sm_success s then 1 else 0) /\
  Forall (passes_caps size max_cage_size max_mul_cells) (accepted_in (sm_events s)).
Proof.
  intros [Hshape Hend]. split.
  - destruct Hend as [(Hs & _ & failed & ev & Hsplit & Hlast & Hnone)|(Hs & _ & Hnone)];
      rewrite Hs.
    + rewrite Hsplit, accepted_in_app, (accepted_in_none failed Hnone).
      unfold accepted_in. simpl. destruct (ev_outcome ev); try discriminate Hlast.
      reflexivity.
    + rewrite (accepted_in_none _ Hnone). reflexivity.
  - rewrite Hshape. apply accepted_in_events_pass.
Qed.

Lemma samples_accepted samples :
  Forall sample_ok samples ->
  Z.of_nat (length (accepted_descriptors samples)) = count_samples sm_success samples /\
  Forall (passes_caps size max_cage_size max_mul_cells) (accepted_descriptors samples).
Proof.
  induction 1 as [|s samples Hs _ [IHn IHp]]; [split; [reflexivity|constructor]|].
  destruct (sample_ok_accepted s Hs) as [Hn Hp].
  unfold accepted_descriptors in *. cbn [flat_map]. split.
  - rewrite length_app, Nat2Z.inj_add, Hn, IHn.
    unfold count_samples. simpl. destruct (sm_success s); simpl; lia.
  - apply Forall_app. split; assumption.
Qed.

(** C1.  A run of [test_combination] ends, and every descriptor it counted
    as a success has passed [clue_values_within_cap] (so every clue value
    it read is at most 99999) and, when [max_cage_size > 0], also
    [cage_sizes_within_limit] (no cage larger than [max_cage_size]), and,
    when [max_mul_cells > 0], also [parse_ops] and
    [mult_cages_within_limit] (no cage with operator ['m'] larger than
    [max_mul_cells]).  The success counter counts exactly these
    descriptors. *)
Theorem accepted_descriptors_within_caps (extra : nat) (puzzles : Z) :
  exists result samples,
    run (Z.to_nat MAX_ATTEMPTS + extra) puzzles = Some (result, samples) /\
    tr_successes result = Z.of_nat (length (accepted_descriptors samples)) /\
    Forall (passes_caps size max_cage_size max_mul_cells)
           (accepted_descriptors samples).
Proof.
  destruct (test_combination_spec extra puzzles)
    as (result & samples & Hrun & _ & Hsucc & _ & Hall & _).
  destruct (samples_accepted samples Hall) as [Hn Hp].
  exists result, samples. split; [exact Hrun|]. split; [lia|exact Hp].
Qed.

Lemma budget_exhausted_eq puzzle :
  budget_exhausted G size diff profile max_cage_size max_mul_cells base_seed puzzle
  = forallb (fun k => negb (is_accepted (outcome_of (seed_string base_seed puzzle k))))
            (seqZ 1 MAX_ATTEMPTS).
Proof. reflexivity. Qed.

Local Abbreviation budget_exhausted :=
  (budget_exhausted G size diff profile max_cage_size max_mul_cells base_seed).

Lemma sample_ok_exhausted s :
  sample_ok s -> exhausted s = budget_exhausted (sm_puzzle s).
Proof.
  intros [Hshape Hend]. unfold exhausted. rewrite budget_exhausted_eq.
  destruct Hend as [(Hs & Hatt & failed & ev & Hsplit & Hlast & _)|(Hs & Hatt & Hnone)];
    rewrite Hs; cbn [negb]; symmetry.
  - apply not_true_is_false. intros Hevery. rewrite forallb_forall in Hevery.
    specialize (Hevery (sm_attempts s)).
    rewrite <- list_elem_of_In, elem_of_seqZ in Hevery.
    specialize (Hevery ltac:(lia)). apply negb_true_iff in Hevery.
    rewrite Hshape in Hsplit.
    replace (sm_attempts s) with ((sm_attempts s - 1) + 1) in Hsplit at 1 by lia.
    rewrite seqZ_app, fmap_app in Hsplit by lia.
    change (seqZ (1 + (sm_attempts s - 1)) 1) with [1 + (sm_attempts s - 1)] in Hsplit.
    cbn [fmap list_fmap] in Hsplit.
    apply app_inj_tail in Hsplit as [_ <-].
    replace (1 + (sm_attempts s - 1)) with (sm_attempts s) in Hlast by lia.
    change (is_accepted
              (outcome_of (seed_string base_seed (sm_puzzle s) (sm_attempts s)))
            = true) in Hlast.
    congruence.
  - apply forallb_forall. intros k Hk.
    rewrite Hshape, Hatt, Forall_fmap, Forall_forall in Hnone.
    apply list_elem_of_In in Hk. specialize (Hnone k Hk).
    change (is_accepted (outcome_of (seed_string base_seed (sm_puzzle s) k)) = false)
      in Hnone.
    rewrite Hnone. reflexivity.
Qed.

Lemma count_exhausted_by_puzzle samples :
  Forall (fun s => exhausted s = budget_exhausted (sm_puzzle s)) samples ->
  count_samples exhausted samples
  = Z.of_nat (length (List.filter budget_exhausted (sm_puzzle <$> samples))).
Proof.
  unfold count_samples.
  induction 1 as [|s samples Hs _ IH]; [reflexivity|].
  rewrite fmap_cons. cbn [List.filter]. rewrite <- Hs.
  destruct (exhausted s); cbn [length]; lia.
Qed.

(** C6.  A run of [test_combination] over [puzzles] samples processes
    every sample, in order, whatever happens to the earlier ones.  Each
    sample makes the attempts [1, 2, ...] on its own seeds and stops at the
    first accepted descriptor or after 25; it is a failure exactly when
    none of the generator's answers to its own 25 seeds is accepted.
    [failures] is the number of such samples among [0 .. puzzles - 1]: a
    sample that uses up its budget adds exactly one, and nothing else
    does.  On return [successes + failures = puzzles]. *)
Theorem exhausted_samples_are_isolated (extra : nat) (puzzles : Z) :
  0 <= puzzles ->
  exists result samples,
    run (Z.to_nat MAX_ATTEMPTS + extra) puzzles = Some (result, samples) /\
    sm_puzzle <$> samples = seqZ 0 puzzles /\
    Forall sample_ok samples /\
    Forall (fun s => exhausted s = budget_exhausted (sm_puzzle s)) samples /\
    tr_failures result
    = Z.of_nat (length (List.filter budget_exhausted (seqZ 0 puzzles))) /\
    tr_successes result + tr_failures result = puzzles /\
    tr_failures result = count_samples exhausted samples /\
    Forall (fun s => exhausted s = true <->
                     sm_attempts s = MAX_ATTEMPTS /\ accepted_in (sm_events s) = [])
           samples.
Proof.
  intros Hpuzzles.
  destruct (test_combination_spec extra puzzles)
    as (result & samples & Hrun & Hidx & Hsucc & Hfail & Hall & _).
  assert (Hown : Forall (fun s => exhausted s = budget_exhausted (sm_puzzle s)) samples).
  { eapply Forall_impl; [exact Hall|]. exact sample_ok_exhausted. }
  exists result, samples. split; [exact Hrun|]. split; [exact Hidx|].
  split; [exact Hall|]. split; [exact Hown|].
  split; [rewrite Hfail, (count_exhausted_by_puzzle samples Hown), Hidx; reflexivity|].
  split; [|split; [exact Hfail|]].
  - rewrite Hsucc, Hfail, count_samples_total.
    rewrite <- (length_fmap sm_puzzle), Hidx, length_seqZ. lia.
  - eapply Forall_impl; [exact Hall|]. intros s Hs.
    destruct (sample_ok_accepted s Hs) as [Hn _].
    destruct Hs as [_ [(Hs & _)|(Hs & Ha & Hnone)]]; unfold exhausted; rewrite Hs in *.
    + split; [discriminate|]. intros [_ Hnil]. rewrite Hnil in Hn. discriminate Hn.
    + split; [|reflexivity]. intros _. split; [exact Ha|].
      apply accepted_in_none. exact Hnone.
Qed.

End OrchestratorFacts.

(** ** Sample runs *)

Example run_third_attempt :
  (fun r : TestResult * list sample =>
     (tr_successes r.1, tr_failures r.1, tr_attempts r.1,
             sm_attempts <$> r.2)) <$>
  test_combination (seeded_generator third_attempt) 3 0 0 6 10 1000 25 2
  = Some (2, 0, 6, [3; 3]).
Proof. vm_compute. reflexivity. Qed.

Example run_exhausted :
  (fun r : TestResult * list sample =>
     (tr_successes r.1, tr_failures r.1, tr_attempts r.1,
             sm_attempts <$> r.2)) <$>
  test_combination (constant_generator None) 3 0 0 6 10 1000 25 2
  = Some (0, 2, 50, [25; 25]).
Proof. vm_compute. reflexivity. Qed.

(** An exhausted sample before and after an accepted one. *)
Example run_mixed :
  (fun r : TestResult * list sample =>
     (tr_successes r.1, tr_failures r.1, tr_attempts r.1,
      sm_success <$> r.2, sm_attempts <$> r.2)) <$>
  test_combination (seeded_generator second_sample_only) 3 0 0 6 10 1000 25 3
  = Some (1, 2, 53, [false; true; false], [25; 3; 25]).
Proof. vm_compute. reflexivity. Qed.

(** With less fuel than [MAX_ATTEMPTS] the loop of an exhausted sample
    does not reach its exit. *)
Example run_exhausted_short_fuel :
  test_combination (constant_generator None) 3 0 0 6 10 1000 24 2 = None.
Proof. vm_compute. reflexivity. Qed.

Example seed_string_example :
  seed_string 4294967295 2 7 = lit "test_1_2_7".
Proof. vm_compute. reflexivity. Qed.

(** The samples of [run_mixed] whose 25 outcomes are all without an
    accepted descriptor. *)
Example budget_exhausted_mixed :
  List.filter (budget_exhausted (seeded_generator second_sample_only) 3 0 0 6 10 1000)
    (seqZ 0 3) = [0; 2].
Proof. vm_compute. reflexivity. Qed.

(** The theorem on a run of three samples, the second one accepted and the
    other two exhausted. *)
Lemma exhausted_samples_are_isolated_witness :
  0 <= 3 /\
  exists result samples,
    test_combination (seeded_generator second_sample_only) 3 0 0 6 10 1000
                     (Z.to_nat MAX_ATTEMPTS + 0) 3 = Some (result, samples) /\
    sm_puzzle <$> samples = seqZ 0 3 /\
    Forall (sample_ok (seeded_generator second_sample_only) 3 0 0 6 10 1000)
           samples /\
    Forall (fun s => exhausted s
                     = budget_exhausted (seeded_generator second_sample_only)
                         3 0 0 6 10 1000 (sm_puzzle s))
           samples /\
    tr_failures result
    = Z.of_nat (length (List.filter
                          (budget_exhausted (seeded_generator second_sample_only)
                             3 0 0 6 10 1000)
                          (seqZ 0 3))) /\
    tr_successes result + tr_failures result = 3 /\
    tr_failures result = count_samples exhausted samples /\
    Forall (fun s => exhausted s = true <->
                     sm_attempts s = MAX_ATTEMPTS /\ accepted_in (sm_events s) = [])
           samples.
Proof.
  split; [lia|].
  apply (exhausted_samples_are_isolated (seeded_generator second_sample_only)
           3 0 0 6 10 1000 0 3).
  lia.
Defined.

(** ** Accepted root arrays *)

(** C4, as stated, fails: the pipeline accepts a descriptor whose root
    array is not idempotent, and a run counts it as a success.  Nothing in
    the harness compares [roots[roots[i]]] with [roots[i]]. *)
Lemma accepted_roots_not_idempotent :
  descriptor_accepted 3 CLASSIK_MAX_CAGE_SIZE 10 swapped_desc = true /\
  parse_root_indices swapped_desc 3 = Some [1; 0; 1; 0; 1; 0; 1; 0; 1] /\
  rd [1; 0; 1; 0; 1; 0; 1; 0; 1] (rd [1; 0; 1; 0; 1; 0; 1; 0; 1] 0) = 0 /\
  rd [1; 0; 1; 0; 1; 0; 1; 0; 1] 0 = 1 /\
  ~ idempotent [1; 0; 1; 0; 1; 0; 1; 0; 1] /\
  (fun r : TestResult * list sample =>
     (tr_successes r.1, accepted_descriptors r.2)) <$>
    test_combination (constant_generator (Some swapped_desc))
                     3 0 0 CLASSIK_MAX_CAGE_SIZE 10 1000 25 1
  = Some (1, [swapped_desc]).
Proof.
  split; [vm_compute; reflexivity|].
  split; [vm_compute; reflexivity|].
  split; [reflexivity|]. split; [reflexivity|].
  split; [|vm_compute; reflexivity].
  intros Hidem. specialize (Hidem 0 ltac:(simpl; lia)). discriminate Hidem.
Qed.

(** C4, amended.  Every descriptor accepted by the pipeline with a cap
    enabled has a root array of [w * w] entries, each a cell index in
    [[0, w * w)]; so [roots[roots[i]]] is always a cell's root.  Whether it
    equals [roots[i]] is not checked. *)
Theorem accepted_roots_in_range (size max_cage_size max_mul_cells : Z)
    (desc : cstring) :
  descriptor_accepted size max_cage_size max_mul_cells desc = true ->
  0 < max_cage_size \/ 0 < max_mul_cells ->
  exists roots,
    parse_root_indices desc size = Some roots /\
    length roots = Z.to_nat (wrap32 (size * size)) /\
    forall i, 0 <= i < wrap32 (size * size) ->
      0 <= rd roots i < wrap32 (size * size) /\
      0 <= rd roots (rd roots i) < wrap32 (size * size).
Proof.
  intros Hacc Hcap.
  apply descriptor_accepted_passes in Hacc as (_ & _ & Hcage & Hmul).
  assert (Hroots : exists roots, parse_root_indices desc size = Some roots).
  { destruct Hcap as [Hc|Hm].
    - destruct (Hcage Hc) as (roots & Hroots & _). eauto.
    - destruct (Hmul Hm) as (roots & ops & Hroots & _). eauto. }
  destruct Hroots as (roots & Hroots).
  exists roots. split; [exact Hroots|].
  destruct (parse_root_indices_range _ _ _ Hroots) as [Hlen Hrange].
  split; [exact Hlen|].
  assert (Hcell : forall i, 0 <= i < wrap32 (size * size) ->
                            0 <= rd roots i < wrap32 (size * size)).
  { intros i Hi. unfold rd.
    destruct (roots !! Z.to_nat i) as [r|] eqn:Hr.
    - simpl. unfold in_range in Hrange. rewrite Forall_lookup in Hrange.
      exact (Hrange _ _ Hr).
    - apply lookup_ge_None in Hr. lia. }
  intros i Hi. split; [exact (Hcell i Hi)|]. apply Hcell, Hcell, Hi.
Qed.

(** The theorem on a well-formed 3x3 descriptor. *)
Lemma accepted_roots_in_range_witness :
  (descriptor_accepted 3 6 10 good_desc = true /\ (0 < 6 \/ 0 < 10)) /\
  exists roots,
    parse_root_indices good_desc 3 = Some roots /\
    length roots = Z.to_nat (wrap32 (3 * 3)) /\
    forall i, 0 <= i < wrap32 (3 * 3) ->
      0 <= rd roots i < wrap32 (3 * 3) /\
      0 <= rd roots (rd roots i) < wrap32 (3 * 3).
Proof.
  assert (Hacc : descriptor_accepted 3 6 10 good_desc = true)
    by (vm_compute; reflexivity).
  assert (Hcap : 0 < 6 \/ 0 < 10) by (left; lia).
  split; [split; [exact Hacc|exact Hcap]|].
  exact (accepted_roots_in_range 3 6 10 good_desc Hacc Hcap).
Defined.

(** ** Two runs at the same attempt *)

Section Replay.
Variable G : generator.
Variables size diff profile max_cage_size max_mul_cells : Z.
Variable base_seed : Z.

Local Abbreviation event :=
  (event_of G size diff profile max_cage_size max_mul_cells base_seed).

Lemma event_of_inputs puzzle k :
  ev_seed (event puzzle k) = seed_string base_seed puzzle k /\
  (forall params, outcome_params (ev_outcome (event puzzle k)) = Some params ->
                  params = make_params size diff profile) /\
  outcome_params (ev_outcome (event puzzle k))
    = match random_new G (seed_string base_seed puzzle k) with
      | Some _ => Some (make_params size diff profile)
      | None => None
      end /\
  outcome_desc (ev_outcome (event puzzle k))
    = generate G (make_params size diff profile) (seed_string base_seed puzzle k).
Proof.
  unfold event_of, outcome_of, generate. cbn [ev_seed ev_outcome].
  destruct (random_new G _) as [rs|]; cbn.
  - destruct (new_game_desc G _ rs) as [desc|]; cbn.
    + destruct (descriptor_accepted _ _ _ desc); cbn;
        (split; [reflexivity|]); (split; [intros ? [= <-]; reflexivity|]); auto.
    + split; [reflexivity|]. split; [intros ? [= <-]; reflexivity|]. auto.
  - split; [reflexivity|]. split; [discriminate|]. auto.
Qed.

Lemma run_events_replay samples :
  Forall (sample_ok G size diff profile max_cage_size max_mul_cells base_seed) samples ->
  forall e, e ∈ run_events samples -> e = event (ev_puzzle e) (ev_attempt e).
Proof.
  intros Hall e Hin. unfold run_events in Hin.
  apply list_elem_of_In, in_flat_map in Hin as (s & Hs & He).
  rewrite Forall_forall in Hall.
  apply list_elem_of_In in Hs. destruct (Hall s Hs) as [Hshape _].
  rewrite Hshape in He. apply list_elem_of_In, list_elem_of_fmap in He as (k & -> & _).
  reflexivity.
Qed.

End Replay.

(** *** Runs with a library that keeps state *)

Section StatefulRun.
Variable G : Stateful.generator.
Variables size diff profile max_cage_size max_mul_cells : Z.
Variable base_seed : Z.

Local Abbreviation inputs_ok := (attempt_inputs_ok size diff profile base_seed).

(** One pass of the body counts one attempt and records one event, whose
    seed string and parameters are those of the attempt, whatever the
    library does. *)
Lemma stateful_attempt_body_spec puzzle st w :
  ls_attempts (Stateful.attempt_body G size diff profile max_cage_size
                 max_mul_cells base_seed puzzle st w).1 = ls_attempts st + 1 /\
  (Forall inputs_ok (ls_events st) ->
   Forall inputs_ok
     (ls_events (Stateful.attempt_body G size diff profile max_cage_size
                   max_mul_cells base_seed puzzle st w).1)).
Proof.
  unfold Stateful.attempt_body. cbn zeta.
  destruct (Stateful.random_new G _ w) as [[rs|] w1];
    [destruct (Stateful.new_game_desc G _ rs w1) as [[desc|] w2];
       [destruct (descriptor_accepted _ _ _ desc)|]|];
    cbn [fst ls_attempts ls_events]; (split; [reflexivity|]);
    intros Hok; apply Forall_app; (split; [exact Hok|]);
    constructor; [|constructor| |constructor| |constructor| |constructor];
    (split; [reflexivity|]); intros params Hp;
    cbn [ev_outcome outcome_params] in Hp; congruence.
Qed.

(** The attempt loop ends within [MAX_ATTEMPTS] passes, in any state of the
    library. *)
Lemma stateful_attempt_loop_ends puzzle (fuel : nat) : forall st w,
  MAX_ATTEMPTS - ls_attempts st <= Z.of_nat fuel ->
  Forall inputs_ok (ls_events st) ->
  exists st' w',
    Stateful.attempt_loop G size diff profile max_cage_size max_mul_cells
      base_seed fuel puzzle st w = Some (st', w') /\
    Forall inputs_ok (ls_events st').
Proof.
  induction fuel as [|fuel IH]; intros st w Hfuel Hok;
    cbn [Stateful.attempt_loop];
    destruct (negb (ls_success st) && (ls_attempts st <? MAX_ATTEMPTS)) eqn:Hc;
    try (exists st, w; split; [reflexivity|exact Hok]).
  - apply andb_true_iff in Hc as [_ Hlt]. apply Z.ltb_lt in Hlt. lia.
  - destruct (stateful_attempt_body_spec puzzle st w) as [Hatt Hev].
    destruct (Stateful.attempt_body _ _ _ _ _ _ _ _ _ _) as [st1 w1].
    cbn [fst] in Hatt, Hev. apply IH; [lia|exact (Hev Hok)].
Qed.

Lemma stateful_puzzle_body_ends (extra : nat) puzzle st w :
  Forall inputs_ok (run_events (rs_samples st)) ->
  exists st' w',
    Stateful.puzzle_body G size diff profile max_cage_size max_mul_cells
      base_seed (Z.to_nat MAX_ATTEMPTS + extra) puzzle st w = Some (st', w') /\
    Forall inputs_ok (run_events (rs_samples st')).
Proof.
  intros Hok. unfold Stateful.puzzle_body. cbn zeta.
  set (ls0 := {| ls_success := false; ls_attempts := 0;
                 ls_total_attempts := _; ls_successes := _; ls_events := [] |}).
  destruct (stateful_attempt_loop_ends puzzle (Z.to_nat MAX_ATTEMPTS + extra) ls0 w)
    as (ls & w' & Hrun & Hev).
  { subst ls0. cbn [ls_attempts]. unfold MAX_ATTEMPTS. lia. }
  { constructor. }
  rewrite Hrun. eexists _, _. split; [reflexivity|].
  cbn [rs_samples]. unfold run_events in *. rewrite flat_map_app.
  apply Forall_app. split; [exact Hok|].
  cbn [flat_map sm_events]. rewrite app_nil_r. exact Hev.
Qed.

Lemma stateful_puzzles_loop_ends (extra : nat) (n : nat) : forall puzzle st w,
  Forall inputs_ok (run_events (rs_samples st)) ->
  exists st' w',
    Stateful.puzzles_loop G size diff profile max_cage_size max_mul_cells
      base_seed (Z.to_nat MAX_ATTEMPTS + extra) n puzzle st w = Some (st', w') /\
    Forall inputs_ok (run_events (rs_samples st')).
Proof.
  induction n as [|n IH]; intros puzzle st w Hok; cbn [Stateful.puzzles_loop].
  - exists st, w. split; [reflexivity|exact Hok].
  - destruct (stateful_puzzle_body_ends extra puzzle st w Hok)
      as (st1 & w1 & Hrun & Hok1).
    rewrite Hrun. apply IH. exact Hok1.
Qed.

(** The run ends in any state of the library, and the harness's part of
    every attempt is right. *)
Lemma stateful_test_combination_ends (extra : nat) (puzzles : Z) w :
  exists result samples w',
    Stateful.test_combination G size diff profile max_cage_size max_mul_cells
      base_seed (Z.to_nat MAX_ATTEMPTS + extra) puzzles w
      = Some (result, samples, w') /\
    Forall inputs_ok (run_events samples).
Proof.
  unfold Stateful.test_combination. cbn zeta.
  set (st0 := {| rs_result := _; rs_total_attempts := 0; rs_samples := [] |}).
  destruct (stateful_puzzles_loop_ends extra (Z.to_nat puzzles) 0 st0 w)
    as (st & w' & Hrun & Hok).
  { constructor. }
  rewrite Hrun. exists (rs_result st), (rs_samples st), w'.
  split; [reflexivity|exact Hok].
Qed.

End StatefulRun.

(** *** The library's state *)

Section LibraryState.
Variable G : Stateful.generator.
Variables size diff profile max_cage_size max_mul_cells : Z.
Variable base_seed : Z.
Hypothesis Hdet : seed_determined G.
Variable w0 : Stateful.world G.

Local Abbreviation pure := (answers G w0).

(** With a library whose answers do not depend on its state, the harness
    behaves in every state as it does with the answers of state [w0]. *)
Lemma attempt_body_answers puzzle st w :
  (Stateful.attempt_body G size diff profile max_cage_size max_mul_cells base_seed
     puzzle st w).1
  = attempt_body pure size diff profile max_cage_size max_mul_cells base_seed
      puzzle st.
Proof.
  destruct Hdet as [Hnew Hdesc].
  unfold Stateful.attempt_body, attempt_body. cbn zeta.
  cbn [random_new new_game_desc answers].
  rewrite <- (Hnew _ w w0).
  destruct (Stateful.random_new G _ w) as [[rs|] w1]; cbn [fst]; [|reflexivity].
  rewrite <- (Hdesc _ rs w1 w0).
  destruct (Stateful.new_game_desc G _ rs w1) as [[desc|] w2]; cbn [fst];
    [|reflexivity].
  destruct (descriptor_accepted _ _ _ desc); reflexivity.
Qed.

Lemma attempt_loop_answers (fuel : nat) : forall puzzle st w,
  fst <$> Stateful.attempt_loop G size diff profile max_cage_size max_mul_cells
            base_seed fuel puzzle st w
  = attempt_loop pure size diff profile max_cage_size max_mul_cells base_seed
      fuel puzzle st.
Proof.
  induction fuel as [|fuel IH]; intros puzzle st w;
    cbn [Stateful.attempt_loop attempt_loop];
    destruct (negb (ls_success st) && (ls_attempts st <? MAX_ATTEMPTS));
    try reflexivity.
  rewrite <- (attempt_body_answers puzzle st w).
  destruct (Stateful.attempt_body _ _ _ _ _ _ _ _ _ _) as [st' w'].
  apply IH.
Qed.

Lemma puzzle_body_answers fuel puzzle st w :
  fst <$> Stateful.puzzle_body G size diff profile max_cage_size max_mul_cells
            base_seed fuel puzzle st w
  = puzzle_body pure size diff profile max_cage_size max_mul_cells base_seed
      fuel puzzle st.
Proof.
  unfold Stateful.puzzle_body, puzzle_body. cbn zeta.
  rewrite <- (attempt_loop_answers fuel puzzle _ w).
  destruct (Stateful.attempt_loop _ _ _ _ _ _ _ _ _ _ _) as [[ls w']|]; reflexivity.
Qed.

Lemma puzzles_loop_answers fuel (n : nat) : forall puzzle st w,
  fst <$> Stateful.puzzles_loop G size diff profile max_cage_size max_mul_cells
            base_seed fuel n puzzle st w
  = puzzles_loop pure size diff profile max_cage_size max_mul_cells base_seed
      fuel n puzzle st.
Proof.
  induction n as [|n IH]; intros puzzle st w;
    cbn [Stateful.puzzles_loop puzzles_loop]; [reflexivity|].
  rewrite <- (puzzle_body_answers fuel puzzle st w).
  destruct (Stateful.puzzle_body _ _ _ _ _ _ _ _ _ _ _) as [[st' w']|];
    [apply IH|reflexivity].
Qed.

Lemma test_combination_answers fuel puzzles w :
  (fun r : TestResult * list sample * Stateful.world G => r.1) <$>
    Stateful.test_combination G size diff profile max_cage_size max_mul_cells
      base_seed fuel puzzles w
  = test_combination pure size diff profile max_cage_size max_mul_cells base_seed
      fuel puzzles.
Proof.
  unfold Stateful.test_combination, test_combination. cbn zeta.
  rewrite <- (puzzles_loop_answers fuel _ 0 _ w).
  destruct (Stateful.puzzles_loop _ _ _ _ _ _ _ _ _ _ _ _) as [[st w']|]; reflexivity.
Qed.

Lemma generate_in_answers params seed_str w :
  generate_in G params seed_str w = generate pure params seed_str.
Proof.
  destruct Hdet as [Hnew Hdesc].
  unfold generate_in, generate. cbn [random_new new_game_desc answers].
  rewrite <- (Hnew _ w w0).
  destruct (Stateful.random_new G _ w) as [[rs|] w1]; cbn [fst]; [|reflexivity].
  apply Hdesc.
Qed.

End LibraryState.

(** Without the generator's contract the descriptor of an attempt is not
    reproducible: started in two states, a library whose answer depends on
    its state gives the first attempt of the first sample a descriptor in
    one run and none in the other, although the harness passes the same
    seed string and the same parameters. *)
Example moody_generator_runs :
  (fun r : TestResult * list sample * Z =>
     (fun e => (ev_seed e, outcome_params (ev_outcome e), outcome_desc (ev_outcome e)))
       <$> head (run_events r.1.2)) <$>
    Stateful.test_combination moody_generator 3 0 0 6 10 1000 25 1 0
  = Some (Some (lit "test_1000_0_1", Some (make_params 3 0 0), None)) /\
  (fun r : TestResult * list sample * Z =>
     (fun e => (ev_seed e, outcome_params (ev_outcome e), outcome_desc (ev_outcome e)))
       <$> head (run_events r.1.2)) <$>
    Stateful.test_combination moody_generator 3 0 0 6 10 1000 25 1 1
  = Some (Some (lit "test_1000_0_1", Some (make_params 3 0 0), Some good_desc)).
Proof. split; vm_compute; reflexivity. Qed.



(** ** The flow-network solver on the tests of [maxflow_test.c] *)

(** The other assertions of the test file, on the solver as modelled:
    [test_simple_two_nodes], [test_parallel_paths], [test_no_path],
    [test_bottleneck], [test_zero_capacity] and [test_linear_chain]. *)
Example solver_on_unit_tests :
  let solve nv source sink ne edges capacity :=
    Maxflow.maxflow_with_scratch nv source sink ne edges
      (Maxflow.maxflow_setup_backedges ne edges) capacity in
  solve 2 0 1 1 [0; 1] [5] = Some (5, [5]) /\
  fst <$> solve 4 0 3 4 [0; 1; 0; 2; 1; 3; 2; 3] [3; 2; 2; 3] = Some 4 /\
  fst <$> solve 4 0 3 2 [0; 1; 2; 3] [5; 5] = Some 0 /\
  solve 4 0 3 3 [0; 1; 1; 2; 2; 3] [10; 2; 10] = Some (2, [2; 2; 2]) /\
  solve 3 0 2 2 [0; 1; 1; 2] [5; 0] = Some (0, [0; 0]) /\
  fst <$> solve 8 0 7 7 [0; 1; 1; 2; 2; 3; 3; 4; 4; 5; 5; 6; 6; 7]
                        [5; 5; 5; 5; 5; 5; 5] = Some 5.
Proof. vm_compute. repeat split. Qed.

(** C9.  On the diamond network (4 vertices; edges 0->1, 0->2, 1->2, 1->3,
    2->3 with capacities 10, 10, 1, 10, 10) the solver called with source 0
    and sink 3 returns 20, so the assertion of [test_diamond] holds.  The
    flow it leaves is feasible and sends 20 out of the source, and the cut
    around the source has capacity 20, so 20 is the maximum. *)
Theorem diamond_max_flow :
  Maxflow.diamond_solve = Some (20, [10; 10; 0; 10; 10]) /\
  Maxflow.test_diamond = 1 /\
  Maxflow.feasible 4 0 3 5 Maxflow.diamond_edges Maxflow.diamond_capacity
                   [10; 10; 0; 10; 10] = true /\
  Maxflow.net_out 5 Maxflow.diamond_edges [10; 10; 0; 10; 10] 0 = 20 /\
  Maxflow.cut_capacity 5 Maxflow.diamond_edges Maxflow.diamond_capacity [0] = 20.
Proof.
  split; [vm_compute; reflexivity|].
  split; [vm_compute; reflexivity|].
  split; [vm_compute; reflexivity|].
  split; vm_compute; reflexivity.
Qed.

(** ** Malformed descriptors *)

(** C3, as stated, fails on two of its five cases.  A root index outside
    [[0, w * w)] is accepted when its digits wrap around to a cell index
    (in ISO C the overflow is undefined).  A clue segment whose value
    field has fewer than 5 digits is accepted when [atoi] reads it from a
    five-character window and it lies after the entries [parse_ops] reads.
    On both descriptors every decoder returns true, and so does the whole
    validation of [test_combination]. *)
Lemma malformed_descriptors_decoded :
  (lit "4294967296" ∈ root_tokens wrapped_root_desc /\
   decimal_value (lit "4294967296") = 4294967296 /\
   (4294967296 <? 3 * 3) = false /\
   clue_values_within_cap wrapped_root_desc = true /\
   parse_root_indices wrapped_root_desc 3 = Some [0; 0; 0; 3; 3; 3; 6; 6; 6] /\
   is_Some (parse_ops wrapped_root_desc 3 [0; 0; 0; 3; 3; 3; 6; 6; 6]
                      (replicate 9 NUL)) /\
   descriptor_accepted 3 CLASSIK_MAX_CAGE_SIZE 10 wrapped_root_desc = true)
  /\
  (lit "b1" ∈ clue_segments short_clue_desc /\
   (leading_digits (lit "1") < 5)%nat /\
   clue_values_within_cap short_clue_desc = true /\
   parse_root_indices short_clue_desc 3 = Some [0; 0; 0; 3; 3; 3; 6; 6; 6] /\
   is_Some (parse_ops short_clue_desc 3 [0; 0; 0; 3; 3; 3; 6; 6; 6]
                      (replicate 9 NUL)) /\
   descriptor_accepted 3 CLASSIK_MAX_CAGE_SIZE 10 short_clue_desc = true).
Proof.
  split.
  - split; [vm_compute; apply list_elem_of_here|].
    split; [reflexivity|]. split; [reflexivity|].
    split; [vm_compute; reflexivity|].
    split; [vm_compute; reflexivity|].
    split; [vm_compute; eexists; reflexivity|vm_compute; reflexivity].
  - split; [vm_compute; do 3 apply list_elem_of_further; apply list_elem_of_here|].
    split; [vm_compute; lia|].
    split; [vm_compute; reflexivity|].
    split; [vm_compute; reflexivity|].
    split; [vm_compute; eexists; reflexivity|vm_compute; reflexivity].
Qed.

Lemma is_char_true c d : is_char c d = true <-> c = d.
Proof. unfold is_char. apply Ascii.eqb_eq. Qed.

Lemma is_char_false c d : is_char c d = false <-> c <> d.
Proof. unfold is_char. apply Ascii.eqb_neq. Qed.

Lemma strchr_semi_none desc : SEMI ∉ desc -> strchr_semi desc = None.
Proof.
  induction desc as [|c desc IH]; intros Hnot; [reflexivity|].
  apply not_elem_of_cons in Hnot as [Hc Hrest].
  simpl. rewrite (proj2 (is_char_false c SEMI)) by congruence.
  rewrite IH by exact Hrest. reflexivity.
Qed.

Lemma strchr_semi_split pre rest :
  SEMI ∉ pre -> strchr_semi (pre ++ SEMI :: rest) = Some (pre, rest).
Proof.
  induction pre as [|c pre IH]; intros Hnot.
  - reflexivity.
  - apply not_elem_of_cons in Hnot as [Hc Hrest].
    simpl. rewrite (proj2 (is_char_false c SEMI)) by congruence.
    rewrite IH by exact Hrest. reflexivity.
Qed.

Lemma wrap32_small z : 0 <= z < 2 ^ 31 -> wrap32 z = z.
Proof. intros Hz. unfold wrap32. rewrite Z.mod_small; lia. Qed.

Lemma scan_digits_run ds : forall val digits q,
  all_digits ds = true ->
  leading_digits q = O ->
  exists v,
    scan_digits (ds ++ q) val digits = (v, digits + Z.of_nat (length ds), q) /\
    forall k : nat, 0 <= val < 10 ^ Z.of_nat k -> (k + length ds <= 9)%nat ->
                    v = decimal_from val ds.
Proof.
  induction ds as [|c ds IH]; intros val digits q Hds Hq.
  - exists val. split; [|reflexivity].
    rewrite Z.add_0_r. destruct q as [|c q]; [reflexivity|].
    simpl in *. destruct (isdigit c); [discriminate|reflexivity].
  - simpl in Hds. apply andb_true_iff in Hds as [Hc Hds].
    destruct (IH (wrap32 (val * 10 + (code c - 48))) (digits + 1) q Hds Hq)
      as (v & Hscan & Hval).
    exists v. split.
    + simpl. rewrite Hc, Hscan. f_equal. f_equal. lia.
    + intros k Hk Hlen. simpl in Hlen.
      apply isdigit_code in Hc.
      assert (Hpow : 10 ^ Z.of_nat (S k) = 10 * 10 ^ Z.of_nat k)
        by (rewrite Nat2Z.inj_succ, Z.pow_succ_r by lia; reflexivity).
      assert (Hnine : 10 ^ Z.of_nat (S k) <= 10 ^ 9)
        by (apply Z.pow_le_mono_r; lia).
      assert (Hstep : 0 <= val * 10 + (code c - 48) < 10 ^ Z.of_nat (S k)) by lia.
      rewrite wrap32_small in Hval by lia.
      simpl. unfold decimal_from in *. apply (Hval (S k)); [exact Hstep|lia].
Qed.

Lemma first_non_digit tok :
  all_digits tok = false ->
  exists ds c rest, tok = ds ++ c :: rest /\ all_digits ds = true /\ isdigit c = false.
Proof.
  induction tok as [|c tok IH]; intros Hbad; [discriminate|].
  simpl in Hbad. destruct (isdigit c) eqn:Hc.
  - destruct (IH Hbad) as (ds & c' & rest & -> & Hds & Hc').
    exists (c :: ds), c', rest. simpl. rewrite Hc, Hds. auto.
  - exists [], c, tok. auto.
Qed.

Lemma join_commas_cons tok toks :
  join_commas (tok :: toks)
  = tok ++ match toks with [] => [] | _ :: _ => COMMA :: join_commas toks end.
Proof. destruct toks; simpl; [rewrite app_nil_r|]; reflexivity. Qed.

Lemma decimal_from_lower (s : cstring) : forall acc,
  0 <= acc -> all_digits s = true ->
  acc * 10 ^ Z.of_nat (length s) <= decimal_from acc s.
Proof.
  induction s as [|c s IH]; intros acc Hacc Hs.
  - simpl. lia.
  - simpl in Hs. apply andb_true_iff in Hs as [Hc Hs].
    apply isdigit_code in Hc.
    specialize (IH (acc * 10 + (code c - 48)) ltac:(lia) Hs).
    unfold decimal_from in *. cbn [fold_left].
    replace (Z.of_nat (length (c :: s))) with (Z.succ (Z.of_nat (length s)))
      by (simpl length; lia).
    rewrite Z.pow_succ_r by lia.
    assert (0 < 10 ^ Z.of_nat (length s)) by (apply Z.pow_pos_nonneg; lia).
    nia.
Qed.

(** [%u] and [%d] of a non-negative number: digits only, at least one,
    denoting the number; no more digits than the number needs. *)
Lemma decimal_from_mono (s : cstring) (acc : Z) :
  0 <= acc -> all_digits s = true -> acc <= decimal_from acc s.
Proof.
  intros Hacc Hs. pose proof (decimal_from_lower s acc Hacc Hs).
  assert (1 <= 10 ^ Z.of_nat (length s)) by (apply Z.lt_pred_le, Z.pow_pos_nonneg; lia).
  nia.
Qed.

(** The digit loop on a run of digits whose value fits an [int]: no
    accumulation wraps. *)
Lemma scan_digits_value (ds : cstring) : forall val digits q,
  all_digits ds = true ->
  leading_digits q = O ->
  0 <= val ->
  decimal_from val ds <= INT_MAX ->
  scan_digits (ds ++ q) val digits
  = (decimal_from val ds, digits + Z.of_nat (length ds), q).
Proof.
  induction ds as [|c ds IH]; intros val digits q Hds Hq Hval Hmax.
  - rewrite Z.add_0_r. destruct q as [|c q]; [reflexivity|].
    simpl in *. destruct (isdigit c); [discriminate|reflexivity].
  - simpl in Hds. apply andb_true_iff in Hds as [Hc Hds].
    pose proof (isdigit_code c Hc) as Hcode.
    unfold decimal_from in *. cbn [fold_left] in *.
    pose proof (decimal_from_mono ds (val * 10 + (code c - 48)) ltac:(lia) Hds) as Hmono.
    unfold decimal_from in Hmono.
    cbn [app scan_digits]. rewrite Hc.
    rewrite wrap32_small by (unfold INT_MAX in Hmax; lia).
    rewrite IH by (try assumption; lia).
    f_equal. f_equal. simpl length. lia.
Qed.

Lemma parse_roots_loop_bad (a : Z) (toks : list cstring) : forall n i roots,
  (1 <= n)%nat ->
  i + Z.of_nat n = a ->
  Forall field_token toks ->
  Exists (bad_root_token a) toks ->
  roots_rejected (parse_roots_loop n i a (join_commas toks) roots).
Proof.
  induction toks as [|tok toks IH]; intros n i roots Hn Hidx Hshort Hbad.
  - inversion Hbad.
  - destruct n as [|n]; [lia|].
    apply Forall_cons in Hshort as [(Hcomma & _) Hshort].
    rewrite join_commas_cons.
    set (tail := match toks with [] => [] | _ :: _ => COMMA :: join_commas toks end).
    assert (Htail : leading_digits tail = O) by (subst tail; destruct toks; reflexivity).
    cbn [parse_roots_loop].
    destruct (all_digits tok) eqn:Hdigits.
    + destruct (scan_digits_run tok 0 0 tail Hdigits Htail) as (v & Hscan & _).
      assert (Hval : decimal_value tok <= INT_MAX -> v = decimal_value tok).
      { intros Hfit. unfold decimal_value in *.
        rewrite (scan_digits_value tok 0 0 tail Hdigits Htail ltac:(lia) Hfit) in Hscan.
        injection Hscan as <-. reflexivity. }
      rewrite Hscan.
      destruct ((0 + Z.of_nat (length tok) =? 0) || (v <? 0) || (v >=? a)) eqn:Hcond;
        [exact I|].
      apply orb_false_iff in Hcond as [Hcond Hhigh].
      apply orb_false_iff in Hcond as [Hzero _].
      assert (Hgood : ~ bad_root_token a tok).
      { intros [->|[Hd|[Hlow Hfit]]].
        - simpl in Hzero. discriminate.
        - congruence.
        - specialize (Hval Hfit). lia. }
      apply Exists_cons in Hbad as [Hbad|Hbad]; [contradiction|].
      destruct toks as [|tok' toks]; [inversion Hbad|].
      subst tail.
      destruct (Z.ltb_spec i (a - 1)) as [Hmore|Hlast].
      * rewrite (proj2 (is_char_true COMMA COMMA)) by reflexivity.
        apply IH; [lia|lia|exact Hshort|exact Hbad].
      * assert (n = O) by lia. subst n. exact I.
    + destruct (first_non_digit tok Hdigits) as (ds & c & rest & -> & Hds & Hc).
      assert (Hne : c <> COMMA).
      { intros ->. apply Hcomma. apply elem_of_app. right. apply list_elem_of_here. }
      rewrite <- app_assoc. cbn [app].
      destruct (scan_digits_run ds 0 0 (c :: rest ++ tail) Hds) as (v & Hscan & _).
      { simpl. rewrite Hc. reflexivity. }
      rewrite Hscan.
      destruct (_ || _ || _); [exact I|].
      destruct (Z.ltb_spec i (a - 1)) as [Hmore|Hlast].
      * rewrite (proj2 (is_char_false c COMMA)) by exact Hne. exact I.
      * assert (n = O) by lia. subst n. exact I.
Qed.

Lemma join_commas_no_semi toks :
  Forall field_token toks -> SEMI ∉ join_commas toks.
Proof.
  induction 1 as [|tok toks (_ & Hsemi) _ IH]; [apply not_elem_of_nil|].
  rewrite join_commas_cons. apply not_elem_of_app. split; [exact Hsemi|].
  destruct toks; [apply not_elem_of_nil|].
  apply not_elem_of_cons. split; [discriminate|exact IH].
Qed.

Lemma parse_root_indices_bad (w : Z) (toks : list cstring) (rest : cstring) :
  1 <= w <= 46340 ->
  Forall field_token toks ->
  Exists (bad_root_token (w * w)) toks ->
  parse_root_indices (join_commas toks ++ SEMI :: rest) w = None.
Proof.
  intros Hw Hshort Hbad.
  unfold parse_root_indices.
  rewrite strchr_semi_split by (apply join_commas_no_semi; exact Hshort).
  cbn zeta. rewrite wrap32_small by nia.
  pose proof (parse_roots_loop_bad (w * w) toks (Z.to_nat (w * w)) 0 []
                ltac:(nia) ltac:(nia) Hshort Hbad) as Hrej.
  destruct (parse_roots_loop _ 0 _ _ []) as [[roots [|c p]]|];
    [contradiction|reflexivity|reflexivity].
Qed.

Lemma clue_values_loop_entries entries tail :
  Forall field_entry entries ->
  clue_values_loop (render_entries entries ++ tail) = clue_values_loop tail.
Proof.
  induction 1 as [|[op field] entries [Hop Hlen] _ IH]; [reflexivity|].
  cbn [fst snd] in *.
  destruct field as [|c1 [|c2 [|c3 [|c4 [|c5 [|]]]]]]; try discriminate Hlen.
  unfold render_entries in *. cbn [flat_map fst snd app].
  rewrite clue_values_loop_entry, Hop, atoi_five_leb.
  cbn [negb]. rewrite (proj2 (is_char_true COMMA COMMA)) by reflexivity.
  exact IH.
Qed.

Lemma clue_values_short_field pre entries op field :
  SEMI ∉ pre ->
  Forall field_entry entries ->
  (length field < 5)%nat ->
  clue_values_within_cap (pre ++ SEMI :: render_entries entries ++ op :: field) = false.
Proof.
  intros Hpre Hentries Hshort.
  unfold clue_values_within_cap, clue_values_verdict.
  rewrite strchr_semi_split by exact Hpre.
  rewrite clue_values_loop_entries by exact Hentries.
  rewrite clue_values_loop_short by exact Hshort.
  destruct (negb (isalpha op)); reflexivity.
Qed.

Lemma clue_values_bad_trailing pre entries op field c rest :
  SEMI ∉ pre ->
  Forall field_entry entries ->
  length field = 5%nat ->
  c <> COMMA ->
  clue_values_within_cap
    (pre ++ SEMI :: render_entries entries ++ op :: field ++ c :: rest) = false.
Proof.
  intros Hpre Hentries Hlen Hc.
  unfold clue_values_within_cap, clue_values_verdict.
  rewrite strchr_semi_split by exact Hpre.
  rewrite clue_values_loop_entries by exact Hentries.
  destruct field as [|c1 [|c2 [|c3 [|c4 [|c5 [|]]]]]]; try discriminate Hlen.
  cbn [app]. rewrite clue_values_loop_entry, atoi_five_leb.
  rewrite (proj2 (is_char_false c COMMA)) by exact Hc.
  destruct (negb (isalpha op)); reflexivity.
Qed.

Lemma skip_digits_short d : forall q,
  (leading_digits q < d)%nat -> skip_digits d q = None.
Proof.
  induction d as [|d IH]; intros q Hq; [lia|].
  destruct q as [|c q]; [reflexivity|].
  simpl in *. destruct (isdigit c); [|reflexivity].
  apply IH. lia.
Qed.

Lemma skip_digits_field field q :
  all_digits field = true ->
  skip_digits (length field) (field ++ q) = Some q.
Proof.
  induction field as [|c field IH]; intros Hd; [reflexivity|].
  simpl in *. apply andb_true_iff in Hd as [Hc Hd].
  rewrite Hc. apply IH. exact Hd.
Qed.

Lemma parse_ops_loop_short roots op tail (n : nat) : forall i good ops,
  Forall digit_entry good ->
  (leading_digits tail < 5)%nat ->
  (length good
   < length (List.filter (fun j => (rd roots j =? j)%Z) (seqZ i (Z.of_nat n))))%nat ->
  parse_ops_loop n i roots (render_entries good ++ op :: tail) ops = None.
Proof.
  induction n as [|n IH]; intros i good ops Hgood Htail Hcount.
  - simpl in Hcount. lia.
  - rewrite (seqZ_cons i) in Hcount by lia.
    replace (Z.pred (Z.of_nat (S n))) with (Z.of_nat n) in Hcount by lia.
    replace (Z.succ i) with (i + 1) in Hcount by lia.
    cbn [List.filter] in Hcount. cbn [parse_ops_loop].
    destruct (rd roots i =? i); cbn [negb].
    + destruct good as [|[op0 field0] good].
      * cbn [render_entries flat_map app].
        rewrite skip_digits_short by exact Htail. reflexivity.
      * apply Forall_cons in Hgood as [[Hlen Hdigits] Hgood].
        cbn [fst snd] in *.
        unfold render_entries in *. cbn [flat_map fst snd app].
        rewrite <- !app_assoc. rewrite <- Hlen at 1.
        rewrite skip_digits_field by exact Hdigits.
        cbn [app]. rewrite (proj2 (is_char_true COMMA COMMA)) by reflexivity.
        apply IH; [exact Hgood|exact Htail|].
        simpl in Hcount. lia.
    + apply IH; assumption.
Qed.

Lemma parse_ops_short_field w roots ops pre good op tail :
  SEMI ∉ pre ->
  Forall digit_entry good ->
  (leading_digits tail < 5)%nat ->
  (length good < length (own_roots roots (wrap32 (w * w))))%nat ->
  parse_ops (pre ++ SEMI :: render_entries good ++ op :: tail) w roots ops = None.
Proof.
  intros Hpre Hgood Htail Hcount.
  unfold parse_ops. rewrite strchr_semi_split by exact Hpre. cbn zeta.
  apply parse_ops_loop_short; [exact Hgood|exact Htail|].
  unfold own_roots, seqZ in *. rewrite Nat2Z.id. exact Hcount.
Qed.

(** C3, amended.  Decoding returns false
    - from each of the three decoders, when the descriptor has no [';'];
    - from [parse_root_indices], for a grid of width [w] in [[1, 46340]]
      and any roots field, when one of its comma-separated tokens is
      empty, holds a character that is not a digit, or denotes a number
      outside [[0, w * w)] that fits an [int]; the other tokens are
      arbitrary, of any length (a digit run too long for an [int] wraps,
      as [scan_digits] has it);
    - from [clue_values_within_cap], when fewer than 5 characters are left
      after the operator of a clue entry;
    - from [parse_ops], when fewer than 5 digits follow the operator of an
      entry it reads (one entry per cell that is its own root);
    - from [clue_values_within_cap], when the character after a clue entry
      is neither a comma nor the end of the string. *)
Theorem malformed_descriptors_rejected :
  (forall desc : cstring,
     SEMI ∉ desc ->
     clue_values_within_cap desc = false /\
     (forall w, parse_root_indices desc w = None) /\
     (forall w roots ops, parse_ops desc w roots ops = None)) /\
  (forall (w : Z) (toks : list cstring) (rest : cstring),
     1 <= w <= 46340 ->
     Forall field_token toks ->
     Exists (bad_root_token (w * w)) toks ->
     parse_root_indices (join_commas toks ++ SEMI :: rest) w = None) /\
  (forall (pre : cstring) entries (op : ascii) (field : cstring),
     SEMI ∉ pre ->
     Forall field_entry entries ->
     (length field < 5)%nat ->
     clue_values_within_cap
       (pre ++ SEMI :: render_entries entries ++ op :: field) = false) /\
  (forall (w : Z) (roots : list Z) (ops pre : cstring) good (op : ascii)
          (tail : cstring),
     SEMI ∉ pre ->
     Forall digit_entry good ->
     (leading_digits tail < 5)%nat ->
     (length good < length (own_roots roots (wrap32 (w * w))))%nat ->
     parse_ops (pre ++ SEMI :: render_entries good ++ op :: tail) w roots ops
     = None) /\
  (forall (pre : cstring) entries (op : ascii) (field : cstring) (c : ascii)
          (rest : cstring),
     SEMI ∉ pre ->
     Forall field_entry entries ->
     length field = 5%nat ->
     c <> COMMA ->
     clue_values_within_cap
       (pre ++ SEMI :: render_entries entries ++ op :: field ++ c :: rest)
     = false).
Proof.
  split; [|split; [|split; [|split]]].
  - intros desc Hnone.
    unfold clue_values_within_cap, clue_values_verdict, parse_root_indices, parse_ops.
    rewrite (strchr_semi_none desc Hnone). auto.
  - exact parse_root_indices_bad.
  - exact clue_values_short_field.
  - exact parse_ops_short_field.
  - exact clue_values_bad_trailing.
Qed.

Ltac not_in_literal :=
  let H := fresh "H" in
  vm_compute; intros H;
  repeat (apply elem_of_cons in H as [H|H]; [discriminate H|]);
  apply elem_of_nil in H; exact H.

(** Each case of the theorem on a concrete malformed descriptor. *)
Lemma malformed_descriptors_rejected_witness :
  clue_values_within_cap (lit "0,0,0,0") = false /\
  parse_root_indices (join_commas [lit "0"; lit "9"; lit "1x"] ++ SEMI :: lit "a00001") 3
    = None /\
  parse_root_indices
    (join_commas [lit "2000000000"; lit "0"; lit "0"; lit "0"] ++ SEMI :: lit "a") 2
    = None /\
  parse_root_indices
    (join_commas [lit "0000000012"; lit "0"; lit "0"; lit "0"] ++ SEMI :: lit "a") 2
    = None /\
  parse_root_indices
    (join_commas [lit "abcdefghijkl"; lit "0"; lit "0"; lit "0"] ++ SEMI :: lit "a") 2
    = None /\
  parse_root_indices
    (join_commas [lit "4294967296"; lit ""; lit "0"; lit "0"] ++ SEMI :: lit "a") 2
    = None /\
  clue_values_within_cap
    (lit "0,0" ++ SEMI :: render_entries [("a"%char, lit "00001")]
       ++ "b"%char :: lit "123") = false /\
  parse_ops (lit "0,0" ++ SEMI :: render_entries [("a"%char, lit "00001")]
               ++ "b"%char :: lit "12x45")
            3 [0; 0; 0; 3; 3; 3; 6; 6; 6] (replicate 9 NUL) = None /\
  clue_values_within_cap
    (lit "0,0" ++ SEMI :: render_entries [("a"%char, lit "00001")]
       ++ "b"%char :: lit "00002" ++ ";"%char :: lit "c00003") = false.
Proof.
  destruct malformed_descriptors_rejected as (Hsep & Hroot & Hshort & Hops & Htrail).
  assert (Hpre : SEMI ∉ lit "0,0") by not_in_literal.
  assert (Hentry : Forall field_entry [("a"%char, lit "00001")])
    by (repeat constructor).
  split; [|split; [|split; [|split; [|split; [|split; [|split; [|split]]]]]]].
  - apply (Hsep (lit "0,0,0,0")). not_in_literal.
  - apply (Hroot 3 [lit "0"; lit "9"; lit "1x"] (lit "a00001")).
    + lia.
    + repeat constructor; not_in_literal.
    + apply Exists_cons. right. apply Exists_cons. left.
      right. right. split; vm_compute; discriminate.
  - apply (Hroot 2 [lit "2000000000"; lit "0"; lit "0"; lit "0"] (lit "a")).
    + lia.
    + repeat constructor; not_in_literal.
    + apply Exists_cons. left. right. right. split; vm_compute; discriminate.
  - apply (Hroot 2 [lit "0000000012"; lit "0"; lit "0"; lit "0"] (lit "a")).
    + lia.
    + repeat constructor; not_in_literal.
    + apply Exists_cons. left. right. right. split; vm_compute; discriminate.
  - apply (Hroot 2 [lit "abcdefghijkl"; lit "0"; lit "0"; lit "0"] (lit "a")).
    + lia.
    + repeat constructor; not_in_literal.
    + apply Exists_cons. left. right. left. reflexivity.
  - apply (Hroot 2 [lit "4294967296"; lit ""; lit "0"; lit "0"] (lit "a")).
    + lia.
    + repeat constructor; not_in_literal.
    + apply Exists_cons. right. apply Exists_cons. left. left. reflexivity.
  - apply (Hshort (lit "0,0") [("a"%char, lit "00001")] "b"%char (lit "123"));
      [exact Hpre|exact Hentry|simpl; lia].
  - apply (Hops 3 [0; 0; 0; 3; 3; 3; 6; 6; 6] (replicate 9 NUL) (lit "0,0")
                [("a"%char, lit "00001")] "b"%char (lit "12x45"));
      [exact Hpre|repeat constructor|vm_compute; lia|vm_compute; lia].
  - apply (Htrail (lit "0,0") [("a"%char, lit "00001")] "b"%char (lit "00002")
                  ";"%char (lit "c00003"));
      [exact Hpre|exact Hentry|reflexivity|discriminate].
Defined.

(** * Further properties of the harness *)

(** ** Decimal output *)

Lemma decimal_from_acc (d : Decimal.uint) : forall acc : positive,
  decimal_from (Z.pos acc) (lit (NilEmpty.string_of_uint d))
  = Z.pos (Pos.of_uint_acc d acc).
Proof.
  induction d; intros acc; cbn [NilEmpty.string_of_uint Pos.of_uint_acc];
    try reflexivity;
    unfold lit in *; cbn [list_ascii_of_string]; unfold decimal_from in *;
    cbn [fold_left]; rewrite <- IHd; f_equal; vm_compute code; lia.
Qed.

Lemma decimal_from_uint (d : Decimal.uint) :
  decimal_from 0 (lit (NilEmpty.string_of_uint d)) = Z.of_N (Pos.of_uint d).
Proof.
  induction d; cbn [NilEmpty.string_of_uint Pos.of_uint]; try reflexivity;
    unfold lit in *; cbn [list_ascii_of_string]; unfold decimal_from in *;
    cbn [fold_left];
    first [ exact IHd
          | rewrite N2Z.inj_pos, <- decimal_from_acc; reflexivity ].
Qed.

Lemma uint_all_digits (d : Decimal.uint) :
  all_digits (lit (NilEmpty.string_of_uint d)) = true.
Proof.
  induction d; cbn [NilEmpty.string_of_uint]; try reflexivity;
    unfold lit in *; cbn [list_ascii_of_string all_digits forallb];
    exact IHd.
Qed.

Lemma uint_length (d : Decimal.uint) :
  length (lit (NilEmpty.string_of_uint d)) = Decimal.nb_digits d.
Proof.
  induction d; cbn [NilEmpty.string_of_uint Decimal.nb_digits]; try reflexivity;
    unfold lit in *; cbn [list_ascii_of_string length]; f_equal; exact IHd.
Qed.

Lemma to_uint_leading (p : positive) :
  Pos.to_uint p <> Decimal.Nil /\ forall d, Pos.to_uint p <> Decimal.D0 d.
Proof.
  split; [apply DecimalPos.Unsigned.to_uint_nonnil|].
  intros d Hd.
  pose proof (DecimalPos.Unsigned.to_of (Pos.to_uint p)) as Hnorm.
  rewrite DecimalPos.Unsigned.of_to in Hnorm. cbn [N.to_uint] in Hnorm.
  unfold Decimal.unorm in Hnorm.
  destruct (Decimal.nzhead (Pos.to_uint p)) eqn:Hhead.
  - apply (DecimalPos.Unsigned.to_uint_nonzero p). exact Hnorm.
  - rewrite Hd in Hnorm. injection Hnorm as <-.
    apply (DecimalFacts.nzhead_nonzero _ _ Hhead).
  - rewrite Hd in Hnorm. discriminate Hnorm.
  - rewrite Hd in Hnorm. discriminate Hnorm.
  - rewrite Hd in Hnorm. discriminate Hnorm.
  - rewrite Hd in Hnorm. discriminate Hnorm.
  - rewrite Hd in Hnorm. discriminate Hnorm.
  - rewrite Hd in Hnorm. discriminate Hnorm.
  - rewrite Hd in Hnorm. discriminate Hnorm.
  - rewrite Hd in Hnorm. discriminate Hnorm.
  - rewrite Hd in Hnorm. discriminate Hnorm.
Qed.

Lemma dec_nonneg (z : Z) :
  0 <= z ->
  all_digits (dec z) = true /\ dec z <> [] /\ decimal_value (dec z) = z.
Proof.
  intros Hz. unfold dec, decimal_value.
  destruct z as [|p|p]; [repeat split; discriminate| |lia].
  cbn [Z.to_int NilZero.string_of_int].
  destruct (to_uint_leading p) as [Hnil _].
  assert (Hstr : NilZero.string_of_uint (Pos.to_uint p)
                 = NilEmpty.string_of_uint (Pos.to_uint p)).
  { destruct (Pos.to_uint p); [contradiction|reflexivity..]. }
  rewrite Hstr. split; [apply uint_all_digits|]. split.
  - intros Hempty. apply (f_equal (@length ascii)) in Hempty.
    rewrite uint_length in Hempty. simpl in Hempty.
    apply DecimalFacts.nb_digits_0 in Hempty. contradiction.
  - rewrite decimal_from_uint, DecimalPos.Unsigned.of_to. reflexivity.
Qed.

Lemma dec_negative (z : Z) : z < 0 -> dec z = "-"%char :: dec (- z).
Proof.
  intros Hz. destruct z as [|p|p]; try lia. reflexivity.
Qed.

Lemma dec_length (z : Z) (k : nat) :
  0 <= z < 10 ^ Z.of_nat k -> (1 <= k)%nat -> (length (dec z) <= k)%nat.
Proof.
  intros Hz Hk.
  destruct z as [|p|p]; [simpl; lia| |lia].
  destruct (dec_nonneg (Z.pos p) ltac:(lia)) as (Hdigits & _ & Hvalue).
  unfold dec in *. cbn [Z.to_int NilZero.string_of_int] in *.
  destruct (to_uint_leading p) as [Hnil Hzero].
  assert (Hstr : NilZero.string_of_uint (Pos.to_uint p)
                 = NilEmpty.string_of_uint (Pos.to_uint p)).
  { destruct (Pos.to_uint p); [contradiction|reflexivity..]. }
  rewrite Hstr in *.
  assert (Hlow : 10 ^ Z.of_nat (Nat.pred (length (lit (NilEmpty.string_of_uint (Pos.to_uint p)))))
                 <= Z.pos p).
  { rewrite <- Hvalue. clear Hvalue. unfold decimal_value.
    destruct (Pos.to_uint p) as [|d|d|d|d|d|d|d|d|d|d];
      [contradiction|exfalso; exact (Hzero d eq_refl)|..];
      cbn [NilEmpty.string_of_uint]; unfold lit; cbn [list_ascii_of_string length Nat.pred];
      unfold decimal_from; cbn [fold_left];
      (etransitivity; [|apply decimal_from_lower;
                        [vm_compute; discriminate|apply uint_all_digits]]);
      vm_compute code;
      assert (0 < 10 ^ Z.of_nat (length (list_ascii_of_string (NilEmpty.string_of_uint d))))
        by (apply Z.pow_pos_nonneg; lia);
      fold (lit (NilEmpty.string_of_uint d)); unfold lit; nia. }
  destruct (Nat.le_gt_cases (length (lit (NilEmpty.string_of_uint (Pos.to_uint p)))) k)
    as [|Hlong]; [assumption|exfalso].
  assert (10 ^ Z.of_nat k <= 10 ^ Z.of_nat (Nat.pred (length (lit (NilEmpty.string_of_uint (Pos.to_uint p))))))
    by (apply Z.pow_le_mono_r; lia).
  lia.
Qed.

Lemma dec_inj (z1 z2 : Z) : dec z1 = dec z2 -> z1 = z2.
Proof.
  unfold dec, lit. intros Heq.
  apply (f_equal string_of_list_ascii) in Heq.
  rewrite !string_of_list_ascii_of_string in Heq.
  apply DecimalZ.to_int_inj.
  assert (Hnz : forall z, Z.to_int z <> Decimal.Pos Decimal.Nil
                          /\ Z.to_int z <> Decimal.Neg Decimal.Nil).
  { intros [|p|p]; cbn [Z.to_int]; split; try discriminate;
      intros [= H]; exact (proj1 (to_uint_leading p) H). }
  pose proof (NilZero.isi (Z.to_int z1) (proj1 (Hnz z1)) (proj2 (Hnz z1))) as H1.
  pose proof (NilZero.isi (Z.to_int z2) (proj1 (Hnz z2)) (proj2 (Hnz z2))) as H2.
  rewrite Heq in H1. rewrite H1 in H2. injection H2 as H2. exact H2.
Qed.

Lemma dec_chars (z : Z) :
  Forall (fun c => isdigit c = true \/ c = "-"%char) (dec z).
Proof.
  assert (Hpos : forall z', 0 <= z' ->
            Forall (fun c => isdigit c = true \/ c = "-"%char) (dec z')).
  { intros z' Hz'. destruct (dec_nonneg z' Hz') as (Hdigits & _).
    unfold all_digits in Hdigits. rewrite forallb_forall in Hdigits.
    apply Forall_forall. intros c Hc. left. apply Hdigits.
    apply list_elem_of_In. exact Hc. }
  destruct (Z.le_gt_cases 0 z) as [Hz|Hz]; [apply Hpos; exact Hz|].
  rewrite dec_negative by lia. constructor; [right; reflexivity|].
  apply Hpos. lia.
Qed.

(** ** parse_root_indices on well-formed roots fields *)

Lemma parse_roots_loop_good (a : Z) (toks : list cstring) : forall n i roots,
  a <= INT_MAX + 1 ->
  length toks = n ->
  i + Z.of_nat n = a ->
  Forall (root_token a) toks ->
  parse_roots_loop n i a (join_commas toks) roots
  = Some (roots ++ (decimal_value <$> toks), []).
Proof.
  induction toks as [|tok toks IH]; intros n i roots Ha Hlen Hidx Hgood.
  - subst n. simpl. rewrite app_nil_r. reflexivity.
  - destruct n as [|n]; [discriminate|]. simpl in Hlen. injection Hlen as Hlen.
    apply Forall_cons in Hgood as [(Hne & Hdigits & Hval) Hgood].
    rewrite join_commas_cons.
    set (tail := match toks with [] => [] | _ :: _ => COMMA :: join_commas toks end).
    assert (Htail : leading_digits tail = O) by (subst tail; destruct toks; reflexivity).
    cbn [parse_roots_loop].
    rewrite scan_digits_value;
      [|assumption|assumption|lia|unfold decimal_value in Hval; lia].
    fold (decimal_value tok).
    pose proof (decimal_from_mono tok 0 ltac:(lia) Hdigits) as Hnonneg.
    fold (decimal_value tok) in Hnonneg.
    assert (Hcond : (0 + Z.of_nat (length tok) =? 0) || (decimal_value tok <? 0)
                    || (decimal_value tok >=? a) = false).
    { assert (Hlen' : 0 < Z.of_nat (length tok)) by (destruct tok; [contradiction|simpl; lia]).
      rewrite !orb_false_iff. split; [split|]; lia. }
    rewrite Hcond. cbn [fmap list_fmap].
    destruct (Z.ltb_spec i (a - 1)) as [Hmore|Hlast].
    + destruct toks as [|tok' toks]; [simpl in Hlen; lia|].
      subst tail. cbv beta iota.
      rewrite (proj2 (is_char_true COMMA COMMA)) by reflexivity.
      rewrite (IH n (i + 1) (roots ++ [decimal_value tok])); try assumption; try lia.
      rewrite <- app_assoc. reflexivity.
    + assert (n = O) by lia. subst n.
      destruct toks; [|discriminate]. subst tail. simpl.
      reflexivity.
Qed.

Lemma digits_no_separator (tok : cstring) :
  all_digits tok = true -> (COMMA ∉ tok) /\ (SEMI ∉ tok).
Proof.
  unfold all_digits. rewrite forallb_forall. intros Hall.
  split; intros Hin; apply list_elem_of_In, Hall in Hin; discriminate Hin.
Qed.

Lemma join_commas_digits_no_semi (toks : list cstring) :
  Forall (fun tok => all_digits tok = true) toks -> SEMI ∉ join_commas toks.
Proof.
  induction 1 as [|tok toks Htok _ IH]; [apply not_elem_of_nil|].
  rewrite join_commas_cons. apply not_elem_of_app.
  split; [apply digits_no_separator; exact Htok|].
  destruct toks; [apply not_elem_of_nil|].
  apply not_elem_of_cons. split; [discriminate|exact IH].
Qed.

Lemma parse_root_indices_good (w : Z) (toks : list cstring) (rest : cstring) :
  0 <= w <= 46340 ->
  length toks = Z.to_nat (w * w) ->
  Forall (root_token (w * w)) toks ->
  parse_root_indices (join_commas toks ++ SEMI :: rest) w
  = Some (decimal_value <$> toks).
Proof.
  intros Hw Hlen Hgood.
  unfold parse_root_indices.
  rewrite strchr_semi_split.
  2:{ apply join_commas_digits_no_semi. eapply Forall_impl; [exact Hgood|].
      intros tok (_ & Hd & _). exact Hd. }
  cbn zeta. rewrite wrap32_small by nia.
  rewrite (parse_roots_loop_good (w * w) toks (Z.to_nat (w * w)) 0 []);
    [reflexivity|unfold INT_MAX; nia|exact Hlen|nia|exact Hgood].
Qed.

(** X1.  [parse_root_indices] returns true on every roots field made of
    exactly [w * w] non-empty digit runs, each denoting a cell index,
    joined by single commas; leading zeros are allowed, and the text after
    the [';'] is not looked at.  The array it fills holds the numbers the
    runs denote. *)
Theorem parse_root_indices_accepts (w : Z) (toks : list cstring) (rest : cstring) :
  0 <= w <= 46340 ->
  length toks = Z.to_nat (w * w) ->
  Forall (root_token (w * w)) toks ->
  parse_root_indices (join_commas toks ++ SEMI :: rest) w
  = Some (decimal_value <$> toks).
Proof. exact (parse_root_indices_good w toks rest). Qed.

Lemma parse_root_indices_accepts_witness :
  (0 <= 2 <= 46340 /\
   length [lit "0"; lit "000"; lit "3"; lit "03"] = Z.to_nat (2 * 2) /\
   Forall (root_token (2 * 2)) [lit "0"; lit "000"; lit "3"; lit "03"]) /\
  parse_root_indices
    (join_commas [lit "0"; lit "000"; lit "3"; lit "03"] ++ SEMI :: lit "a00001,b9")
    2
  = Some (decimal_value <$> [lit "0"; lit "000"; lit "3"; lit "03"]).
Proof.
  assert (Hw : 0 <= 2 <= 46340) by lia.
  assert (Hlen : length [lit "0"; lit "000"; lit "3"; lit "03"] = Z.to_nat (2 * 2))
    by reflexivity.
  assert (Hgood : Forall (root_token (2 * 2)) [lit "0"; lit "000"; lit "3"; lit "03"]).
  { repeat constructor; try discriminate; vm_compute; reflexivity. }
  split; [auto|].
  exact (parse_root_indices_accepts 2 _ (lit "a00001,b9") Hw Hlen Hgood).
Defined.

Lemma parse_root_indices_dec (w : Z) (roots : list Z) (rest : cstring) :
  0 <= w <= 46340 ->
  length roots = Z.to_nat (w * w) ->
  in_range (w * w) roots ->
  parse_root_indices (join_commas (dec <$> roots) ++ SEMI :: rest) w = Some roots.
Proof.
  intros Hw Hlen Hrange.
  rewrite parse_root_indices_good.
  - f_equal. rewrite <- list_fmap_compose.
    rewrite <- (list_fmap_id roots) at 2.
    apply Forall_fmap_ext_1. eapply Forall_impl; [exact Hrange|].
    intros r Hr. cbv beta in Hr. unfold compose, id. apply dec_nonneg. lia.
  - exact Hw.
  - rewrite length_fmap. exact Hlen.
  - apply Forall_fmap. eapply Forall_impl; [exact Hrange|].
    intros r Hr. cbv beta in Hr. destruct (dec_nonneg r ltac:(lia)) as (Hd & Hne & Hv).
    unfold compose, root_token. rewrite Hv. split; [exact Hne|]. split; [exact Hd|lia].
Qed.

(** X2.  Decoding what [%d] encodes: the decimal rendering of a root
    array of [w * w] cell indices, joined by commas and followed by [';'],
    is parsed back to the same array, whatever follows the [';']. *)
Theorem parse_root_indices_round_trip (w : Z) (roots : list Z) (rest : cstring) :
  0 <= w <= 46340 ->
  length roots = Z.to_nat (w * w) ->
  in_range (w * w) roots ->
  parse_root_indices (join_commas (dec <$> roots) ++ SEMI :: rest) w = Some roots.
Proof. apply parse_root_indices_dec. Qed.

Lemma parse_root_indices_round_trip_witness :
  (0 <= 3 <= 46340 /\
   length [0; 0; 0; 3; 3; 3; 6; 6; 8] = Z.to_nat (3 * 3) /\
   in_range (3 * 3) [0; 0; 0; 3; 3; 3; 6; 6; 8]) /\
  parse_root_indices
    (join_commas (dec <$> [0; 0; 0; 3; 3; 3; 6; 6; 8]) ++ SEMI :: lit "a00006")
    3
  = Some [0; 0; 0; 3; 3; 3; 6; 6; 8].
Proof.
  assert (Hw : 0 <= 3 <= 46340) by lia.
  assert (Hlen : length [0; 0; 0; 3; 3; 3; 6; 6; 8] = Z.to_nat (3 * 3)) by reflexivity.
  assert (Hrange : in_range (3 * 3) [0; 0; 0; 3; 3; 3; 6; 6; 8])
    by (repeat constructor; lia).
  split; [auto|].
  exact (parse_root_indices_round_trip 3 _ (lit "a00006") Hw Hlen Hrange).
Defined.

(** ** What a successful parse_root_indices has read *)

Lemma strchr_semi_inv (desc field rest : cstring) :
  strchr_semi desc = Some (field, rest) ->
  desc = field ++ SEMI :: rest /\ (SEMI ∉ field).
Proof.
  revert field. induction desc as [|c desc IH]; intros field Hsplit; [discriminate|].
  simpl in Hsplit. destruct (is_char c SEMI) eqn:Hc.
  - apply is_char_true in Hc. injection Hsplit as <- <-. subst c.
    split; [reflexivity|apply not_elem_of_nil].
  - apply is_char_false in Hc.
    destruct (strchr_semi desc) as [[before after]|]; [|discriminate].
    injection Hsplit as <- <-.
    destruct (IH before eq_refl) as [-> Hnot].
    split; [reflexivity|]. apply not_elem_of_cons. split; [congruence|exact Hnot].
Qed.

Lemma scan_digits_inv (p : cstring) : forall val digits v d p1,
  scan_digits p val digits = (v, d, p1) ->
  exists ds, p = ds ++ p1 /\ all_digits ds = true /\
             d = digits + Z.of_nat (length ds) /\ leading_digits p1 = O.
Proof.
  induction p as [|c p IH]; intros val digits v d p1 Hscan.
  - simpl in Hscan. injection Hscan as <- <- <-.
    exists []. simpl. split; [reflexivity|]. split; [reflexivity|]. split; [lia|reflexivity].
  - simpl in Hscan. destruct (isdigit c) eqn:Hc.
    + apply IH in Hscan as (ds & -> & Hds & -> & Hp1).
      exists (c :: ds). simpl. rewrite Hc, Hds.
      split; [reflexivity|]. split; [reflexivity|]. split; [lia|exact Hp1].
    + injection Hscan as <- <- <-.
      exists []. simpl. rewrite Hc.
      split; [reflexivity|]. split; [reflexivity|]. split; [lia|reflexivity].
Qed.

Lemma parse_roots_loop_sound (a : Z) (n : nat) : forall i p roots roots',
  i + Z.of_nat n = a ->
  parse_roots_loop n i a p roots = Some (roots', []) ->
  exists toks new,
    p = join_commas toks /\ roots' = roots ++ new /\ length toks = n /\
    Forall2 (token_read a) toks new.
Proof.
  induction n as [|n IH]; intros i p roots roots' Hidx Hrun.
  - simpl in Hrun. injection Hrun as <- ->.
    exists [], []. rewrite app_nil_r. repeat split. constructor.
  - cbn [parse_roots_loop] in Hrun.
    destruct (scan_digits p 0 0) as [[val digits] p1] eqn:Hscan.
    destruct ((digits =? 0) || (val <? 0) || (val >=? a)) eqn:Hbad; [discriminate|].
    apply orb_false_iff in Hbad as [Hbad Hhigh].
    apply orb_false_iff in Hbad as [Hzero Hlow].
    destruct (scan_digits_inv _ _ _ _ _ _ Hscan) as (ds & -> & Hds & -> & Hp1).
    assert (Hread : token_read a ds val).
    { split; [intros ->; simpl in Hzero; discriminate|].
      split; [exact Hds|]. split; [lia|].
      intros Hfit. rewrite scan_digits_value in Hscan;
        [|exact Hds|exact Hp1|lia|exact Hfit].
      injection Hscan as <-. reflexivity. }
    destruct (Z.ltb_spec i (a - 1)) as [Hmore|Hlast].
    + destruct p1 as [|c p2]; [discriminate|].
      destruct (is_char c COMMA) eqn:Hc; [|discriminate].
      apply is_char_true in Hc. subst c.
      apply IH in Hrun as (toks & new & -> & -> & Hlen & Hall); [|lia].
      exists (ds :: toks), (val :: new).
      split; [|split; [|split]].
      * destruct toks; [simpl in Hlen; lia|reflexivity].
      * rewrite <- app_assoc. reflexivity.
      * simpl. lia.
      * constructor; assumption.
    + assert (n = O) by lia. subst n. simpl in Hrun.
      injection Hrun as <- ->.
      exists [ds], [val]. rewrite app_nil_r. repeat split.
      constructor; [exact Hread|constructor].
Qed.

(** X3.  Whenever [parse_root_indices] returns true, the text before the
    first [';'] is exactly [w * w] non-empty runs of digits separated by
    single commas (no sign, no blank, no trailing comma), every root it
    stored is a cell index, and it is the number its run denotes whenever
    that number fits an [int]. *)
Theorem parse_root_indices_sound (desc : cstring) (w : Z) (roots : list Z) :
  parse_root_indices desc w = Some roots ->
  exists toks rest,
    desc = join_commas toks ++ SEMI :: rest /\
    (SEMI ∉ join_commas toks) /\
    length toks = Z.to_nat (wrap32 (w * w)) /\
    Forall2 (token_read (wrap32 (w * w))) toks roots.
Proof.
  unfold parse_root_indices. intros Hparse.
  destruct (strchr_semi desc) as [[field rest]|] eqn:Hsplit; [|discriminate].
  cbn zeta in Hparse.
  destruct (parse_roots_loop _ 0 _ field []) as [[roots' [|c p]]|] eqn:Hloop;
    try discriminate.
  injection Hparse as ->.
  destruct (strchr_semi_inv _ _ _ Hsplit) as [-> Hnot].
  destruct (Z.le_gt_cases 0 (wrap32 (w * w))) as [Ha|Ha].
  - apply parse_roots_loop_sound in Hloop as (toks & new & -> & -> & Hlen & Hall);
      [|lia].
    exists toks, rest. auto.
  - replace (Z.to_nat (wrap32 (w * w))) with O in * by lia.
    simpl in Hloop. injection Hloop as <- ->.
    exists [], rest. repeat split; [exact Hnot|constructor].
Qed.

Lemma parse_root_indices_sound_witness :
  parse_root_indices (lit "0,01,2,3;x") 2 = Some [0; 1; 2; 3] /\
  exists toks rest,
    lit "0,01,2,3;x" = join_commas toks ++ SEMI :: rest /\
    (SEMI ∉ join_commas toks) /\
    length toks = Z.to_nat (wrap32 (2 * 2)) /\
    Forall2 (token_read (wrap32 (2 * 2))) toks [0; 1; 2; 3].
Proof.
  assert (Hparse : parse_root_indices (lit "0,01,2,3;x") 2 = Some [0; 1; 2; 3])
    by (vm_compute; reflexivity).
  split; [exact Hparse|].
  exact (parse_root_indices_sound _ 2 _ Hparse).
Defined.

(** ** The descriptors clue_values_within_cap accepts *)

Lemma clue_values_loop_pass (n : nat) : forall p,
  (length p <= n)%nat -> clue_values_loop p = Pass -> clue_field p.
Proof.
  induction n as [|n IH]; intros p Hlen Hpass.
  - destruct p; [constructor|simpl in Hlen; lia].
  - destruct p as [|op p1]; [constructor|].
    destruct (Nat.lt_ge_cases (length p1) 5) as [Hshort|Hlong].
    + rewrite clue_values_loop_short in Hpass by exact Hshort.
      destruct (negb (isalpha op)); discriminate Hpass.
    + destruct p1 as [|c1 [|c2 [|c3 [|c4 [|c5 p2]]]]]; simpl in Hlong; try lia.
      rewrite clue_values_loop_entry, atoi_five_leb in Hpass.
      destruct (isalpha op) eqn:Hop; [|discriminate Hpass]. cbn [negb] in Hpass.
      destruct p2 as [|c p3].
      * apply (clue_field_last op [c1; c2; c3; c4; c5]); [exact Hop|reflexivity].
      * destruct (is_char c COMMA) eqn:Hc; [|discriminate Hpass].
        apply is_char_true in Hc. subst c.
        apply (clue_field_more op [c1; c2; c3; c4; c5] p3); [exact Hop|reflexivity|].
        apply IH; [simpl in Hlen; lia|exact Hpass].
Qed.

Lemma clue_field_pass (p : cstring) : clue_field p -> clue_values_loop p = Pass.
Proof.
  induction 1 as [|op field Hop Hlen|op field rest Hop Hlen _ IH].
  - reflexivity.
  - destruct field as [|c1 [|c2 [|c3 [|c4 [|c5 [|]]]]]]; try discriminate Hlen.
    rewrite clue_values_loop_entry, atoi_five_leb, Hop. reflexivity.
  - destruct field as [|c1 [|c2 [|c3 [|c4 [|c5 [|]]]]]]; try discriminate Hlen.
    cbn [app]. rewrite clue_values_loop_entry, atoi_five_leb, Hop.
    cbn [negb]. rewrite (proj2 (is_char_true COMMA COMMA)) by reflexivity.
    exact IH.
Qed.

(** X4.  [clue_values_within_cap] returns true exactly on the descriptors
    whose text after the first [';'] is a sequence of entries, each a
    letter followed by any five characters, separated by single commas,
    with an optional trailing comma; the empty clue field is accepted.
    Neither the letter (beyond being a letter) nor the five characters are
    inspected. *)
Theorem clue_values_within_cap_accepts (desc : cstring) :
  clue_values_within_cap desc = true <->
  exists field clues,
    desc = field ++ SEMI :: clues /\ (SEMI ∉ field) /\ clue_field clues.
Proof.
  unfold clue_values_within_cap, clue_values_verdict. split.
  - destruct (strchr_semi desc) as [[field clues]|] eqn:Hsplit; [|discriminate].
    destruct (clue_values_loop clues) eqn:Hloop; [|discriminate]. intros _.
    destruct (strchr_semi_inv _ _ _ Hsplit) as [-> Hnot].
    exists field, clues. split; [reflexivity|]. split; [exact Hnot|].
    apply (clue_values_loop_pass (length clues)); [reflexivity|exact Hloop].
  - intros (field & clues & -> & Hnot & Hclues).
    rewrite strchr_semi_split by exact Hnot.
    rewrite clue_field_pass by exact Hclues. reflexivity.
Qed.

(** Accepted although no value field is a number, and although the
    letters are no operators of the game. *)
Example clue_values_accepts_any_field :
  clue_values_within_cap (lit ";z-----,Q ; , ,") = true.
Proof. reflexivity. Qed.

(** ** What parse_ops stores *)

Lemma rd_char_insert_eq (arr : list ascii) (i : Z) (x : ascii) :
  (Z.to_nat i < length arr)%nat -> rd_char (<[Z.to_nat i := x]> arr) i = x.
Proof. intros H. unfold rd_char. rewrite list_lookup_insert_eq by exact H. reflexivity. Qed.

Lemma rd_char_insert_ne (arr : list ascii) (i j : Z) (x : ascii) :
  Z.to_nat i <> Z.to_nat j -> rd_char (<[Z.to_nat i := x]> arr) j = rd_char arr j.
Proof. intros H. unfold rd_char. rewrite list_lookup_insert_ne by exact H. reflexivity. Qed.

Lemma assign_ops_length cells : forall operators ops,
  length (assign_ops cells operators ops) = length ops.
Proof.
  induction cells as [|i cells IH]; intros [|op operators] ops; try reflexivity.
  simpl. rewrite IH. apply length_insert.
Qed.

Lemma assign_ops_other cells : forall operators ops i,
  0 <= i ->
  Forall (fun j => 0 <= j /\ j <> i) cells ->
  rd_char (assign_ops cells operators ops) i = rd_char ops i.
Proof.
  induction cells as [|j cells IH]; intros [|op operators] ops i Hi Hcells;
    try reflexivity.
  apply Forall_cons in Hcells as [[Hj Hne] Hcells].
  simpl. rewrite IH by assumption. apply rd_char_insert_ne. lia.
Qed.

Lemma assign_ops_at cells : forall operators ops (k : nat) i op,
  NoDup cells ->
  Forall (fun j => 0 <= j /\ (Z.to_nat j < length ops)%nat) cells ->
  cells !! k = Some i ->
  operators !! k = Some op ->
  rd_char (assign_ops cells operators ops) i = op.
Proof.
  induction cells as [|j cells IH]; intros operators ops k i op Hnodup Hrange Hcell Hop;
    [discriminate|].
  destruct operators as [|op0 operators]; [destruct k; discriminate|].
  apply NoDup_cons in Hnodup as [Hfresh Hnodup].
  apply Forall_cons in Hrange as [[Hj Hlen] Hrange].
  destruct k as [|k]; simpl in Hcell, Hop.
  - injection Hcell as ->. injection Hop as ->. simpl.
    rewrite assign_ops_other.
    + apply rd_char_insert_eq. exact Hlen.
    + exact Hj.
    + apply Forall_forall. intros j Hin. rewrite Forall_forall in Hrange.
      split; [apply (Hrange j Hin)|]. intros ->. contradiction.
  - simpl. apply (IH operators _ k); try assumption.
    eapply Forall_impl; [exact Hrange|]. intros j' [? ?].
    rewrite length_insert. auto.
Qed.

Lemma parse_ops_loop_idle roots (n : nat) : forall i p ops,
  List.filter (fun j => (rd roots j =? j)%Z) (seqZ i (Z.of_nat n)) = [] ->
  parse_ops_loop n i roots p ops = Some ops.
Proof.
  induction n as [|n IH]; intros i p ops Hnone; [reflexivity|].
  rewrite (seqZ_cons i) in Hnone by lia.
  replace (Z.pred (Z.of_nat (S n))) with (Z.of_nat n) in Hnone by lia.
  replace (Z.succ i) with (i + 1) in Hnone by lia.
  cbn [List.filter] in Hnone. cbn [parse_ops_loop].
  destruct (rd roots i =? i); [discriminate Hnone|].
  cbn [negb]. apply IH. exact Hnone.
Qed.

Lemma parse_ops_loop_reads roots last junk (n : nat) : forall i init ops,
  Forall digit_entry (init ++ [last]) ->
  S (length init)
  = length (List.filter (fun j => (rd roots j =? j)%Z) (seqZ i (Z.of_nat n))) ->
  parse_ops_loop n i roots (render_entries init ++ last.1 :: last.2 ++ junk) ops
  = Some (assign_ops (List.filter (fun j => (rd roots j =? j)%Z) (seqZ i (Z.of_nat n)))
                     (fst <$> init ++ [last]) ops).
Proof.
  induction n as [|n IH]; intros i init ops Hgood Hcount.
  - discriminate Hcount.
  - rewrite (seqZ_cons i) in * by lia.
    replace (Z.pred (Z.of_nat (S n))) with (Z.of_nat n) in * by lia.
    replace (Z.succ i) with (i + 1) in * by lia.
    cbn [List.filter] in *. cbn [parse_ops_loop].
    destruct (rd roots i =? i); cbn [negb].
    + destruct init as [|[op field] init].
      * apply Forall_cons in Hgood as [[Hlen Hdigits] _].
        cbn [render_entries flat_map app fmap list_fmap].
        rewrite <- Hlen at 1. rewrite skip_digits_field by exact Hdigits.
        simpl in Hcount.
        assert (Hnone : List.filter (fun j => (rd roots j =? j)%Z)
                          (seqZ (i + 1) (Z.of_nat n)) = []).
        { destruct (List.filter _ _); [reflexivity|discriminate Hcount]. }
        rewrite Hnone. rewrite parse_ops_loop_idle by exact Hnone. reflexivity.
      * apply Forall_cons in Hgood as [[Hlen Hdigits] Hgood].
        cbn [fst snd] in *.
        unfold render_entries in *. cbn [flat_map fst snd app].
        rewrite <- !app_assoc. rewrite <- Hlen at 1.
        rewrite skip_digits_field by exact Hdigits.
        cbn [app]. rewrite (proj2 (is_char_true COMMA COMMA)) by reflexivity.
        rewrite IH; [reflexivity|exact Hgood|].
        simpl in Hcount. lia.
    + apply IH; assumption.
Qed.

Lemma seqZ_to_nat (i a : Z) : seqZ i (Z.of_nat (Z.to_nat a)) = seqZ i a.
Proof. unfold seqZ. rewrite Nat2Z.id. reflexivity. Qed.

Lemma own_roots_cells roots a :
  NoDup (own_roots roots a) /\
  Forall (fun i => 0 <= i < a /\ rd roots i = i) (own_roots roots a).
Proof.
  unfold own_roots. split.
  - apply NoDup_ListNoDup, List.NoDup_filter, NoDup_ListNoDup, NoDup_seqZ.
  - apply Forall_forall. intros i Hin.
    apply list_elem_of_In, filter_In in Hin as [Hin Hown].
    apply list_elem_of_In, elem_of_seqZ in Hin. lia.
Qed.

Lemma parse_ops_reads_spec (w : Z) (roots : list Z) (ops pre : cstring)
    (init : list (ascii * cstring)) (last : ascii * cstring) (junk : cstring) :
  SEMI ∉ pre ->
  Forall digit_entry (init ++ [last]) ->
  length (init ++ [last]) = length (own_roots roots (wrap32 (w * w))) ->
  length ops = Z.to_nat (wrap32 (w * w)) ->
  exists ops',
    parse_ops (pre ++ SEMI :: render_entries init ++ last.1 :: last.2 ++ junk)
              w roots ops = Some ops' /\
    length ops' = length ops /\
    (forall (k : nat) i e,
       own_roots roots (wrap32 (w * w)) !! k = Some i ->
       (init ++ [last]) !! k = Some e ->
       rd_char ops' i = e.1) /\
    (forall i, 0 <= i -> i ∉ own_roots roots (wrap32 (w * w)) ->
               rd_char ops' i = rd_char ops i).
Proof.
  intros Hpre Hgood Hcount Hlen.
  destruct (own_roots_cells roots (wrap32 (w * w))) as [Hnodup Hcells].
  unfold parse_ops. rewrite strchr_semi_split by exact Hpre. cbn zeta.
  rewrite parse_ops_loop_reads.
  2: exact Hgood.
  2:{ rewrite seqZ_to_nat. fold (own_roots roots (wrap32 (w * w))).
      rewrite length_app in Hcount. simpl in Hcount. lia. }
  rewrite seqZ_to_nat. fold (own_roots roots (wrap32 (w * w))).
  eexists. split; [reflexivity|]. split; [apply assign_ops_length|]. split.
  - intros k i e Hcell Hentry.
    apply (assign_ops_at _ _ _ k); [exact Hnodup| |exact Hcell|].
    + eapply Forall_impl; [exact Hcells|]. intros j [Hj _]. cbv beta. lia.
    + rewrite list_lookup_fmap, Hentry. reflexivity.
  - intros i Hi Hnot. apply assign_ops_other; [exact Hi|].
    apply Forall_forall. intros j Hin. rewrite Forall_forall in Hcells.
    split; [apply (Hcells j Hin)|]. intros ->. contradiction.
Qed.

(** X5.  On a clue field that starts with one entry per cell that is its
    own root (an operator character and five digits, a comma between
    entries), [parse_ops] returns true: it stores the operator of the
    k-th entry in the k-th such cell and leaves every other cell of [ops]
    as it was.  The operator may be any character, the comma after the last
    entry read is optional, and whatever follows it is not looked at. *)
Theorem parse_ops_reads (w : Z) (roots : list Z) (ops pre : cstring)
    (init : list (ascii * cstring)) (last : ascii * cstring) (junk : cstring) :
  SEMI ∉ pre ->
  Forall digit_entry (init ++ [last]) ->
  length (init ++ [last]) = length (own_roots roots (wrap32 (w * w))) ->
  length ops = Z.to_nat (wrap32 (w * w)) ->
  exists ops',
    parse_ops (pre ++ SEMI :: render_entries init ++ last.1 :: last.2 ++ junk)
              w roots ops = Some ops' /\
    length ops' = length ops /\
    (forall (k : nat) i e,
       own_roots roots (wrap32 (w * w)) !! k = Some i ->
       (init ++ [last]) !! k = Some e ->
       rd_char ops' i = e.1) /\
    (forall i, 0 <= i -> i ∉ own_roots roots (wrap32 (w * w)) ->
               rd_char ops' i = rd_char ops i).
Proof. apply parse_ops_reads_spec. Qed.

Lemma parse_ops_reads_witness :
  ((SEMI ∉ lit "0,0,2,2") /\
   Forall digit_entry ([("a"%char, lit "00003")] ++ [("7"%char, lit "00012")]) /\
   length ([("a"%char, lit "00003")] ++ [("7"%char, lit "00012")])
   = length (own_roots [0; 0; 2; 2] (wrap32 (2 * 2))) /\
   length (replicate 4 NUL) = Z.to_nat (wrap32 (2 * 2))) /\
  exists ops',
    parse_ops (lit "0,0,2,2" ++ SEMI :: render_entries [("a"%char, lit "00003")]
                 ++ "7"%char :: lit "00012" ++ lit "x,?")
              2 [0; 0; 2; 2] (replicate 4 NUL) = Some ops' /\
    length ops' = length (replicate 4 NUL) /\
    (forall (k : nat) i e,
       own_roots [0; 0; 2; 2] (wrap32 (2 * 2)) !! k = Some i ->
       ([("a"%char, lit "00003")] ++ [("7"%char, lit "00012")]) !! k = Some e ->
       rd_char ops' i = e.1) /\
    (forall i, 0 <= i -> i ∉ own_roots [0; 0; 2; 2] (wrap32 (2 * 2)) ->
               rd_char ops' i = rd_char (replicate 4 NUL) i).
Proof.
  assert (Hpre : SEMI ∉ lit "0,0,2,2") by not_in_literal.
  assert (Hgood : Forall digit_entry
            ([("a"%char, lit "00003")] ++ [("7"%char, lit "00012")]))
    by (repeat constructor).
  assert (Hcount : length ([("a"%char, lit "00003")] ++ [("7"%char, lit "00012")])
                   = length (own_roots [0; 0; 2; 2] (wrap32 (2 * 2))))
    by reflexivity.
  assert (Hlen : length (replicate 4 NUL) = Z.to_nat (wrap32 (2 * 2))) by reflexivity.
  split; [auto|].
  exact (parse_ops_reads 2 [0; 0; 2; 2] (replicate 4 NUL) (lit "0,0,2,2")
           [("a"%char, lit "00003")] ("7"%char, lit "00012") (lit "x,?")
           Hpre Hgood Hcount Hlen).
Defined.

Lemma skip_digits_inv (d : nat) : forall p q,
  skip_digits d p = Some q ->
  exists ds, p = ds ++ q /\ length ds = d /\ all_digits ds = true.
Proof.
  induction d as [|d IH]; intros p q Hskip.
  - injection Hskip as <-. exists []. auto.
  - destruct p as [|c p]; [discriminate|]. cbn [skip_digits] in Hskip.
    destruct (isdigit c) eqn:Hc; [|discriminate].
    destruct (IH _ _ Hskip) as (ds & -> & Hlen & Hds).
    exists (c :: ds). cbn [app length all_digits forallb].
    unfold all_digits in Hds. rewrite Hc, Hds, Hlen. auto.
Qed.

Lemma parse_ops_loop_sound roots (n : nat) : forall i p ops ops',
  parse_ops_loop n i roots p ops = Some ops' ->
  exists (entries : list read_entry) (junk : cstring),
    p = flat_map render_read entries ++ junk /\
    length entries
    = length (List.filter (fun j => (rd roots j =? j)%Z) (seqZ i (Z.of_nat n))) /\
    Forall (fun e : read_entry => length e.1.2 = 5%nat /\ all_digits e.1.2 = true)
           entries /\
    ops' = assign_ops (List.filter (fun j => (rd roots j =? j)%Z) (seqZ i (Z.of_nat n)))
                      ((fun e : read_entry => e.1.1) <$> entries) ops.
Proof.
  induction n as [|n IH]; intros i p ops ops' Hrun.
  - injection Hrun as <-. exists [], p. repeat split; constructor.
  - rewrite (seqZ_cons i) by lia.
    replace (Z.pred (Z.of_nat (S n))) with (Z.of_nat n) by lia.
    replace (Z.succ i) with (i + 1) by lia.
    cbn [List.filter]. cbn [parse_ops_loop] in Hrun.
    destruct (rd roots i =? i); cbn [negb] in Hrun.
    + destruct p as [|op p1]; [discriminate|].
      destruct (skip_digits 5 p1) as [p2|] eqn:Hskip; [|discriminate].
      apply skip_digits_inv in Hskip as (ds & -> & Hlen & Hds).
      cbv zeta in Hrun.
      assert (Hsep : exists (b : bool) p3,
                p2 = (if b then [COMMA] else []) ++ p3 /\
                parse_ops_loop n (i + 1) roots p3 (<[Z.to_nat i := op]> ops) = Some ops').
      { destruct p2 as [|c p']; [exists false, []; auto|].
        destruct (is_char c COMMA) eqn:Hc.
        - apply is_char_true in Hc. subst c. exists true, p'. auto.
        - exists false, (c :: p'). auto. }
      destruct Hsep as (b & p3 & -> & Hrest). clear Hrun.
      destruct (IH _ _ _ _ Hrest) as (entries & junk & -> & Hcount & Hall & ->).
      exists ((op, ds, b) :: entries), junk.
      split; [|split; [|split]].
      * cbn [flat_map]. unfold render_read. cbn [fst snd app].
        rewrite <- !app_assoc. reflexivity.
      * cbn [length]. rewrite Hcount. reflexivity.
      * constructor; [auto|exact Hall].
      * reflexivity.
    + apply IH. exact Hrun.
Qed.

(** X25.  Whenever [parse_ops] returns true, the text after the first
    [';'] starts with exactly one entry per cell that is its own root: a
    character other than the terminator, five digits, and possibly a comma,
    which is skipped; nothing after the last of these entries is read.  The
    array [ops] holds the k-th entry's character at the k-th such cell and
    is unchanged elsewhere. *)
Theorem parse_ops_sound (desc : cstring) (w : Z) (roots : list Z)
    (ops ops' : list ascii) :
  parse_ops desc w roots ops = Some ops' ->
  exists (field : cstring) (entries : list read_entry) (junk : cstring),
    desc = field ++ SEMI :: flat_map render_read entries ++ junk /\
    (SEMI ∉ field) /\
    length entries = length (own_roots roots (wrap32 (w * w))) /\
    Forall (fun e : read_entry => length e.1.2 = 5%nat /\ all_digits e.1.2 = true)
           entries /\
    ops' = assign_ops (own_roots roots (wrap32 (w * w)))
                      ((fun e : read_entry => e.1.1) <$> entries) ops /\
    length ops' = length ops.
Proof.
  unfold parse_ops. intros Hrun.
  destruct (strchr_semi desc) as [[field clues]|] eqn:Hsplit; [|discriminate].
  apply strchr_semi_inv in Hsplit as [-> Hfield]. cbv zeta in Hrun.
  apply parse_ops_loop_sound in Hrun as (entries & junk & -> & Hcount & Hall & ->).
  rewrite seqZ_to_nat in *. fold (own_roots roots (wrap32 (w * w))) in *.
  exists field, entries, junk.
  split; [reflexivity|]. split; [exact Hfield|]. split; [exact Hcount|].
  split; [exact Hall|]. split; [reflexivity|apply assign_ops_length].
Qed.

Lemma parse_ops_sound_witness :
  parse_ops (lit "0,0,2,2;+00003x00012,zzz") 2 [0; 0; 2; 2] (replicate 4 NUL)
  = Some ["+"%char; NUL; "x"%char; NUL] /\
  exists (field : cstring) (entries : list read_entry) (junk : cstring),
    lit "0,0,2,2;+00003x00012,zzz"
    = field ++ SEMI :: flat_map render_read entries ++ junk /\
    (SEMI ∉ field) /\
    length entries = length (own_roots [0; 0; 2; 2] (wrap32 (2 * 2))) /\
    Forall (fun e : read_entry => length e.1.2 = 5%nat /\ all_digits e.1.2 = true)
           entries /\
    ["+"%char; NUL; "x"%char; NUL]
    = assign_ops (own_roots [0; 0; 2; 2] (wrap32 (2 * 2)))
                 ((fun e : read_entry => e.1.1) <$> entries) (replicate 4 NUL) /\
    length ["+"%char; NUL; "x"%char; NUL] = length (replicate 4 NUL).
Proof.
  assert (Hrun : parse_ops (lit "0,0,2,2;+00003x00012,zzz") 2 [0; 0; 2; 2]
                   (replicate 4 NUL)
                 = Some ["+"%char; NUL; "x"%char; NUL]) by reflexivity.
  split; [exact Hrun|].
  exact (parse_ops_sound _ 2 [0; 0; 2; 2] (replicate 4 NUL) _ Hrun).
Defined.

(** X6.  When no cell is its own root (as in a root array that is not
    idempotent), [parse_ops] returns true on every descriptor that has a
    [';'], without reading a single clue entry, and leaves [ops] as it
    was. *)
Theorem parse_ops_without_own_roots (desc : cstring) (w : Z) (roots : list Z)
    (ops : cstring) :
  SEMI ∈ desc ->
  own_roots roots (wrap32 (w * w)) = [] ->
  parse_ops desc w roots ops = Some ops.
Proof.
  intros Hsemi Hnone. unfold parse_ops.
  destruct (strchr_semi desc) as [[field clues]|] eqn:Hsplit.
  - cbn zeta. apply parse_ops_loop_idle.
    rewrite seqZ_to_nat. exact Hnone.
  - exfalso. clear Hnone. induction desc as [|c desc IH]; [inversion Hsemi|].
    simpl in Hsplit. destruct (is_char c SEMI) eqn:Hc; [discriminate|].
    apply is_char_false in Hc.
    destruct (strchr_semi desc) as [[? ?]|]; [discriminate|].
    apply elem_of_cons in Hsemi as [Heq|Hsemi]; [congruence|].
    apply IH; [exact Hsemi|reflexivity].
Qed.

Lemma parse_ops_without_own_roots_witness :
  ((SEMI ∈ swapped_desc) /\ own_roots [1; 0; 1; 0; 1; 0; 1; 0; 1] (wrap32 (3 * 3)) = []) /\
  parse_ops swapped_desc 3 [1; 0; 1; 0; 1; 0; 1; 0; 1] (replicate 9 NUL)
  = Some (replicate 9 NUL).
Proof.
  assert (Hsemi : SEMI ∈ swapped_desc).
  { vm_compute. do 17 apply list_elem_of_further. apply list_elem_of_here. }
  assert (Hnone : own_roots [1; 0; 1; 0; 1; 0; 1; 0; 1] (wrap32 (3 * 3)) = [])
    by reflexivity.
  split; [auto|].
  exact (parse_ops_without_own_roots swapped_desc 3 _ (replicate 9 NUL) Hsemi Hnone).
Defined.

(** ** The cage checks *)

Lemma mult_cages_flag_complete roots ops a max_mul :
  length roots = Z.to_nat a ->
  in_range a roots ->
  (forall i, 0 <= i < a -> rd roots i = i -> rd_char ops i = "m"%char ->
             cage_size roots i <= max_mul) ->
  mult_cages_within_limit roots ops a max_mul = true.
Proof.
  intros Hlen Hrange Hall. unfold mult_cages_within_limit.
  apply forallb_forall. intros i Hin.
  apply list_elem_of_In, elem_of_seqZ in Hin.
  rewrite tally_counts by (try assumption; lia).
  destruct (Z.eqb_spec (rd roots i) i) as [Hroot|]; [|reflexivity].
  destruct (is_char (rd_char ops i) "m"%char) eqn:Hop; [|reflexivity].
  apply is_char_true in Hop. specialize (Hall i ltac:(lia) Hroot Hop).
  cbn. apply negb_true_iff. lia.
Qed.

(** X7.  For a root array of [a] cell indices, [mult_cages_within_limit]
    returns true exactly when every cell that is its own root and whose
    operator is ['m'] has at most [max_mul] cells in its cage.  Cells whose
    root is another cell, and cages with another operator, are not
    examined. *)
Theorem mult_cages_within_limit_correct (roots : list Z) (ops : list ascii)
    (a max_mul : Z) :
  length roots = Z.to_nat a ->
  in_range a roots ->
  (mult_cages_within_limit roots ops a max_mul = true <->
   forall i, 0 <= i < a -> rd roots i = i -> rd_char ops i = "m"%char ->
             cage_size roots i <= max_mul).
Proof.
  intros Hlen Hrange. split.
  - apply mult_cages_flag_sound; assumption.
  - apply mult_cages_flag_complete; assumption.
Qed.

Lemma mult_cages_within_limit_correct_witness :
  (length [0; 0; 0; 3; 3; 3; 6; 6; 6] = Z.to_nat 9 /\
   in_range 9 [0; 0; 0; 3; 3; 3; 6; 6; 6]) /\
  (mult_cages_within_limit [0; 0; 0; 3; 3; 3; 6; 6; 6] (lit "m  a  m  ") 9 2 = true <->
   forall i, 0 <= i < 9 -> rd [0; 0; 0; 3; 3; 3; 6; 6; 6] i = i ->
             rd_char (lit "m  a  m  ") i = "m"%char ->
             cage_size [0; 0; 0; 3; 3; 3; 6; 6; 6] i <= 2).
Proof.
  assert (Hlen : length [0; 0; 0; 3; 3; 3; 6; 6; 6] = Z.to_nat 9) by reflexivity.
  assert (Hrange : in_range 9 [0; 0; 0; 3; 3; 3; 6; 6; 6])
    by (repeat constructor; lia).
  split; [auto|].
  exact (mult_cages_within_limit_correct _ (lit "m  a  m  ") 9 2 Hlen Hrange).
Defined.

Lemma cage_limit_mult roots ops a max_size max_mul :
  length roots = Z.to_nat a ->
  in_range a roots ->
  max_size <= max_mul ->
  (cage_sizes_within_limit roots a max_size).1 = true ->
  mult_cages_within_limit roots ops a max_mul = true.
Proof.
  intros Hlen Hrange Hle Hcage.
  apply mult_cages_flag_complete; try assumption.
  intros i _ _ _.
  pose proof (cage_sizes_flag_sound roots a max_size Hlen Hrange Hcage i). lia.
Qed.

(** X8.  A root array that passes [cage_sizes_within_limit] with limit
    [max_size] passes [mult_cages_within_limit] with every limit
    [max_mul >= max_size], whatever the operators: the multiplication cap
    can only reject when it is the smaller of the two. *)
Theorem cage_limit_implies_mult_limit (roots : list Z) (ops : list ascii)
    (a max_size max_mul : Z) :
  length roots = Z.to_nat a ->
  in_range a roots ->
  max_size <= max_mul ->
  (cage_sizes_within_limit roots a max_size).1 = true ->
  mult_cages_within_limit roots ops a max_mul = true.
Proof.
  apply cage_limit_mult.
Qed.

Lemma cage_limit_implies_mult_limit_witness :
  (length [0; 0; 0; 3; 3; 3; 6; 6; 6] = Z.to_nat 9 /\
   in_range 9 [0; 0; 0; 3; 3; 3; 6; 6; 6] /\
   CLASSIK_MAX_CAGE_SIZE <= 10 /\
   (cage_sizes_within_limit [0; 0; 0; 3; 3; 3; 6; 6; 6] 9 CLASSIK_MAX_CAGE_SIZE).1 = true) /\
  mult_cages_within_limit [0; 0; 0; 3; 3; 3; 6; 6; 6] (lit "mmmmmmmmm") 9 10 = true.
Proof.
  assert (Hlen : length [0; 0; 0; 3; 3; 3; 6; 6; 6] = Z.to_nat 9) by reflexivity.
  assert (Hrange : in_range 9 [0; 0; 0; 3; 3; 3; 6; 6; 6])
    by (repeat constructor; lia).
  assert (Hle : CLASSIK_MAX_CAGE_SIZE <= 10) by (unfold CLASSIK_MAX_CAGE_SIZE; lia).
  assert (Hcage : (cage_sizes_within_limit [0; 0; 0; 3; 3; 3; 6; 6; 6] 9
                     CLASSIK_MAX_CAGE_SIZE).1 = true) by reflexivity.
  split; [auto|].
  exact (cage_limit_implies_mult_limit _ (lit "mmmmmmmmm") 9 _ 10 Hlen Hrange Hle Hcage).
Defined.

Lemma cage_size_le_length roots r : cage_size roots r <= Z.of_nat (length roots).
Proof. unfold cage_size. pose proof (count_occ_bound Z.eq_dec r roots). lia. Qed.

(** X9.  On a non-empty root array of [a] cell indices the largest cage
    [cage_sizes_within_limit] reports has between 1 and [a] cells; so the
    check fails for every [max_size <= 0] and passes for every
    [max_size >= a], and the reported size does not depend on [max_size]. *)
Theorem cage_sizes_largest_bounds (roots : list Z) (a max_size : Z) :
  Z.of_nat (length roots) = a ->
  in_range a roots ->
  roots <> [] ->
  1 <= (cage_sizes_within_limit roots a max_size).2 <= a /\
  (max_size <= 0 -> (cage_sizes_within_limit roots a max_size).1 = false) /\
  (a <= max_size -> (cage_sizes_within_limit roots a max_size).1 = true) /\
  (forall max_size', (cage_sizes_within_limit roots a max_size').2
                     = (cage_sizes_within_limit roots a max_size).2).
Proof.
  intros Hlen Hrange Hne.
  destruct (cage_sizes_counts roots a max_size Hlen Hrange)
    as (counts & Heq & (_ & _ & _ & Hwit)).
  cbn [fst snd] in *.
  destruct Hwit as [[Hnil _]|(r & Hin & Hr)]; [contradiction|].
  pose proof (cage_size_pos roots r Hin) as Hpos.
  pose proof (cage_size_le_length roots r) as Hmax.
  set (m := (cage_sizes_within_limit roots a max_size).2) in *.
  assert (Hflag : (cage_sizes_within_limit roots a max_size).1 = (m <=? max_size))
    by (rewrite Heq; reflexivity).
  rewrite Hflag.
  split; [lia|]. split; [lia|]. split; [lia|].
  intros max_size'. reflexivity.
Qed.

Lemma cage_sizes_largest_bounds_witness :
  (Z.of_nat (length [0; 0; 2; 2; 2; 5; 5; 5; 5]) = 9 /\
   in_range 9 [0; 0; 2; 2; 2; 5; 5; 5; 5] /\
   [0; 0; 2; 2; 2; 5; 5; 5; 5] <> []) /\
  1 <= (cage_sizes_within_limit [0; 0; 2; 2; 2; 5; 5; 5; 5] 9 6).2 <= 9 /\
  (6 <= 0 -> (cage_sizes_within_limit [0; 0; 2; 2; 2; 5; 5; 5; 5] 9 6).1 = false) /\
  (9 <= 6 -> (cage_sizes_within_limit [0; 0; 2; 2; 2; 5; 5; 5; 5] 9 6).1 = true) /\
  (forall max_size', (cage_sizes_within_limit [0; 0; 2; 2; 2; 5; 5; 5; 5] 9 max_size').2
                     = (cage_sizes_within_limit [0; 0; 2; 2; 2; 5; 5; 5; 5] 9 6).2).
Proof.
  assert (Hlen : Z.of_nat (length [0; 0; 2; 2; 2; 5; 5; 5; 5]) = 9) by reflexivity.
  assert (Hrange : in_range 9 [0; 0; 2; 2; 2; 5; 5; 5; 5])
    by (repeat constructor; lia).
  assert (Hne : [0; 0; 2; 2; 2; 5; 5; 5; 5] <> []) by discriminate.
  split; [auto|].
  exact (cage_sizes_largest_bounds _ 9 6 Hlen Hrange Hne).
Defined.

Lemma mult_cages_within_limit_mono roots ops a max_mul max_mul' :
  max_mul <= max_mul' ->
  mult_cages_within_limit roots ops a max_mul = true ->
  mult_cages_within_limit roots ops a max_mul' = true.
Proof.
  intros Hle. unfold mult_cages_within_limit.
  rewrite !forallb_forall. intros Hall i Hin. specialize (Hall i Hin).
  cbv beta in *.
  destruct (_ && is_char _ _); [|reflexivity].
  cbn [andb] in *. apply negb_true_iff in Hall. apply negb_true_iff. lia.
Qed.

(** X10.  Acceptance is monotone in the caps: a descriptor the validation
    pipeline of [test_combination] accepts is still accepted when each cap
    is disabled or, being enabled, raised. *)
Theorem descriptor_accepted_looser_caps (size max_cage_size max_mul_cells
    max_cage_size' max_mul_cells' : Z) (desc : cstring) :
  looser max_cage_size max_cage_size' ->
  looser max_mul_cells max_mul_cells' ->
  descriptor_accepted size max_cage_size max_mul_cells desc = true ->
  descriptor_accepted size max_cage_size' max_mul_cells' desc = true.
Proof.
  unfold looser, descriptor_accepted. intros Hcage Hmul.
  destruct (clue_values_within_cap desc); cbn [negb]; [|discriminate].
  destruct (Z.gtb_spec max_cage_size' 0) as [Hc'|Hc'];
    destruct (Z.gtb_spec max_mul_cells' 0) as [Hm'|Hm']; cbn [orb andb];
    try reflexivity.
  - assert (Hc : (max_cage_size >? 0) = true) by lia.
    assert (Hm : (max_mul_cells >? 0) = true) by lia.
    rewrite Hc, Hm. cbn [orb andb].
    destruct (parse_root_indices desc size) as [roots|]; [|discriminate].
    assert (Hsame : (cage_sizes_within_limit roots (wrap32 (size * size)) max_cage_size').2
                    = (cage_sizes_within_limit roots (wrap32 (size * size)) max_cage_size).2)
      by reflexivity.
    assert (Hflag : forall m,
               (cage_sizes_within_limit roots (wrap32 (size * size)) m).1 =
               ((cage_sizes_within_limit roots (wrap32 (size * size)) m).2 <=? m))
      by reflexivity.
    rewrite (Hflag max_cage_size), (Hflag max_cage_size'), Hsame.
    destruct (Z.leb_spec
                (cage_sizes_within_limit roots (wrap32 (size * size)) max_cage_size).2
                max_cage_size) as [Hok|]; cbn [negb]; [|discriminate].
    destruct (Z.leb_spec
                (cage_sizes_within_limit roots (wrap32 (size * size)) max_cage_size).2
                max_cage_size') as [|Hbad]; [|lia]. cbn [negb].
    destruct (parse_ops _ _ _ _) as [ops'|]; [|discriminate].
    destruct (mult_cages_within_limit roots ops' _ max_mul_cells) eqn:Hmult;
      cbn [negb]; [|discriminate].
    rewrite (mult_cages_within_limit_mono _ _ _ max_mul_cells max_mul_cells')
      by (assumption || lia).
    reflexivity.
  - assert (Hc : (max_cage_size >? 0) = true) by lia.
    rewrite Hc. cbn [orb andb].
    destruct (parse_root_indices desc size) as [roots|]; [|discriminate].
    assert (Hsame : (cage_sizes_within_limit roots (wrap32 (size * size)) max_cage_size').2
                    = (cage_sizes_within_limit roots (wrap32 (size * size)) max_cage_size).2)
      by reflexivity.
    assert (Hflag : forall m,
               (cage_sizes_within_limit roots (wrap32 (size * size)) m).1 =
               ((cage_sizes_within_limit roots (wrap32 (size * size)) m).2 <=? m))
      by reflexivity.
    rewrite (Hflag max_cage_size), (Hflag max_cage_size'), Hsame.
    destruct (Z.leb_spec
                (cage_sizes_within_limit roots (wrap32 (size * size)) max_cage_size).2
                max_cage_size) as [Hok|]; cbn [negb]; [|discriminate].
    destruct (Z.leb_spec
                (cage_sizes_within_limit roots (wrap32 (size * size)) max_cage_size).2
                max_cage_size') as [|Hbad]; [|lia]. reflexivity.
  - assert (Hm : (max_mul_cells >? 0) = true) by lia.
    rewrite Hm, orb_true_r. cbn [andb].
    destruct (parse_root_indices desc size) as [roots|]; [|discriminate].
    destruct (_ && _); [discriminate|].
    destruct (parse_ops _ _ _ _) as [ops'|]; [|discriminate].
    destruct (mult_cages_within_limit roots ops' _ max_mul_cells) eqn:Hmult;
      cbn [negb]; [|discriminate].
    rewrite (mult_cages_within_limit_mono _ _ _ max_mul_cells max_mul_cells')
      by (assumption || lia).
    reflexivity.
Qed.

Lemma descriptor_accepted_looser_caps_witness :
  (looser 3 CLASSIK_MAX_CAGE_SIZE /\ looser 3 0 /\
   descriptor_accepted 3 3 3 good_desc = true) /\
  descriptor_accepted 3 CLASSIK_MAX_CAGE_SIZE 0 good_desc = true.
Proof.
  assert (Hcage : looser 3 CLASSIK_MAX_CAGE_SIZE)
    by (right; unfold CLASSIK_MAX_CAGE_SIZE; lia).
  assert (Hmul : looser 3 0) by (left; lia).
  assert (Hacc : descriptor_accepted 3 3 3 good_desc = true) by (vm_compute; reflexivity).
  split; [auto|].
  exact (descriptor_accepted_looser_caps 3 3 3 _ 0 good_desc Hcage Hmul Hacc).
Defined.

(** ** max_mul_cells_for_size outside the Classik sizes *)

Lemma max_mul_cells_value (w : Z) :
  2 <= w <= INT_MAX ->
  exists k, max_mul_cells_for_size 17 w = Some k /\ 0 <= k /\
            w ^ k <= MAX_CLUE_VALUE < w ^ (k + 1).
Proof.
  intros Hw.
  assert (Hfuel : MAX_CLUE_VALUE < w ^ (0 + Z.of_nat 17)).
  { apply Z.lt_le_trans with (2 ^ 17); [reflexivity|].
    apply Z.pow_le_mono_l; lia. }
  destruct (max_mul_cells_loop_spec w Hw 17 0 [1]
              ltac:(lia) ltac:(rewrite Z.pow_0_r; unfold MAX_CLUE_VALUE; lia) Hfuel)
    as (k & Hrun & Hk & Hpow).
  rewrite Z.pow_0_r in Hrun.
  exists k. unfold max_mul_cells_for_size, max_mul_cells_run.
  rewrite Hrun. split; [reflexivity|]. split; [lia|exact Hpow].
Qed.

Lemma max_mul_cells_loop_one (fuel : nat) :
  forall cells vals, max_mul_cells_loop fuel 1 1 cells vals = None.
Proof.
  induction fuel as [|fuel IH]; intros cells vals; [reflexivity|].
  cbn [max_mul_cells_loop].
  change (u64 1 =? 0) with false.
  change (1 <=? MAX_CLUE_VALUE / u64 1) with true. cbv iota.
  change (u64 (1 * u64 1)) with 1. apply IH.
Qed.

(** X11.  [max_mul_cells_for_size] at the [int] values the harness does not
    use: for [w = 1] the loop never ends ([val] stays 1); for a negative
    [w] (converted to a huge [unsigned long]) and for [w > MAX_CLUE_VALUE]
    the loop body is never entered and the result is 0; for every other
    [w >= 2] the loop ends within 17 iterations with at most 16 cells, so
    the [int] counter cannot overflow. *)
Theorem max_mul_cells_for_size_edges (w : Z) :
  INT_MIN <= w <= INT_MAX ->
  (w = 1 -> forall fuel, max_mul_cells_for_size fuel w = None) /\
  (w < 0 \/ MAX_CLUE_VALUE < w -> forall fuel, max_mul_cells_for_size fuel w = Some 0) /\
  (2 <= w -> exists k, max_mul_cells_for_size 17 w = Some k /\ 0 <= k <= 16).
Proof.
  intros Hw. split; [|split].
  - intros -> fuel. unfold max_mul_cells_for_size, max_mul_cells_run.
    rewrite max_mul_cells_loop_one. reflexivity.
  - intros Hout fuel.
    assert (Hbig : MAX_CLUE_VALUE < u64 w).
    { unfold u64, INT_MIN, INT_MAX, MAX_CLUE_VALUE in *.
      destruct Hout as [Hneg|Hlarge].
      - replace (w mod 2 ^ 64) with (w + 2 ^ 64); [lia|].
        apply Z.mod_unique with (-1); lia.
      - rewrite Z.mod_small by lia. lia. }
    assert (Hdiv : MAX_CLUE_VALUE / u64 w = 0)
      by (apply Z.div_small; unfold MAX_CLUE_VALUE in *; lia).
    assert (Hnz : (u64 w =? 0) = false)
      by (apply Z.eqb_neq; unfold MAX_CLUE_VALUE in *; lia).
    unfold max_mul_cells_for_size, max_mul_cells_run.
    destruct fuel; cbn [max_mul_cells_loop]; rewrite Hnz, Hdiv; reflexivity.
  - intros H2.
    destruct (max_mul_cells_value w ltac:(lia)) as (k & Hk & Hk0 & Hpow & _).
    exists k. split; [exact Hk|]. split; [lia|].
    destruct (Z.le_gt_cases k 16) as [|Hgt]; [assumption|exfalso].
    assert (2 ^ 17 <= w ^ k).
    { apply Z.le_trans with (2 ^ k).
      - apply Z.pow_le_mono_r; lia.
      - apply Z.pow_le_mono_l; lia. }
    unfold MAX_CLUE_VALUE in Hpow. lia.
Qed.

Lemma max_mul_cells_for_size_edges_witness :
  INT_MIN <= -1 <= INT_MAX /\
  (-1 = 1 -> forall fuel, max_mul_cells_for_size fuel (-1) = None) /\
  (-1 < 0 \/ MAX_CLUE_VALUE < -1 ->
   forall fuel, max_mul_cells_for_size fuel (-1) = Some 0) /\
  (2 <= -1 -> exists k, max_mul_cells_for_size 17 (-1) = Some k /\ 0 <= k <= 16).
Proof.
  assert (Hw : INT_MIN <= -1 <= INT_MAX) by (unfold INT_MIN, INT_MAX; lia).
  split; [exact Hw|].
  exact (max_mul_cells_for_size_edges (-1) Hw).
Defined.

(** X12.  [max_mul_cells_for_size] is antitone on [w >= 2]: a wider grid
    never gets a larger multiplication cap. *)
Theorem max_mul_cells_for_size_antitone (w1 w2 : Z) :
  2 <= w1 -> w1 <= w2 -> w2 <= INT_MAX ->
  exists k1 k2,
    max_mul_cells_for_size 17 w1 = Some k1 /\
    max_mul_cells_for_size 17 w2 = Some k2 /\
    k2 <= k1.
Proof.
  intros H1 H12 H2.
  destruct (max_mul_cells_value w1 ltac:(lia)) as (k1 & Hk1 & Hk10 & Hlo1 & Hhi1).
  destruct (max_mul_cells_value w2 ltac:(lia)) as (k2 & Hk2 & Hk20 & Hlo2 & Hhi2).
  exists k1, k2. split; [exact Hk1|]. split; [exact Hk2|].
  destruct (Z.le_gt_cases k2 k1) as [|Hgt]; [assumption|exfalso].
  assert (w1 ^ (k1 + 1) <= w2 ^ k2).
  { apply Z.le_trans with (w1 ^ k2).
    - apply Z.pow_le_mono_r; lia.
    - apply Z.pow_le_mono_l; lia. }
  lia.
Qed.

Lemma max_mul_cells_for_size_antitone_witness :
  (2 <= MIN_GRID_SIZE /\ MIN_GRID_SIZE <= CLASSIK_MAX_GRID_SIZE /\
   CLASSIK_MAX_GRID_SIZE <= INT_MAX) /\
  exists k1 k2,
    max_mul_cells_for_size 17 MIN_GRID_SIZE = Some k1 /\
    max_mul_cells_for_size 17 CLASSIK_MAX_GRID_SIZE = Some k2 /\
    k2 <= k1.
Proof.
  assert (H1 : 2 <= MIN_GRID_SIZE) by (unfold MIN_GRID_SIZE; lia).
  assert (H12 : MIN_GRID_SIZE <= CLASSIK_MAX_GRID_SIZE)
    by (unfold MIN_GRID_SIZE, CLASSIK_MAX_GRID_SIZE; lia).
  assert (H2 : CLASSIK_MAX_GRID_SIZE <= INT_MAX)
    by (unfold CLASSIK_MAX_GRID_SIZE, INT_MAX; lia).
  split; [auto|].
  exact (max_mul_cells_for_size_antitone _ _ H1 H12 H2).
Defined.

(** X13.  For grids of width 2 to 6 the multiplication cap computed by
    [max_mul_cells_for_size] is at least [CLASSIK_MAX_CAGE_SIZE], so
    enforcing it rejects nothing for its size: a descriptor accepted with
    the cage cap alone, whose operators [parse_ops] reads, is accepted with
    both caps. *)
Theorem mult_cap_redundant_up_to_six (size k : Z) (desc : cstring)
    (roots : list Z) (ops' : list ascii) :
  2 <= size <= 6 ->
  max_mul_cells_for_size 17 size = Some k ->
  parse_root_indices desc size = Some roots ->
  parse_ops desc size roots (replicate (Z.to_nat (wrap32 (size * size))) NUL) = Some ops' ->
  descriptor_accepted size CLASSIK_MAX_CAGE_SIZE 0 desc = true ->
  CLASSIK_MAX_CAGE_SIZE <= k /\
  descriptor_accepted size CLASSIK_MAX_CAGE_SIZE k desc = true.
Proof.
  intros Hsize Hk Hroots Hops Hacc.
  destruct (max_mul_cells_value size ltac:(unfold INT_MAX; lia))
    as (k' & Hk' & Hk0 & Hlo & Hhi).
  rewrite Hk in Hk'. injection Hk' as <-.
  assert (Hcap : CLASSIK_MAX_CAGE_SIZE <= k).
  { unfold CLASSIK_MAX_CAGE_SIZE.
    destruct (Z.le_gt_cases 6 k) as [|Hlt]; [assumption|exfalso].
    assert (size ^ (k + 1) <= 6 ^ 6).
    { apply Z.le_trans with (size ^ 6).
      - apply Z.pow_le_mono_r; lia.
      - apply Z.pow_le_mono_l; lia. }
    unfold MAX_CLUE_VALUE in Hhi. lia. }
  split; [exact Hcap|].
  unfold descriptor_accepted in *.
  destruct (clue_values_within_cap desc); cbn [negb] in *; [|discriminate].
  change (CLASSIK_MAX_CAGE_SIZE >? 0) with true in *. cbn [orb andb] in *.
  rewrite Hroots in *.
  destruct (cage_sizes_within_limit roots _ CLASSIK_MAX_CAGE_SIZE).1 eqn:Hcage;
    cbn [negb] in *; [|discriminate].
  rewrite Hops.
  apply parse_root_indices_range in Hroots as [Hlen Hrange].
  rewrite (cage_limit_mult roots ops' _ CLASSIK_MAX_CAGE_SIZE k Hlen Hrange Hcap Hcage).
  cbn [negb]. rewrite andb_false_r. reflexivity.
Qed.

Lemma mult_cap_redundant_up_to_six_witness :
  (2 <= 3 <= 6 /\
   max_mul_cells_for_size 17 3 = Some 10 /\
   parse_root_indices good_desc 3 = Some [0; 0; 0; 3; 3; 3; 6; 6; 6] /\
   parse_ops good_desc 3 [0; 0; 0; 3; 3; 3; 6; 6; 6]
     (replicate (Z.to_nat (wrap32 (3 * 3))) NUL)
     = Some (lit "a" ++ [NUL; NUL] ++ lit "m" ++ [NUL; NUL] ++ lit "s" ++ [NUL; NUL]) /\
   descriptor_accepted 3 CLASSIK_MAX_CAGE_SIZE 0 good_desc = true) /\
  CLASSIK_MAX_CAGE_SIZE <= 10 /\
  descriptor_accepted 3 CLASSIK_MAX_CAGE_SIZE 10 good_desc = true.
Proof.
  assert (Hsize : 2 <= 3 <= 6) by lia.
  assert (Hk : max_mul_cells_for_size 17 3 = Some 10) by (vm_compute; reflexivity).
  assert (Hroots : parse_root_indices good_desc 3 = Some [0; 0; 0; 3; 3; 3; 6; 6; 6])
    by (vm_compute; reflexivity).
  assert (Hops : parse_ops good_desc 3 [0; 0; 0; 3; 3; 3; 6; 6; 6]
                   (replicate (Z.to_nat (wrap32 (3 * 3))) NUL)
                 = Some (lit "a" ++ [NUL; NUL] ++ lit "m" ++ [NUL; NUL]
                           ++ lit "s" ++ [NUL; NUL]))
    by (vm_compute; reflexivity).
  assert (Hacc : descriptor_accepted 3 CLASSIK_MAX_CAGE_SIZE 0 good_desc = true)
    by (vm_compute; reflexivity).
  split; [auto|].
  exact (mult_cap_redundant_up_to_six 3 10 good_desc _ _ Hsize Hk Hroots Hops Hacc).
Defined.

(** ** The attempt counters of test_combination *)

Lemma wrap32_add_l (x y : Z) : wrap32 (wrap32 x + y) = wrap32 (x + y).
Proof.
  unfold wrap32. f_equal.
  replace ((x + 2 ^ 31) mod 2 ^ 32 - 2 ^ 31 + y + 2 ^ 31)
    with ((x + 2 ^ 31) mod 2 ^ 32 + y) by ring.
  rewrite Zplus_mod_idemp_l. f_equal. ring.
Qed.

Lemma wrap32_range (x : Z) : INT_MIN <= wrap32 x <= INT_MAX.
Proof.
  unfold wrap32, INT_MIN, INT_MAX.
  pose proof (Z.mod_pos_bound (x + 2 ^ 31) (2 ^ 32) ltac:(lia)). lia.
Qed.

Lemma wrap32_int (x : Z) : INT_MIN <= x <= INT_MAX -> wrap32 x = x.
Proof.
  unfold wrap32, INT_MIN, INT_MAX. intros Hx.
  rewrite Z.mod_small by lia. lia.
Qed.

Lemma attempts_sum_snoc samples s :
  attempts_sum (samples ++ [s]) = attempts_sum samples + sm_attempts s.
Proof.
  unfold attempts_sum. rewrite fmap_app.
  induction (sm_attempts <$> samples) as [|a l IH]; cbn [foldr app fmap list_fmap] in *; lia.
Qed.

Lemma count_samples_cons f s samples :
  count_samples f (s :: samples)
  = (if f s then 1 else 0) + count_samples f samples.
Proof.
  unfold count_samples. cbn [List.filter].
  destruct (f s); cbn [length]; lia.
Qed.

Section AttemptsAccounting.
Variable G : generator.
Variables size diff profile max_cage_size max_mul_cells : Z.
Variable base_seed : Z.

Local Abbreviation loop :=
  (attempt_loop G size diff profile max_cage_size max_mul_cells base_seed).
Local Abbreviation ploop :=
  (puzzles_loop G size diff profile max_cage_size max_mul_cells base_seed).
Local Abbreviation run :=
  (test_combination G size diff profile max_cage_size max_mul_cells base_seed).
Local Abbreviation sample_ok :=
  (sample_ok G size diff profile max_cage_size max_mul_cells base_seed).

Lemma attempt_loop_total (fuel : nat) : forall puzzle st st',
  loop fuel puzzle st = Some st' ->
  INT_MIN <= ls_total_attempts st <= INT_MAX ->
  INT_MIN <= ls_total_attempts st' <= INT_MAX /\
  ls_total_attempts st'
  = wrap32 (ls_total_attempts st + (ls_attempts st' - ls_attempts st)).
Proof.
  induction fuel as [|fuel IH]; intros puzzle st st' Hrun Hrange;
    cbn [attempt_loop] in Hrun;
    destruct (negb (ls_success st) && (ls_attempts st <? MAX_ATTEMPTS)).
  - discriminate.
  - injection Hrun as <-. split; [exact Hrange|].
    rewrite Z.sub_diag, Z.add_0_r, wrap32_int; [reflexivity|exact Hrange].
  - apply IH in Hrun; rewrite attempt_body_eq in *; cbn [ls_total_attempts ls_attempts] in *.
    + destruct Hrun as [Hrange' Htotal]. split; [exact Hrange'|].
      rewrite Htotal, wrap32_add_l. f_equal. lia.
    + apply wrap32_range.
  - injection Hrun as <-. split; [exact Hrange|].
    rewrite Z.sub_diag, Z.add_0_r, wrap32_int; [reflexivity|exact Hrange].
Qed.

Lemma puzzles_loop_total (fuel n : nat) : forall puzzle st st',
  ploop fuel n puzzle st = Some st' ->
  INT_MIN <= rs_total_attempts st <= INT_MAX ->
  tr_attempts (rs_result st) = rs_total_attempts st ->
  tr_attempts (rs_result st) = wrap32 (attempts_sum (rs_samples st)) ->
  tr_attempts (rs_result st') = rs_total_attempts st' /\
  tr_attempts (rs_result st') = wrap32 (attempts_sum (rs_samples st')).
Proof.
  induction n as [|n IH]; intros puzzle st st' Hrun Hrange Hsame Hsum;
    cbn [puzzles_loop] in Hrun.
  - injection Hrun as <-. auto.
  - unfold puzzle_body in Hrun.
    destruct (attempt_loop _ _ _ _ _ _ _ _ _ _) as [ls|] eqn:Hloop; [|discriminate].
    apply attempt_loop_total in Hloop; [|exact Hrange].
    cbn [ls_total_attempts ls_attempts] in Hloop.
    destruct Hloop as [Hrange' Htotal].
    apply IH in Hrun; cbn [rs_result rs_total_attempts rs_samples tr_attempts].
    + exact Hrun.
    + exact Hrange'.
    + rewrite Htotal, Hsame. f_equal. lia.
    + rewrite attempts_sum_snoc. cbn [sm_attempts].
      rewrite Hsum, wrap32_add_l. reflexivity.
Qed.

Lemma samples_attempts (samples : list sample) :
  Forall sample_ok samples ->
  attempts_sum samples = Z.of_nat (length (run_events_of samples)) /\
  count_samples sm_success samples + MAX_ATTEMPTS * count_samples exhausted samples
    <= attempts_sum samples <= MAX_ATTEMPTS * Z.of_nat (length samples).
Proof.
  unfold attempts_sum, run_events_of.
  induction 1 as [|s samples Hs Hall IH].
  - cbn. unfold count_samples, MAX_ATTEMPTS. cbn. lia.
  - rewrite !count_samples_cons.
    rewrite !fmap_cons. cbn [foldr concat]. rewrite length_app.
    destruct Hs as [Hev Hcase].
    assert (Hlen : 0 <= sm_attempts s ->
                   Z.of_nat (length (sm_events s)) = sm_attempts s).
    { intros Hnn. rewrite Hev, length_fmap, length_seqZ. lia. }
    unfold exhausted at 1. unfold MAX_ATTEMPTS in *.
    destruct Hcase as [(-> & Hatt & _)|(-> & Hatt & _)]; cbn [negb];
      specialize (Hlen ltac:(lia)); cbn [length]; lia.
Qed.

(** X14.  The attempt counters of [test_combination].  For a puzzle count
    that cannot overflow them ([25 * puzzles <= INT_MAX]), [result.attempts]
    is the sum of the samples' attempts, which is the number of seeds the
    run built; it lies between [puzzles] and [25 * puzzles], and every
    failure accounts for 25 of them and every success for at least one. *)
Theorem test_combination_attempts (extra : nat) (puzzles : Z) :
  0 <= puzzles ->
  MAX_ATTEMPTS * puzzles <= INT_MAX ->
  exists result samples,
    run (Z.to_nat MAX_ATTEMPTS + extra) puzzles = Some (result, samples) /\
    tr_attempts result = attempts_sum samples /\
    tr_attempts result = Z.of_nat (length (run_events_of samples)) /\
    puzzles <= tr_attempts result <= MAX_ATTEMPTS * puzzles /\
    tr_successes result + MAX_ATTEMPTS * tr_failures result <= tr_attempts result.
Proof.
  intros Hpuzzles Hfit.
  destruct (test_combination_spec G size diff profile max_cage_size max_mul_cells
              base_seed extra puzzles)
    as (result & samples & Hrun & Hidx & Hsucc & Hfail & Hall & _).
  exists result, samples. split; [exact Hrun|].
  unfold test_combination in Hrun.
  destruct (puzzles_loop _ _ _ _ _ _ _ _ _ _ _) as [st|] eqn:Hloop; [|discriminate].
  injection Hrun as <- <-.
  apply puzzles_loop_total in Hloop;
    [|cbn; unfold INT_MIN, INT_MAX; lia|reflexivity|reflexivity].
  destruct Hloop as [_ Hsum].
  destruct (samples_attempts _ Hall) as (Hevents & Hlow & Hhigh).
  assert (Hlen : Z.of_nat (length (rs_samples st)) = puzzles).
  { rewrite <- (length_fmap sm_puzzle), Hidx, length_seqZ. lia. }
  assert (Htotal : count_samples sm_success (rs_samples st)
                   + count_samples exhausted (rs_samples st) = puzzles).
  { rewrite count_samples_total. exact Hlen. }
  assert (H0 : 0 <= count_samples exhausted (rs_samples st))
    by (unfold count_samples; lia).
  rewrite Hlen in Hhigh.
  rewrite wrap32_int in Hsum
    by (unfold INT_MIN, INT_MAX, MAX_ATTEMPTS in *; lia).
  rewrite Hsucc, Hfail, Hsum.
  split; [reflexivity|]. split; [exact Hevents|].
  unfold MAX_ATTEMPTS in *. lia.
Qed.

End AttemptsAccounting.

Lemma test_combination_attempts_witness :
  (0 <= PUZZLES_PER_COMBO /\ MAX_ATTEMPTS * PUZZLES_PER_COMBO <= INT_MAX) /\
  exists result samples,
    test_combination (constant_generator (Some good_desc)) 3 0 0
      CLASSIK_MAX_CAGE_SIZE 10 7 (Z.to_nat MAX_ATTEMPTS + 0) PUZZLES_PER_COMBO
      = Some (result, samples) /\
    tr_attempts result = attempts_sum samples /\
    tr_attempts result = Z.of_nat (length (run_events_of samples)) /\
    PUZZLES_PER_COMBO <= tr_attempts result <= MAX_ATTEMPTS * PUZZLES_PER_COMBO /\
    tr_successes result + MAX_ATTEMPTS * tr_failures result <= tr_attempts result.
Proof.
  assert (H0 : 0 <= PUZZLES_PER_COMBO) by (unfold PUZZLES_PER_COMBO; lia).
  assert (Hfit : MAX_ATTEMPTS * PUZZLES_PER_COMBO <= INT_MAX)
    by (unfold MAX_ATTEMPTS, PUZZLES_PER_COMBO, INT_MAX; lia).
  split; [auto|].
  exact (test_combination_attempts (constant_generator (Some good_desc)) 3 0 0
           CLASSIK_MAX_CAGE_SIZE 10 7 0 PUZZLES_PER_COMBO H0 Hfit).
Defined.

(** ** Seed strings *)

Lemma split_at_first {A : Type} (c : A) (l1 l2 r1 r2 : list A) :
  (c ∉ l1) -> (c ∉ l2) -> l1 ++ c :: r1 = l2 ++ c :: r2 -> l1 = l2 /\ r1 = r2.
Proof.
  revert l2. induction l1 as [|x l1 IH]; intros [|y l2] H1 H2 Heq; cbn [app] in Heq.
  - injection Heq as ->. auto.
  - injection Heq as -> _. exfalso. apply H2. constructor.
  - injection Heq as -> _. exfalso. apply H1. constructor.
  - injection Heq as -> Heq.
    destruct (IH l2) as [-> ->]; try assumption; [| |auto].
    + intros Hin. apply H1. constructor. exact Hin.
    + intros Hin. apply H2. constructor. exact Hin.
Qed.

Lemma dec_no_underscore (z : Z) : "_"%char ∉ dec z.
Proof.
  intros Hin. pose proof (dec_chars z) as Hall.
  rewrite Forall_forall in Hall. destruct (Hall _ Hin); discriminate.
Qed.

Lemma u32_range (z : Z) : 0 <= u32 z < 2 ^ 32.
Proof. unfold u32. apply Z.mod_pos_bound. lia. Qed.

Lemma dec_length_int (z : Z) :
  INT_MIN <= z < 2 ^ 32 -> (length (dec z) <= 11)%nat.
Proof.
  unfold INT_MIN. intros Hz.
  assert (Hpow : 10 ^ Z.of_nat 10 = 10000000000) by reflexivity.
  destruct (Z.lt_ge_cases z 0) as [Hneg|Hpos].
  - rewrite dec_negative by exact Hneg. cbn [length].
    pose proof (dec_length (- z) 10 ltac:(lia) ltac:(lia)). lia.
  - pose proof (dec_length z 10 ltac:(lia) ltac:(lia)). lia.
Qed.

Lemma seed_string_full (base_seed puzzle attempts : Z) :
  INT_MIN <= puzzle <= INT_MAX ->
  INT_MIN <= attempts <= INT_MAX ->
  seed_string base_seed puzzle attempts
  = lit "test_" ++ dec (u32 (base_seed + u32 puzzle)) ++ lit "_"
      ++ dec puzzle ++ lit "_" ++ dec attempts.
Proof.
  intros Hp Ha. unfold seed_string. apply take_ge.
  rewrite !length_app.
  assert (Hu : INT_MIN <= u32 (base_seed + u32 puzzle) < 2 ^ 32).
  { pose proof (u32_range (base_seed + u32 puzzle)). unfold INT_MIN. lia. }
  pose proof (dec_length_int _ Hu).
  pose proof (dec_length_int puzzle ltac:(unfold INT_MAX in *; lia)).
  pose proof (dec_length_int attempts ltac:(unfold INT_MAX in *; lia)).
  change (length (lit "test_")) with 5%nat.
  change (length (lit "_")) with 1%nat. lia.
Qed.

Lemma seed_string_inj (b1 p1 k1 b2 p2 k2 : Z) :
  INT_MIN <= p1 <= INT_MAX -> INT_MIN <= k1 <= INT_MAX ->
  INT_MIN <= p2 <= INT_MAX -> INT_MIN <= k2 <= INT_MAX ->
  seed_string b1 p1 k1 = seed_string b2 p2 k2 ->
  u32 (b1 + u32 p1) = u32 (b2 + u32 p2) /\ p1 = p2 /\ k1 = k2.
Proof.
  intros Hp1 Hk1 Hp2 Hk2 Heq.
  rewrite !seed_string_full in Heq by assumption.
  apply app_inv_head in Heq.
  change (lit "_") with ["_"%char] in Heq. cbn [app] in Heq.
  apply split_at_first in Heq as [Hseed Heq]; try apply dec_no_underscore.
  apply split_at_first in Heq as [Hpuzzle Hattempt]; try apply dec_no_underscore.
  apply dec_inj in Hseed, Hpuzzle, Hattempt. auto.
Qed.

(** X15.  The seed string determines the seed number, the sample and the
    attempt: for [int] values of [puzzle] and [attempts] the 64-byte buffer
    never truncates what [snprintf] writes, and two seed strings are equal
    only if the [%u] values [base_seed + puzzle], the sample numbers and
    the attempt numbers are equal. *)
Theorem seed_string_injective (b1 p1 k1 b2 p2 k2 : Z) :
  INT_MIN <= p1 <= INT_MAX -> INT_MIN <= k1 <= INT_MAX ->
  INT_MIN <= p2 <= INT_MAX -> INT_MIN <= k2 <= INT_MAX ->
  (length (seed_string b1 p1 k1) <= 39)%nat /\
  (seed_string b1 p1 k1 = seed_string b2 p2 k2 ->
   u32 (b1 + u32 p1) = u32 (b2 + u32 p2) /\ p1 = p2 /\ k1 = k2).
Proof.
  intros Hp1 Hk1 Hp2 Hk2. split.
  - rewrite seed_string_full by assumption. rewrite !length_app.
    pose proof (u32_range (b1 + u32 p1)) as Hu.
    assert (Hpow : 10 ^ Z.of_nat 10 = 10000000000) by reflexivity.
    pose proof (dec_length (u32 (b1 + u32 p1)) 10 ltac:(lia) ltac:(lia)).
    pose proof (dec_length_int p1 ltac:(unfold INT_MAX in *; lia)).
    pose proof (dec_length_int k1 ltac:(unfold INT_MAX in *; lia)).
    change (length (lit "test_")) with 5%nat.
    change (length (lit "_")) with 1%nat. lia.
  - apply seed_string_inj; assumption.
Qed.

Lemma seed_string_injective_witness :
  (INT_MIN <= 4 <= INT_MAX /\ INT_MIN <= 25 <= INT_MAX /\
   INT_MIN <= 3 <= INT_MAX /\ INT_MIN <= 1 <= INT_MAX) /\
  (length (seed_string 4294967295 4 25) <= 39)%nat /\
  (seed_string 4294967295 4 25 = seed_string 0 3 1 ->
   u32 (4294967295 + u32 4) = u32 (0 + u32 3) /\ 4 = 3 /\ 25 = 1).
Proof.
  assert (H4 : INT_MIN <= 4 <= INT_MAX) by (unfold INT_MIN, INT_MAX; lia).
  assert (H25 : INT_MIN <= 25 <= INT_MAX) by (unfold INT_MIN, INT_MAX; lia).
  assert (H3 : INT_MIN <= 3 <= INT_MAX) by (unfold INT_MIN, INT_MAX; lia).
  assert (H1 : INT_MIN <= 1 <= INT_MAX) by (unfold INT_MIN, INT_MAX; lia).
  split; [auto|].
  exact (seed_string_injective 4294967295 4 25 0 3 1 H4 H25 H3 H1).
Defined.

Section SeedsOfARun.
Variable G : generator.
Variables size diff profile max_cage_size max_mul_cells : Z.
Variable base_seed : Z.

Local Abbreviation run :=
  (test_combination G size diff profile max_cage_size max_mul_cells base_seed).
Local Abbreviation sample_ok :=
  (sample_ok G size diff profile max_cage_size max_mul_cells base_seed).
Local Abbreviation event :=
  (event_of G size diff profile max_cage_size max_mul_cells base_seed).

Lemma events_of_run (samples : list sample) (ev : attempt_event) :
  Forall sample_ok samples ->
  ev ∈ run_events_of samples ->
  exists s k, s ∈ samples /\ 1 <= k <= MAX_ATTEMPTS /\ ev = event (sm_puzzle s) k.
Proof.
  intros Hall Hin. unfold run_events_of in Hin.
  apply list_elem_of_In, in_concat in Hin as (evs & Hevs & Hin).
  apply list_elem_of_In, list_elem_of_fmap in Hevs as (s & -> & Hs).
  apply list_elem_of_In in Hin.
  rewrite Forall_forall in Hall. specialize (Hall s Hs).
  destruct Hall as [Hev Hcase]. rewrite Hev in Hin.
  apply list_elem_of_fmap in Hin as (k & -> & Hk).
  apply elem_of_seqZ in Hk.
  exists s, k. split; [exact Hs|]. split; [|reflexivity].
  destruct Hcase as [(_ & Hatt & _)|(_ & Hatt & _)]; lia.
Qed.

Lemma sample_events_nodup (s : sample) : sample_ok s -> NoDup (sm_events s).
Proof.
  intros [Hev _]. rewrite Hev.
  apply (NoDup_fmap_1 ev_attempt). rewrite <- list_fmap_compose.
  rewrite (list_fmap_ext _ id) by reflexivity.
  rewrite list_fmap_id. apply NoDup_seqZ.
Qed.

Lemma run_events_nodup (samples : list sample) :
  NoDup (sm_puzzle <$> samples) ->
  Forall sample_ok samples ->
  NoDup (run_events_of samples).
Proof.
  induction samples as [|s samples IH]; intros Hnd Hall.
  - constructor.
  - rewrite fmap_cons in Hnd. apply NoDup_cons in Hnd as [Hfresh Hnd].
    apply Forall_cons in Hall as [Hs Hall].
    unfold run_events_of. rewrite fmap_cons. cbn [concat].
    apply NoDup_app. split; [apply sample_events_nodup; exact Hs|].
    split; [|apply IH; assumption].
    intros ev Hin1 Hin2. apply Hfresh.
    apply events_of_run in Hin2 as (s' & k' & Hs' & _ & ->); [|exact Hall].
    destruct Hs as [Hev _]. rewrite Hev in Hin1.
    apply list_elem_of_fmap in Hin1 as (k & Heq & _).
    apply (f_equal ev_puzzle) in Heq. cbn [ev_puzzle event_of] in Heq.
    rewrite <- Heq. apply list_elem_of_fmap_2. exact Hs'.
Qed.

(** X16.  Within one call of [test_combination] with an [int] puzzle
    count no seed string is used twice: the seeds of all attempts of all
    samples, in the order the run builds them, are pairwise different, so
    every retry asks the generator for a fresh random state. *)
Theorem run_seeds_distinct (extra : nat) (puzzles : Z) :
  puzzles <= INT_MAX ->
  exists result samples,
    run (Z.to_nat MAX_ATTEMPTS + extra) puzzles = Some (result, samples) /\
    NoDup (ev_seed <$> run_events_of samples).
Proof.
  intros Hint.
  destruct (test_combination_spec G size diff profile max_cage_size max_mul_cells
              base_seed extra puzzles)
    as (result & samples & Hrun & Hidx & _ & _ & Hall & _).
  exists result, samples. split; [exact Hrun|].
  assert (Hpuzzle : forall s, s ∈ samples -> 0 <= sm_puzzle s < puzzles).
  { intros s Hs. apply (list_elem_of_fmap_2 sm_puzzle) in Hs.
    rewrite Hidx in Hs. apply elem_of_seqZ in Hs. lia. }
  apply NoDup_fmap_2_strong.
  - intros ev1 ev2 Hin1 Hin2 Hseed.
    apply events_of_run in Hin1 as (s1 & k1 & Hs1 & Hk1 & ->); [|exact Hall].
    apply events_of_run in Hin2 as (s2 & k2 & Hs2 & Hk2 & ->); [|exact Hall].
    cbn [ev_seed event_of] in Hseed.
    apply Hpuzzle in Hs1, Hs2.
    apply seed_string_inj in Hseed as (_ & -> & ->);
      unfold INT_MIN, INT_MAX, MAX_ATTEMPTS in *; try lia.
    reflexivity.
  - apply run_events_nodup; [|exact Hall].
    rewrite Hidx. apply NoDup_seqZ.
Qed.

End SeedsOfARun.

Lemma run_seeds_distinct_witness :
  PUZZLES_PER_COMBO <= INT_MAX /\
  exists result samples,
    test_combination (constant_generator None) 9 3 0 CLASSIK_MAX_CAGE_SIZE 5 0
      (Z.to_nat MAX_ATTEMPTS + 0) PUZZLES_PER_COMBO = Some (result, samples) /\
    NoDup (ev_seed <$> run_events_of samples).
Proof.
  assert (Hint : PUZZLES_PER_COMBO <= INT_MAX)
    by (unfold PUZZLES_PER_COMBO, INT_MAX; lia).
  split; [exact Hint|].
  exact (run_seeds_distinct (constant_generator None) 9 3 0 CLASSIK_MAX_CAGE_SIZE 5 0
           0 PUZZLES_PER_COMBO Hint).
Defined.

(** ** The progress bar *)

Lemma fmap_const_replicate {A B : Type} (f : A -> B) (c : B) (l : list A) :
  Forall (fun i => f i = c) l -> f <$> l = replicate (length l) c.
Proof.
  induction 1 as [|i l Hi _ IH]; [reflexivity|].
  rewrite fmap_cons, Hi, IH. reflexivity.
Qed.

Lemma bar_cells (pos width : Z) :
  0 <= pos <= width ->
  bar_cell pos <$> seqZ 0 width
  = replicate (Z.to_nat pos) "="%char
    ++ (if pos <? width
        then ">"%char :: replicate (Z.to_nat (width - 1 - pos)) " "%char
        else []).
Proof.
  intros Hpos.
  assert (Hbefore : bar_cell pos <$> seqZ 0 pos = replicate (Z.to_nat pos) "="%char).
  { rewrite (fmap_const_replicate _ "="%char).
    - rewrite length_seqZ. reflexivity.
    - apply Forall_seqZ. intros i Hi. unfold bar_cell.
      destruct (Z.ltb_spec i pos); [reflexivity|lia]. }
  destruct (Z.ltb_spec pos width) as [Hlt|Hge].
  - replace width with (pos + (1 + (width - 1 - pos))) at 1 by lia.
    rewrite seqZ_app, fmap_app, Hbefore by lia. f_equal.
    rewrite seqZ_app, fmap_app by lia. rewrite Z.add_0_l.
    change (seqZ pos 1) with [pos]. cbn [fmap list_fmap app].
    f_equal.
    + unfold bar_cell. rewrite Z.ltb_irrefl, Z.eqb_refl. reflexivity.
    + rewrite (fmap_const_replicate _ " "%char).
      * rewrite length_seqZ. reflexivity.
      * apply Forall_seqZ. intros i Hi. unfold bar_cell.
        destruct (Z.ltb_spec i pos); [lia|].
        destruct (Z.eqb_spec i pos); [lia|reflexivity].
  - assert (width = pos) as -> by lia. rewrite Hbefore, app_nil_r. reflexivity.
Qed.

Lemma print_progress_eq (current total : Z) :
  0 <= current <= total -> 0 < total -> 50 * current <= INT_MAX ->
  0 <= 50 * current / total <= 50 /\
  print_progress current total =
    Some ([CR] ++ lit "[" ++ (bar_cell (50 * current / total) <$> seqZ 0 50)
            ++ lit "] " ++ dec current ++ lit "/" ++ dec total).
Proof.
  intros Hcur Htotal Hfit. unfold print_progress. cbv zeta.
  rewrite wrap32_int by (unfold INT_MIN, INT_MAX in *; lia).
  destruct (Z.eqb_spec total 0) as [|_]; [lia|]. cbn [orb].
  destruct (Z.eqb_spec total (-1)) as [|_]; [lia|]. rewrite andb_false_r.
  rewrite Z.quot_div_nonneg by lia.
  rewrite (Z.mul_comm current 50).
  split; [|reflexivity].
  split.
  - apply Z.div_pos; lia.
  - apply Z.div_le_upper_bound; lia.
Qed.

(** X17.  The progress bar.  For [0 <= current <= total], [total > 0] and
    [50 * current] an [int], [print_progress] writes a carriage return, a
    bar of exactly 50 cells and the counter [current/total]: the bar has
    [pos = 50 * current / total] cells [=], then, unless the run is
    complete, one [>] and blanks.  The bar is full exactly when
    [current = total]. *)
Theorem print_progress_bar (current total : Z) :
  0 <= current <= total -> 0 < total -> 50 * current <= INT_MAX ->
  exists pos bar,
    pos = 50 * current / total /\ 0 <= pos <= 50 /\
    (pos = 50 <-> current = total) /\
    bar = replicate (Z.to_nat pos) "="%char
          ++ (if pos <? 50
              then ">"%char :: replicate (Z.to_nat (49 - pos)) " "%char
              else []) /\
    length bar = 50%nat /\
    print_progress current total =
      Some ([CR] ++ lit "[" ++ bar ++ lit "] " ++ dec current ++ lit "/" ++ dec total).
Proof.
  intros Hcur Htotal Hfit.
  destruct (print_progress_eq current total Hcur Htotal Hfit) as [Hpos Hprint].
  eexists _, _. split; [reflexivity|]. split; [exact Hpos|].
  split; [|split; [reflexivity|split]].
  - split.
    + intros Hfull.
      destruct (Z.eq_dec current total) as [|Hne]; [assumption|exfalso].
      assert (50 * current / total < 50); [|lia].
      apply Z.div_lt_upper_bound; lia.
    + intros ->. symmetry. apply Z.div_unique with 0; lia.
  - rewrite length_app, length_replicate.
    destruct (Z.ltb_spec (50 * current / total) 50).
    + cbn [length]. rewrite length_replicate. lia.
    + cbn [length]. lia.
  - rewrite Hprint, (bar_cells _ 50) by exact Hpos. reflexivity.
Qed.

Lemma print_progress_bar_witness :
  (0 <= 13 <= 28 /\ 0 < 28 /\ 50 * 13 <= INT_MAX) /\
  exists pos bar,
    pos = 50 * 13 / 28 /\ 0 <= pos <= 50 /\
    (pos = 50 <-> 13 = 28) /\
    bar = replicate (Z.to_nat pos) "="%char
          ++ (if pos <? 50
              then ">"%char :: replicate (Z.to_nat (49 - pos)) " "%char
              else []) /\
    length bar = 50%nat /\
    print_progress 13 28 =
      Some ([CR] ++ lit "[" ++ bar ++ lit "] " ++ dec 13 ++ lit "/" ++ dec 28).
Proof.
  assert (Hcur : 0 <= 13 <= 28) by lia.
  assert (Htotal : 0 < 28) by lia.
  assert (Hfit : 50 * 13 <= INT_MAX) by (unfold INT_MAX; lia).
  split; [auto|].
  exact (print_progress_bar 13 28 Hcur Htotal Hfit).
Defined.

(** ** run_profile_tests *)

Lemma max_mul_cells_fuel (w : Z) (fuel : nat) :
  2 <= w <= INT_MAX -> (17 <= fuel)%nat ->
  exists k, max_mul_cells_for_size fuel w = Some k.
Proof.
  intros Hw Hfuel.
  assert (Hpow : MAX_CLUE_VALUE < w ^ (0 + Z.of_nat fuel)).
  { apply Z.lt_le_trans with (2 ^ 17); [reflexivity|].
    apply Z.le_trans with (2 ^ (0 + Z.of_nat fuel)).
    - apply Z.pow_le_mono_r; lia.
    - apply Z.pow_le_mono_l; lia. }
  destruct (max_mul_cells_loop_spec w Hw fuel 0 [1]
              ltac:(lia) ltac:(rewrite Z.pow_0_r; unfold MAX_CLUE_VALUE; lia) Hpow)
    as (k & Hrun & _).
  rewrite Z.pow_0_r in Hrun.
  exists k. unfold max_mul_cells_for_size, max_mul_cells_run.
  rewrite Hrun. reflexivity.
Qed.

Lemma combo_div_mod (s d n : Z) :
  0 <= d < n -> (s * n + d) / n = s /\ (s * n + d) mod n = d.
Proof.
  intros Hd. split.
  - rewrite Z.div_add_l, Z.div_small by lia. lia.
  - rewrite Z.add_comm, Z.mod_add, Z.mod_small by lia. reflexivity.
Qed.

Lemma failures_sum_snoc results r :
  failures_sum (results ++ [r]) = failures_sum results + tr_failures r.
Proof.
  unfold failures_sum. rewrite fmap_app.
  induction (tr_failures <$> results) as [|a l IH];
    cbn [foldr app fmap list_fmap] in *; lia.
Qed.

(** [" %6.6s"] cuts 'Extreme' to six characters and pads the shorter
    names on the left. *)
Example header_cell_names :
  header_cell <$> DIFF_NAMES
  = [lit "   Easy"; lit " Normal"; lit "   Hard"; lit " Extrem"].
Proof. reflexivity. Qed.

Lemma header_loop_names (diff_count : Z) :
  1 <= diff_count <= 4 ->
  header_loop (Z.to_nat diff_count) 0 []
  = Some (header_cell <$> take (Z.to_nat diff_count) DIFF_NAMES).
Proof.
  intros Hd.
  assert (Hcases : diff_count = 1 \/ diff_count = 2 \/ diff_count = 3 \/ diff_count = 4)
    by lia.
  destruct Hcases as [->|[->|[->| ->]]]; reflexivity.
Qed.

Section ProfileRunFacts.
Variable G : generator.
Variable extra : nat.
Variables profile min_size max_size diff_count max_cage_size : Z.
Variable enforce_mul_cap : bool.
Variable base_seed : Z.

Hypothesis Hsizes : 2 <= min_size <= max_size.
Hypothesis Hmax : max_size < INT_MAX.
Hypothesis Hdiffs : 1 <= diff_count <= 4.
Hypothesis Hfit : combos min_size max_size diff_count * 1000 <= INT_MAX.

Local Abbreviation fuel := (Z.to_nat MAX_ATTEMPTS + extra)%nat.
Local Abbreviation n := (combos min_size max_size diff_count).
Local Abbreviation body :=
  (combo_body G fuel profile min_size diff_count max_cage_size enforce_mul_cap base_seed).
Local Abbreviation dloop :=
  (diff_loop G fuel profile min_size diff_count max_cage_size enforce_mul_cap base_seed).
Local Abbreviation sloop :=
  (size_loop G fuel profile min_size diff_count max_cage_size enforce_mul_cap base_seed).
Local Abbreviation inv :=
  (profile_inv G fuel profile min_size max_size diff_count max_cage_size
     enforce_mul_cap base_seed).

Lemma combo_index_bounds (size diff : Z) :
  min_size <= size <= max_size -> 0 <= diff < diff_count ->
  0 <= (size - min_size) * diff_count + diff < n.
Proof. unfold combos. intros Hs Hd. nia. Qed.

Lemma combo_body_spec (size diff : Z) (st : profile_state) :
  min_size <= size <= max_size ->
  0 <= diff < diff_count ->
  inv ((size - min_size) * diff_count + diff) st ->
  exists st',
    body n size diff st = Some st' /\
    inv ((size - min_size) * diff_count + diff + 1) st'.
Proof.
  intros Hs Hd Hinv.
  pose proof (combo_index_bounds size diff Hs Hd) as Hc.
  set (c := (size - min_size) * diff_count + diff) in *.
  destruct (combo_div_mod (size - min_size) diff diff_count Hd) as [Hdiv Hmod].
  fold c in Hdiv, Hmod.
  unfold combo_body.
  assert (Hcur : wrap32 (wrap32 (wrap32 (size - min_size) * diff_count) + diff) = c).
  { unfold INT_MAX in *. subst c.
    rewrite (wrap32_int (size - min_size)) by (unfold INT_MIN, INT_MAX; nia).
    rewrite (wrap32_int ((size - min_size) * diff_count))
      by (unfold INT_MIN, INT_MAX; nia).
    apply wrap32_int. unfold INT_MIN, INT_MAX. lia. }
  rewrite Hcur.
  assert (Hmul : exists k,
    (if enforce_mul_cap then max_mul_cells_for_size fuel size
     else Some 0) = Some k /\
    (if enforce_mul_cap then max_mul_cells_for_size fuel size = Some k else k = 0)).
  { destruct enforce_mul_cap; [|exists 0; auto].
    destruct (max_mul_cells_fuel size fuel) as [k Hk];
      [lia|unfold MAX_ATTEMPTS; lia|].
    exists k. auto. }
  destruct Hmul as (k & -> & Hk).
  destruct (print_progress_eq c n) as [_ Hbar];
    [lia|lia|unfold INT_MAX in *; lia|].
  rewrite Hbar.
  assert (Hseed : u32 (base_seed + u32 (wrap32 (c * 1000))) = u32 (base_seed + 1000 * c)).
  { rewrite wrap32_int by (unfold INT_MIN, INT_MAX in *; lia).
    unfold u32 at 2. rewrite Z.mod_small by (unfold INT_MAX in *; lia).
    f_equal. lia. }
  rewrite Hseed.
  destruct (test_combination_spec G size diff profile max_cage_size k
              (u32 (base_seed + 1000 * c)) extra (puzzles_for_size size))
    as (result & samples & Hrun & Hidx & Hsucc & Hfail & Hall & Hsz & Hdf & Hpz).
  rewrite Hrun.
  destruct Hinv as (Hlen & Hcalls & Htests & Htotal & Hs0 & Hf0 & Hsum & Hres & Hcall).
  rewrite Hlen. destruct (Z.ltb_spec c n) as [_|]; [|lia].
  eexists. split; [reflexivity|].
  assert (Hcount : tr_successes result + tr_failures result = PUZZLES_PER_COMBO).
  { rewrite Hsucc, Hfail, count_samples_total.
    rewrite <- (length_fmap sm_puzzle), Hidx, length_seqZ.
    unfold puzzles_for_size, PUZZLES_PER_COMBO. lia. }
  assert (Hsn : 0 <= tr_successes result)
    by (rewrite Hsucc; unfold count_samples; lia).
  assert (Hfn : 0 <= tr_failures result)
    by (rewrite Hfail; unfold count_samples; lia).
  assert (Hnew : result_ok min_size diff_count c result).
  { unfold result_ok. rewrite Hdiv, Hmod, Hsz, Hdf, Hpz.
    unfold puzzles_for_size. repeat split; try assumption; lia. }
  unfold profile_inv.
  cbn [ps_results ps_calls ps_total_tests ps_total_successes ps_total_failures].
  unfold puzzles_for_size, PUZZLES_PER_COMBO in *.
  rewrite !length_app. cbn [length].
  rewrite !wrap32_int by (unfold INT_MIN, INT_MAX in *; lia).
  split; [lia|]. split; [lia|]. split; [lia|]. split; [lia|].
  split; [lia|]. split; [lia|].
  split; [rewrite failures_sum_snoc; lia|].
  split.
  - intros i r Hi.
    destruct (decide (i < length (ps_results st))%nat) as [Hlt|Hge].
    + rewrite lookup_app_l in Hi by exact Hlt. apply Hres. exact Hi.
    + rewrite lookup_app_r in Hi by lia.
      destruct (i - length (ps_results st))%nat as [|j] eqn:Hj; [|destruct j; discriminate].
      injection Hi as <-.
      replace (Z.of_nat i) with c by lia. exact Hnew.
  - intros i call r Hi Hr.
    destruct (decide (i < length (ps_results st))%nat) as [Hlt|Hge].
    + rewrite lookup_app_l in Hi by lia.
      rewrite lookup_app_l in Hr by exact Hlt.
      apply Hcall; assumption.
    + rewrite lookup_app_r in Hi by lia.
      rewrite lookup_app_r in Hr by lia.
      rewrite Hcalls in Hi.
      destruct (i - length (ps_results st))%nat as [|j] eqn:Hj; [|destruct j; discriminate].
      injection Hi as <-. injection Hr as <-.
      replace (Z.of_nat i) with c by lia.
      unfold call_ok. cbn [cc_size cc_diff cc_max_mul_cells cc_base_seed
                             cc_progress cc_samples].
      rewrite Hdiv, Hmod.
      split; [lia|]. split; [reflexivity|]. split; [reflexivity|].
      split; [exact Hk|]. split; [exact Hbar|].
      split; [exact Hidx|]. split; [exact Hall|]. split; assumption.
Qed.

Lemma diff_loop_spec (size : Z) (k : nat) : forall (diff : Z) (st : profile_state),
  min_size <= size <= max_size ->
  0 <= diff ->
  diff + Z.of_nat k = diff_count ->
  inv ((size - min_size) * diff_count + diff) st ->
  exists st',
    dloop n size k diff st = Some st' /\
    inv ((size + 1 - min_size) * diff_count) st'.
Proof.
  induction k as [|k IH]; intros diff st Hs Hd Hend Hinv; cbn [diff_loop].
  - exists st. split; [reflexivity|].
    replace ((size + 1 - min_size) * diff_count)
      with ((size - min_size) * diff_count + diff) by lia.
    exact Hinv.
  - destruct (combo_body_spec size diff st Hs ltac:(lia) Hinv) as (st1 & -> & Hinv1).
    apply IH; try lia.
    replace ((size - min_size) * diff_count + (diff + 1))
      with ((size - min_size) * diff_count + diff + 1) by lia.
    exact Hinv1.
Qed.

Lemma size_loop_spec (k : nat) : forall (size : Z) (st : profile_state),
  min_size <= size ->
  size + Z.of_nat k = max_size + 1 ->
  inv ((size - min_size) * diff_count) st ->
  exists st', sloop n k size st = Some st' /\ inv n st'.
Proof.
  induction k as [|k IH]; intros size st Hs Hend Hinv; cbn [size_loop].
  - exists st. split; [reflexivity|].
    replace n with ((size - min_size) * diff_count) by (unfold combos; nia).
    exact Hinv.
  - destruct (diff_loop_spec size (Z.to_nat diff_count) 0 st) as (st1 & -> & Hinv1);
      [lia|lia|lia|rewrite Z.add_0_r; exact Hinv|].
    destruct (Z.eqb_spec size INT_MAX); [lia|].
    apply IH; [lia|lia|exact Hinv1].
Qed.

Lemma detail_diff_loop_spec (results : list TestResult) (size : Z) (k : nat) :
  forall (d : Z) (acc : Z * list detail_row),
  min_size <= size <= max_size ->
  0 <= d ->
  d + Z.of_nat k = diff_count ->
  Z.of_nat (length results) = n ->
  (forall i r, results !! i = Some r -> result_ok min_size diff_count (Z.of_nat i) r) ->
  rows_inv results ((size - min_size) * diff_count + d) acc ->
  exists acc',
    detail_diff_loop results size k d acc = Some acc' /\
    rows_inv results ((size + 1 - min_size) * diff_count) acc'.
Proof.
  induction k as [|k IH]; intros d acc Hs Hd Hend Hlen Hres Hinv;
    cbn [detail_diff_loop].
  - exists acc. split; [reflexivity|].
    replace ((size + 1 - min_size) * diff_count)
      with ((size - min_size) * diff_count + d) by lia.
    exact Hinv.
  - pose proof (combo_index_bounds size d Hs ltac:(lia)) as Hc.
    destruct (combo_div_mod (size - min_size) d diff_count ltac:(lia)) as [Hdiv Hmod].
    set (c := (size - min_size) * diff_count + d) in *.
    destruct Hinv as [Hidx Hrows]. rewrite Hidx.
    destruct (lookup_lt_is_Some_2 results (Z.to_nat c) ltac:(lia)) as [r Hr].
    rewrite Hr.
    destruct (Hres _ _ Hr) as (Hsz & Hdf & _).
    rewrite Z2Nat.id in Hsz, Hdf by lia. rewrite Hdiv in Hsz. rewrite Hmod in Hdf.
    destruct (lookup_lt_is_Some_2 DIFF_NAMES (Z.to_nat d)
                ltac:(cbn [length DIFF_NAMES]; lia)) as [name Hname].
    rewrite Hname.
    apply IH; try lia; try assumption.
    unfold rows_inv. cbn [fst snd]. split; [lia|].
    replace (Z.to_nat ((size - min_size) * diff_count + (d + 1)))
      with (S (Z.to_nat c)) by lia.
    rewrite (take_S_r _ _ _ Hr), !fmap_app, Hrows. f_equal.
    cbn [fmap list_fmap]. unfold row_of. rewrite Hdf, Hname.
    repeat f_equal. lia.
Qed.

Lemma detail_size_loop_spec (results : list TestResult) (k : nat) :
  forall (size : Z) (acc : Z * list detail_row),
  min_size <= size ->
  size + Z.of_nat k = max_size + 1 ->
  Z.of_nat (length results) = n ->
  (forall i r, results !! i = Some r -> result_ok min_size diff_count (Z.of_nat i) r) ->
  rows_inv results ((size - min_size) * diff_count) acc ->
  exists acc',
    detail_size_loop diff_count results k size acc = Some acc' /\
    rows_inv results n acc'.
Proof.
  induction k as [|k IH]; intros size acc Hs Hend Hlen Hres Hinv;
    cbn [detail_size_loop].
  - exists acc. split; [reflexivity|].
    replace n with ((size - min_size) * diff_count) by (unfold combos; nia).
    exact Hinv.
  - destruct (detail_diff_loop_spec results size (Z.to_nat diff_count) 0 acc)
      as (acc1 & -> & Hinv1);
      [lia|lia|lia|exact Hlen|exact Hres|rewrite Z.add_0_r; exact Hinv|].
    destruct (Z.eqb_spec size INT_MAX); [lia|].
    apply IH; [lia|lia|exact Hlen|exact Hres|exact Hinv1].
Qed.

Lemma run_profile_tests_spec :
  exists report,
    run_profile_tests G fuel profile min_size max_size diff_count max_cage_size
      enforce_mul_cap base_seed = Some report /\
    report_ok G fuel profile min_size max_size diff_count max_cage_size
      enforce_mul_cap base_seed report.
Proof.
  unfold run_profile_tests.
  assert (Hn : 1 <= n) by (unfold combos; nia).
  assert (Hnum : wrap32 (wrap32 (wrap32 (max_size - min_size) + 1) * diff_count) = n).
  { unfold combos in *.
    rewrite (wrap32_int (max_size - min_size)) by (unfold INT_MIN, INT_MAX in *; nia).
    rewrite (wrap32_int (max_size - min_size + 1)) by (unfold INT_MIN, INT_MAX in *; nia).
    apply wrap32_int. unfold INT_MIN, INT_MAX in *. nia. }
  rewrite Hnum. destruct (Z.ltb_spec n 0) as [|_]; [lia|].
  destruct (size_loop_spec (Z.to_nat (max_size - min_size + 1)) min_size
              {| ps_results := []; ps_total_tests := 0; ps_total_successes := 0;
                 ps_total_failures := 0; ps_calls := [] |})
    as (st & -> & Hinv); [lia|lia| |].
  { rewrite Z.sub_diag, Z.mul_0_l. unfold profile_inv. cbn.
    unfold PUZZLES_PER_COMBO.
    do 7 (split; [reflexivity || lia|]).
    split.
    - intros ? ? Hnil. rewrite lookup_nil in Hnil. discriminate.
    - intros ? ? ? Hnil _. rewrite lookup_nil in Hnil. discriminate. }
  destruct (print_progress_eq n n) as [_ Hbar];
    [lia|lia|unfold INT_MAX in *; lia|].
  rewrite Hbar, header_loop_names by exact Hdiffs.
  destruct Hinv as (Hlen & Hcalls & Htests & Htotal & Hs0 & Hf0 & Hsum & Hres & Hcall).
  destruct (detail_size_loop_spec (ps_results st)
              (Z.to_nat (max_size - min_size + 1)) min_size (0, []))
    as ([idx rows] & -> & _ & Hrows); [lia|lia|exact Hlen|exact Hres| |].
  { rewrite Z.sub_diag, Z.mul_0_l. split; reflexivity. }
  eexists. split; [reflexivity|].
  unfold report_ok.
  cbn [pr_failures pr_total_tests pr_total_successes pr_results pr_calls
       pr_final_progress pr_header pr_rows pr_all_passed snd] in *.
  rewrite take_ge in Hrows by lia.
  auto 15.
Qed.

End ProfileRunFacts.

(** X18.  The totals of [run_profile_tests].  For sizes
    [2 <= min_size <= max_size < INT_MAX], 1 to 4 difficulties and a number
    of combinations [n] with [1000 * n <= INT_MAX], the run returns:
    [results] holds [n] entries in row-major order of (size, difficulty),
    each for [PUZZLES_PER_COMBO] puzzles; [total_tests] is
    [PUZZLES_PER_COMBO * n]; every puzzle is counted once as a success or as
    a failure; and the value returned is the sum of the entries' failures. *)
Theorem run_profile_tests_totals (G : generator) (extra : nat)
    (profile min_size max_size diff_count max_cage_size : Z)
    (enforce_mul_cap : bool) (base_seed : Z) :
  2 <= min_size <= max_size ->
  max_size < INT_MAX ->
  1 <= diff_count <= 4 ->
  combos min_size max_size diff_count * 1000 <= INT_MAX ->
  exists report,
    run_profile_tests G (Z.to_nat MAX_ATTEMPTS + extra) profile min_size max_size
      diff_count max_cage_size enforce_mul_cap base_seed = Some report /\
    Z.of_nat (length (pr_results report)) = combos min_size max_size diff_count /\
    pr_total_tests report = PUZZLES_PER_COMBO * combos min_size max_size diff_count /\
    pr_total_successes report + pr_failures report = pr_total_tests report /\
    0 <= pr_failures report <= pr_total_tests report /\
    pr_failures report = failures_sum (pr_results report) /\
    (forall i r, pr_results report !! i = Some r ->
                 result_ok min_size diff_count (Z.of_nat i) r).
Proof.
  intros Hsizes Hmax Hdiffs Hfit.
  destruct (run_profile_tests_spec G extra profile min_size max_size diff_count
              max_cage_size enforce_mul_cap base_seed Hsizes Hmax Hdiffs Hfit)
    as (report & Hrun & Hlen & _ & Htests & Htotal & Hs0 & Hf0 & Hsum & Hres & _).
  exists report. split; [exact Hrun|]. split; [exact Hlen|].
  split; [exact Htests|]. split; [lia|]. split; [lia|].
  split; [exact Hsum|exact Hres].
Qed.

Lemma run_profile_tests_totals_witness :
  (2 <= MIN_GRID_SIZE <= CLASSIK_MAX_GRID_SIZE /\
   CLASSIK_MAX_GRID_SIZE < INT_MAX /\
   1 <= CLASSIK_DIFFS <= 4 /\
   combos MIN_GRID_SIZE CLASSIK_MAX_GRID_SIZE CLASSIK_DIFFS * 1000 <= INT_MAX) /\
  exists report,
    run_profile_tests (constant_generator (Some good_desc))
      (Z.to_nat MAX_ATTEMPTS + 0) 0 MIN_GRID_SIZE CLASSIK_MAX_GRID_SIZE
      CLASSIK_DIFFS CLASSIK_MAX_CAGE_SIZE true 1700000000 = Some report /\
    Z.of_nat (length (pr_results report))
      = combos MIN_GRID_SIZE CLASSIK_MAX_GRID_SIZE CLASSIK_DIFFS /\
    pr_total_tests report
      = PUZZLES_PER_COMBO * combos MIN_GRID_SIZE CLASSIK_MAX_GRID_SIZE CLASSIK_DIFFS /\
    pr_total_successes report + pr_failures report = pr_total_tests report /\
    0 <= pr_failures report <= pr_total_tests report /\
    pr_failures report = failures_sum (pr_results report) /\
    (forall i r, pr_results report !! i = Some r ->
                 result_ok MIN_GRID_SIZE CLASSIK_DIFFS (Z.of_nat i) r).
Proof.
  assert (Hsizes : 2 <= MIN_GRID_SIZE <= CLASSIK_MAX_GRID_SIZE)
    by (unfold MIN_GRID_SIZE, CLASSIK_MAX_GRID_SIZE; lia).
  assert (Hmax : CLASSIK_MAX_GRID_SIZE < INT_MAX)
    by (unfold CLASSIK_MAX_GRID_SIZE, INT_MAX; lia).
  assert (Hdiffs : 1 <= CLASSIK_DIFFS <= 4) by (unfold CLASSIK_DIFFS; lia).
  assert (Hfit : combos MIN_GRID_SIZE CLASSIK_MAX_GRID_SIZE CLASSIK_DIFFS * 1000
                 <= INT_MAX)
    by (unfold combos, MIN_GRID_SIZE, CLASSIK_MAX_GRID_SIZE, CLASSIK_DIFFS, INT_MAX; lia).
  split; [auto|].
  exact (run_profile_tests_totals (constant_generator (Some good_desc)) 0 0
           MIN_GRID_SIZE CLASSIK_MAX_GRID_SIZE CLASSIK_DIFFS CLASSIK_MAX_CAGE_SIZE
           true 1700000000 Hsizes Hmax Hdiffs Hfit).
Defined.

(** X19.  With no combination to test ([max_size = min_size - 1], or
    [diff_count = 0]) [run_profile_tests] does not return: after the loops
    it calls [print_progress(num_combos, num_combos)] with [num_combos = 0],
    which divides by zero. *)
Theorem run_profile_tests_no_combination (G : generator) (fuel : nat)
    (profile min_size max_size diff_count max_cage_size : Z)
    (enforce_mul_cap : bool) (base_seed : Z) :
  max_size - min_size + 1 = 0 \/ diff_count = 0 ->
  run_profile_tests G fuel profile min_size max_size diff_count max_cage_size
    enforce_mul_cap base_seed = None.
Proof.
  intros Hempty. unfold run_profile_tests.
  assert (Hnum : wrap32 (wrap32 (wrap32 (max_size - min_size) + 1) * diff_count) = 0).
  { destruct Hempty as [Hsizes| ->].
    - replace (max_size - min_size) with (-1) by lia. reflexivity.
    - rewrite Z.mul_0_r. reflexivity. }
  rewrite Hnum. cbn [Z.ltb Z.compare].
  destruct (size_loop _ _ _ _ _ _ _ _ _ _ _ _); reflexivity.
Qed.

Lemma run_profile_tests_no_combination_witness :
  (CLASSIK_MAX_GRID_SIZE - MIN_GRID_SIZE + 1 = 0 \/ 0 = 0) /\
  run_profile_tests (constant_generator (Some good_desc)) 25 0 MIN_GRID_SIZE
    CLASSIK_MAX_GRID_SIZE 0 CLASSIK_MAX_CAGE_SIZE true 0 = None.
Proof.
  assert (Hempty : CLASSIK_MAX_GRID_SIZE - MIN_GRID_SIZE + 1 = 0 \/ 0 = 0)
    by (right; reflexivity).
  split; [exact Hempty|].
  exact (run_profile_tests_no_combination (constant_generator (Some good_desc)) 25 0
           MIN_GRID_SIZE CLASSIK_MAX_GRID_SIZE 0 CLASSIK_MAX_CAGE_SIZE true 0 Hempty).
Defined.

Lemma rows_pass_iff (results : list TestResult) : forall (rows : list detail_row),
  Forall (fun r => 0 <= tr_failures r /\
                   tr_successes r + tr_failures r = tr_puzzles r) results ->
  row_of <$> results = Some <$> rows ->
  0 <= failures_sum results /\
  (failures_sum results = 0 <-> Forall (fun row => dr_status row = PASS) rows).
Proof.
  unfold failures_sum.
  induction results as [|r results IH]; intros rows Hall Hrows.
  - destruct rows; [|discriminate]. cbn. split; [lia|]. split; [constructor|reflexivity].
  - destruct rows as [|row rows]; [discriminate|].
    rewrite !fmap_cons in Hrows. injection Hrows as Hrow Hrows.
    apply Forall_cons in Hall as [[Hf Hsum] Hall].
    destruct (IH rows Hall Hrows) as [Hnn Hiff].
    rewrite fmap_cons. cbn [foldr]. split; [lia|].
    assert (Hstatus : dr_status row = PASS <-> tr_failures r = 0).
    { unfold row_of in Hrow. destruct (DIFF_NAMES !! _); [|discriminate].
      injection Hrow as <-. cbn [dr_status]. unfold status_of.
      destruct (Z.eqb_spec (tr_successes r) (tr_puzzles r)).
      - split; [lia|reflexivity].
      - split; [destruct (_ >? _); discriminate|lia]. }
    rewrite Forall_cons, Hstatus, <- Hiff. lia.
Qed.

Lemma results_counts (min_size diff_count : Z) (results : list TestResult) :
  (forall i r, results !! i = Some r ->
               result_ok min_size diff_count (Z.of_nat i) r) ->
  Forall (fun r => 0 <= tr_failures r /\
                   tr_successes r + tr_failures r = tr_puzzles r) results.
Proof.
  intros Hres. apply Forall_lookup. intros i r Hr.
  destruct (Hres i r Hr) as (_ & _ & Hp & _ & Hf & Hsum). split; [exact Hf|lia].
Qed.

(** X20.  The detailed table agrees with the results it was printed from.
    For sizes [2 <= min_size <= max_size < INT_MAX], 1 to 4 difficulties
    and a number of combinations [n] with [1000 * n <= INT_MAX], the table
    has one row per entry of [results], in the same order; the row's size
    and difficulty name, taken from the loop counters, are those stored in
    the entry; and [All tests passed!] is printed exactly when every row's
    status is [PASS].  The header of the results matrix has one cell per
    difficulty, a blank and the name cut to six characters and
    right-justified in six, so the fourth difficulty reads [Extrem]. *)
Theorem detailed_table_rows (G : generator) (extra : nat)
    (profile min_size max_size diff_count max_cage_size : Z)
    (enforce_mul_cap : bool) (base_seed : Z) :
  2 <= min_size <= max_size ->
  max_size < INT_MAX ->
  1 <= diff_count <= 4 ->
  combos min_size max_size diff_count * 1000 <= INT_MAX ->
  exists report,
    run_profile_tests G (Z.to_nat MAX_ATTEMPTS + extra) profile min_size max_size
      diff_count max_cage_size enforce_mul_cap base_seed = Some report /\
    row_of <$> pr_results report = Some <$> pr_rows report /\
    pr_header report
    = take (Z.to_nat diff_count)
        [lit "   Easy"; lit " Normal"; lit "   Hard"; lit " Extrem"] /\
    (pr_all_passed report = true <->
     Forall (fun row => dr_status row = PASS) (pr_rows report)).
Proof.
  intros Hsizes Hmax Hdiffs Hfit.
  destruct (run_profile_tests_spec G extra profile min_size max_size diff_count
              max_cage_size enforce_mul_cap base_seed Hsizes Hmax Hdiffs Hfit)
    as (report & Hrun & _ & _ & _ & _ & _ & Hf0 & Hsum & Hres & _ & _ & Hhead
        & Hrows & Hpassed).
  exists report. split; [exact Hrun|]. split; [exact Hrows|].
  split; [rewrite Hhead, fmap_take; reflexivity|].
  destruct (rows_pass_iff _ _ (results_counts _ _ _ Hres) Hrows) as [_ Hiff].
  rewrite Hpassed, <- Hiff, <- Hsum, negb_true_iff. lia.
Qed.

Lemma detailed_table_rows_witness :
  (2 <= MIN_GRID_SIZE <= CLASSIK_MAX_GRID_SIZE /\
   CLASSIK_MAX_GRID_SIZE < INT_MAX /\
   1 <= CLASSIK_DIFFS <= 4 /\
   combos MIN_GRID_SIZE CLASSIK_MAX_GRID_SIZE CLASSIK_DIFFS * 1000 <= INT_MAX) /\
  exists report,
    run_profile_tests (constant_generator None)
      (Z.to_nat MAX_ATTEMPTS + 0) 0 MIN_GRID_SIZE CLASSIK_MAX_GRID_SIZE
      CLASSIK_DIFFS CLASSIK_MAX_CAGE_SIZE true 1700000000 = Some report /\
    row_of <$> pr_results report = Some <$> pr_rows report /\
    pr_header report
    = take (Z.to_nat CLASSIK_DIFFS)
        [lit "   Easy"; lit " Normal"; lit "   Hard"; lit " Extrem"] /\
    (pr_all_passed report = true <->
     Forall (fun row => dr_status row = PASS) (pr_rows report)).
Proof.
  assert (Hsizes : 2 <= MIN_GRID_SIZE <= CLASSIK_MAX_GRID_SIZE)
    by (unfold MIN_GRID_SIZE, CLASSIK_MAX_GRID_SIZE; lia).
  assert (Hmax : CLASSIK_MAX_GRID_SIZE < INT_MAX)
    by (unfold CLASSIK_MAX_GRID_SIZE, INT_MAX; lia).
  assert (Hdiffs : 1 <= CLASSIK_DIFFS <= 4) by (unfold CLASSIK_DIFFS; lia).
  assert (Hfit : combos MIN_GRID_SIZE CLASSIK_MAX_GRID_SIZE CLASSIK_DIFFS * 1000
                 <= INT_MAX)
    by (unfold combos, MIN_GRID_SIZE, CLASSIK_MAX_GRID_SIZE, CLASSIK_DIFFS, INT_MAX; lia).
  split; [auto|].
  exact (detailed_table_rows (constant_generator None) 0 0
           MIN_GRID_SIZE CLASSIK_MAX_GRID_SIZE CLASSIK_DIFFS CLASSIK_MAX_CAGE_SIZE
           true 1700000000 Hsizes Hmax Hdiffs Hfit).
Defined.

Lemma count_exhausted_zero (samples : list sample) :
  count_samples exhausted samples = 0 <->
  Forall (fun s => sm_success s = true) samples.
Proof.
  induction samples as [|s samples IH].
  - split; [constructor|reflexivity].
  - rewrite count_samples_cons, Forall_cons, <- IH.
    assert (0 <= count_samples exhausted samples) by (unfold count_samples; lia).
    unfold exhausted at 1. destruct (sm_success s); cbn [negb]; split.
    + intros Hz. split; [reflexivity|lia].
    + intros [_ Hz]. lia.
    + lia.
    + intros [Hs _]. discriminate.
Qed.

Lemma failures_sum_zero (results : list TestResult) :
  Forall (fun r => 0 <= tr_failures r) results ->
  0 <= failures_sum results /\
  (failures_sum results = 0 <-> Forall (fun r => tr_failures r = 0) results).
Proof.
  unfold failures_sum. induction 1 as [|r results Hr _ [IH0 IH]].
  - cbn. split; [lia|]. split; [constructor|reflexivity].
  - rewrite fmap_cons. cbn [foldr]. split; [lia|].
    rewrite Forall_cons, <- IH. lia.
Qed.

(** X21.  The exit status of [main].  For every generator and every clock
    reading the Classik run (sizes 3 to 9, four difficulties) completes its
    28 calls of [test_combination], 140 puzzles in all, and [main] returns 0
    when every sample of every call ended in success and 1 otherwise; no
    other status is returned. *)
Theorem main_exit_status (G : generator) (extra : nat) (profile now : Z) :
  exists report code,
    run_all_tests G (Z.to_nat MAX_ATTEMPTS + extra) profile now
      = Some (pr_failures report, report) /\
    main G (Z.to_nat MAX_ATTEMPTS + extra) profile now = Some code /\
    length (pr_calls report) = 28%nat /\
    pr_total_tests report = 140 /\
    (code = 0 \/ code = 1) /\
    (code = 0 <->
     Forall (fun call => Forall (fun s => sm_success s = true) (cc_samples call))
            (pr_calls report)).
Proof.
  assert (Hsizes : 2 <= MIN_GRID_SIZE <= CLASSIK_MAX_GRID_SIZE)
    by (unfold MIN_GRID_SIZE, CLASSIK_MAX_GRID_SIZE; lia).
  assert (Hmax : CLASSIK_MAX_GRID_SIZE < INT_MAX)
    by (unfold CLASSIK_MAX_GRID_SIZE, INT_MAX; lia).
  assert (Hdiffs : 1 <= CLASSIK_DIFFS <= 4) by (unfold CLASSIK_DIFFS; lia).
  assert (Hn : combos MIN_GRID_SIZE CLASSIK_MAX_GRID_SIZE CLASSIK_DIFFS = 28)
    by reflexivity.
  assert (Hfit : combos MIN_GRID_SIZE CLASSIK_MAX_GRID_SIZE CLASSIK_DIFFS * 1000
                 <= INT_MAX) by (rewrite Hn; unfold INT_MAX; lia).
  destruct (run_profile_tests_spec G extra profile MIN_GRID_SIZE
              CLASSIK_MAX_GRID_SIZE CLASSIK_DIFFS CLASSIK_MAX_CAGE_SIZE true (u32 now)
              Hsizes Hmax Hdiffs Hfit)
    as (report & Hrun & Hlen & Hcalls & Htests & Htotal & Hs0 & Hf0 & Hsum & Hres
        & Hcall & _).
  rewrite Hn in *. unfold PUZZLES_PER_COMBO in *.
  assert (Hwrap : wrap32 (0 + pr_failures report) = pr_failures report)
    by (apply wrap32_int; unfold INT_MIN, INT_MAX; lia).
  exists report, (if pr_failures report >? 0 then 1 else 0).
  unfold main, run_all_tests. rewrite Hrun, Hwrap.
  split; [reflexivity|]. split; [reflexivity|]. split; [lia|]. split; [lia|].
  split; [destruct (_ >? _); auto|].
  assert (Hzero : (if pr_failures report >? 0 then 1 else 0) = 0
                  <-> pr_failures report = 0).
  { destruct (Z.gtb_spec (pr_failures report) 0); lia. }
  rewrite Hzero, Hsum.
  assert (Hnn : Forall (fun r => 0 <= tr_failures r) (pr_results report)).
  { apply Forall_lookup. intros i r Hr.
    destruct (Hres i r Hr) as (_ & _ & _ & _ & Hf & _). exact Hf. }
  destruct (failures_sum_zero _ Hnn) as [_ ->].
  rewrite !Forall_lookup. split.
  - intros Hall i call Hi.
    destruct (lookup_lt_is_Some_2 (pr_results report) i) as [r Hr].
    { rewrite <- Hcalls. apply lookup_lt_Some in Hi. exact Hi. }
    destruct (Hcall i call r Hi Hr) as (_ & _ & _ & _ & _ & _ & _ & _ & Hfail).
    apply count_exhausted_zero. rewrite <- Hfail. apply (Hall i r Hr).
  - intros Hall i r Hr.
    destruct (lookup_lt_is_Some_2 (pr_calls report) i) as [call Hi].
    { rewrite Hcalls. apply lookup_lt_Some in Hr. exact Hr. }
    destruct (Hcall i call r Hi Hr) as (_ & _ & _ & _ & _ & _ & _ & _ & Hfail).
    rewrite Hfail. apply count_exhausted_zero. apply (Hall i call Hi).
Qed.

Lemma mod_eq_close (a b m : Z) :
  0 < m -> a mod m = b mod m -> - m < a - b < m -> a = b.
Proof.
  intros Hm Heq Hclose.
  pose proof (Z.div_mod a m ltac:(lia)) as Ha.
  pose proof (Z.div_mod b m ltac:(lia)) as Hb.
  rewrite Heq in Ha.
  generalize dependent (a / m). generalize dependent (b / m).
  generalize dependent (b mod m). intros r _ qb Hb qa Ha.
  assert (Hq : qa = qb); [|subst; reflexivity].
  destruct (Z.lt_trichotomy qa qb) as [Hlt|[Heq|Hgt]]; [exfalso|exact Heq|exfalso].
  - assert (m * qa + m <= m * qb) by nia. lia.
  - assert (m * qb + m <= m * qa) by nia. lia.
Qed.

Lemma u32_add_l (x y : Z) : u32 (u32 x + y) = u32 (x + y).
Proof. unfold u32. apply Zplus_mod_idemp_l. Qed.

(** X22.  No seed string is used twice in a whole run of
    [run_profile_tests]: for sizes [2 <= min_size <= max_size < INT_MAX],
    1 to 4 difficulties and a number of combinations [n] with
    [1000 * n <= INT_MAX], two attempts with the same seed string belong to
    the same call of [test_combination] and are the same attempt.  (The calls' base seeds are 1000 apart and each call
    adds a sample number below 1000.) *)
Theorem run_profile_seeds_distinct (G : generator) (extra : nat)
    (profile min_size max_size diff_count max_cage_size : Z)
    (enforce_mul_cap : bool) (base_seed : Z) :
  2 <= min_size <= max_size ->
  max_size < INT_MAX ->
  1 <= diff_count <= 4 ->
  combos min_size max_size diff_count * 1000 <= INT_MAX ->
  exists report,
    run_profile_tests G (Z.to_nat MAX_ATTEMPTS + extra) profile min_size max_size
      diff_count max_cage_size enforce_mul_cap base_seed = Some report /\
    forall (i j : nat) (ci cj : combo_call) (ev1 ev2 : attempt_event),
      pr_calls report !! i = Some ci ->
      pr_calls report !! j = Some cj ->
      ev1 ∈ run_events_of (cc_samples ci) ->
      ev2 ∈ run_events_of (cc_samples cj) ->
      ev_seed ev1 = ev_seed ev2 ->
      i = j /\ ev1 = ev2.
Proof.
  intros Hsizes Hmax Hdiffs Hfit.
  destruct (run_profile_tests_spec G extra profile min_size max_size diff_count
              max_cage_size enforce_mul_cap base_seed Hsizes Hmax Hdiffs Hfit)
    as (report & Hrun & Hlen & Hcalls & _ & _ & _ & _ & _ & _ & Hcall & _).
  exists report. split; [exact Hrun|].
  intros i j ci cj ev1 ev2 Hi Hj Hin1 Hin2 Hseed.
  destruct (lookup_lt_is_Some_2 (pr_results report) i) as [ri Hri].
  { rewrite <- Hcalls. apply lookup_lt_Some in Hi. exact Hi. }
  destruct (lookup_lt_is_Some_2 (pr_results report) j) as [rj Hrj].
  { rewrite <- Hcalls. apply lookup_lt_Some in Hj. exact Hj. }
  pose proof (lookup_lt_Some _ _ _ Hri) as Hilt.
  pose proof (lookup_lt_Some _ _ _ Hrj) as Hjlt.
  destruct (Hcall i ci ri Hi Hri) as (_ & _ & Hbi & _ & _ & Hidx1 & Hall1 & _).
  destruct (Hcall j cj rj Hj Hrj) as (_ & _ & Hbj & _ & _ & Hidx2 & Hall2 & _).
  destruct (events_of_run _ _ _ _ _ _ _ _ _ Hall1 Hin1) as (s1 & k1 & Hs1 & Hk1 & ->).
  destruct (events_of_run _ _ _ _ _ _ _ _ _ Hall2 Hin2) as (s2 & k2 & Hs2 & Hk2 & ->).
  apply (list_elem_of_fmap_2 sm_puzzle) in Hs1, Hs2.
  rewrite Hidx1 in Hs1. rewrite Hidx2 in Hs2.
  apply elem_of_seqZ in Hs1, Hs2.
  unfold PUZZLES_PER_COMBO, MAX_ATTEMPTS in *.
  cbn [ev_seed event_of] in Hseed.
  apply seed_string_inj in Hseed as (Hbase & Hp & Hk);
    [|unfold INT_MIN, INT_MAX; lia..].
  assert (Hij : i = j).
  { rewrite Hbi, Hbj, <- Hp, !u32_add_l in Hbase.
    unfold u32 in Hbase.
    apply mod_eq_close in Hbase; unfold INT_MAX in *; lia. }
  subst j. rewrite Hi in Hj. injection Hj as <-.
  split; [reflexivity|]. rewrite Hp, Hk. reflexivity.
Qed.

Lemma run_profile_seeds_distinct_witness :
  (2 <= MIN_GRID_SIZE <= CLASSIK_MAX_GRID_SIZE /\
   CLASSIK_MAX_GRID_SIZE < INT_MAX /\
   1 <= CLASSIK_DIFFS <= 4 /\
   combos MIN_GRID_SIZE CLASSIK_MAX_GRID_SIZE CLASSIK_DIFFS * 1000 <= INT_MAX) /\
  exists report,
    run_profile_tests (constant_generator (Some swapped_desc))
      (Z.to_nat MAX_ATTEMPTS + 0) 0 MIN_GRID_SIZE CLASSIK_MAX_GRID_SIZE
      CLASSIK_DIFFS CLASSIK_MAX_CAGE_SIZE true 4294967000 = Some report /\
    forall (i j : nat) (ci cj : combo_call) (ev1 ev2 : attempt_event),
      pr_calls report !! i = Some ci ->
      pr_calls report !! j = Some cj ->
      ev1 ∈ run_events_of (cc_samples ci) ->
      ev2 ∈ run_events_of (cc_samples cj) ->
      ev_seed ev1 = ev_seed ev2 ->
      i = j /\ ev1 = ev2.
Proof.
  assert (Hsizes : 2 <= MIN_GRID_SIZE <= CLASSIK_MAX_GRID_SIZE)
    by (unfold MIN_GRID_SIZE, CLASSIK_MAX_GRID_SIZE; lia).
  assert (Hmax : CLASSIK_MAX_GRID_SIZE < INT_MAX)
    by (unfold CLASSIK_MAX_GRID_SIZE, INT_MAX; lia).
  assert (Hdiffs : 1 <= CLASSIK_DIFFS <= 4) by (unfold CLASSIK_DIFFS; lia).
  assert (Hfit : combos MIN_GRID_SIZE CLASSIK_MAX_GRID_SIZE CLASSIK_DIFFS * 1000
                 <= INT_MAX)
    by (unfold combos, MIN_GRID_SIZE, CLASSIK_MAX_GRID_SIZE, CLASSIK_DIFFS, INT_MAX; lia).
  split; [auto|].
  exact (run_profile_seeds_distinct (constant_generator (Some swapped_desc)) 0 0
           MIN_GRID_SIZE CLASSIK_MAX_GRID_SIZE CLASSIK_DIFFS CLASSIK_MAX_CAGE_SIZE
           true 4294967000 Hsizes Hmax Hdiffs Hfit).
Defined.

(** * Properties of the max-flow test driver *)

Section DriverFacts.
Import MaxflowTest.
Variable sv : solver.
Variable malloc_ok : Z -> bool.

Lemma Return_ok : test_ok 0 0 (Return 1).
Proof.
  intros c Hc Hsmall. exists c, 1. unfold Return.
  split; [reflexivity|]. split; [auto|]. lia.
Qed.

Lemma TEST_ASSERT_ok (cond : bool) (rest : test) (lo hi : Z) :
  0 <= lo <= hi -> hi <= 10 ->
  test_ok lo hi rest -> test_ok 1 (hi + 1) (TEST_ASSERT cond rest).
Proof.
  intros Hlo Hhi Hrest c Hc Hsmall. unfold TEST_ASSERT.
  cbn [tests_run tests_passed].
  rewrite !wrap32_int by (unfold INT_MIN, INT_MAX; lia).
  destruct cond; cbn [negb].
  - destruct (Hrest {| tests_run := tests_run c + 1;
                       tests_passed := tests_passed c + 1 |})
      as (c' & v & Hrun & Hv & Hp & Hr & Hd); cbn [tests_run tests_passed] in *;
      [lia|lia|].
    exists c', v. split; [exact Hrun|]. split; [exact Hv|]. lia.
  - eexists _, 0. split; [reflexivity|]. split; [auto|].
    cbn [tests_run tests_passed]. lia.
Qed.

Lemma solve_ok (nv source sink ne : Z) (edges capacity flow : list Z)
    (rest : Z -> list Z -> test) (lo hi : Z) :
  is_Some (maxflow_with_scratch sv nv source sink ne edges
             (maxflow_setup_backedges sv ne edges) capacity flow) ->
  (forall result flow', test_ok lo hi (rest result flow')) ->
  test_ok lo hi (solve sv nv source sink ne edges capacity flow rest).
Proof.
  intros [[result flow'] Hsolve] Hrest c Hc Hsmall. unfold solve.
  rewrite Hsolve. apply Hrest; assumption.
Qed.

Lemma skipped_ok : test_ok 1 1 skipped.
Proof.
  intros c Hc Hsmall. unfold skipped. eexists _, 1.
  split; [reflexivity|]. split; [auto|].
  cbn [tests_run tests_passed].
  rewrite !wrap32_int by (unfold INT_MIN, INT_MAX; lia). lia.
Qed.

Lemma skipped_value (c : counters) : exists c', skipped c = Some (c', 1).
Proof. eexists. reflexivity. Qed.

Hypothesis Hreturns : Forall (solver_returns sv) test_graphs.

Ltac graph k :=
  let H := fresh "H" in
  pose proof (proj1 (Forall_lookup _ _) Hreturns k _ eq_refl) as H; exact H.

Lemma test_simple_two_nodes_ok : test_ok 1 3 (test_simple_two_nodes sv malloc_ok).
Proof.
  apply (TEST_ASSERT_ok _ _ 1 2); [lia|lia|].
  apply solve_ok; [graph 0%nat|]. intros result flow.
  apply (TEST_ASSERT_ok _ _ 1 1); [lia|lia|].
  apply (TEST_ASSERT_ok _ _ 0 0); [lia|lia|]. apply Return_ok.
Qed.

Lemma test_parallel_paths_ok : test_ok 1 2 (test_parallel_paths sv malloc_ok).
Proof.
  apply (TEST_ASSERT_ok _ _ 1 1); [lia|lia|].
  apply solve_ok; [graph 1%nat|]. intros result flow.
  apply (TEST_ASSERT_ok _ _ 0 0); [lia|lia|]. apply Return_ok.
Qed.

Lemma test_no_path_ok : test_ok 1 2 (test_no_path sv malloc_ok).
Proof.
  apply (TEST_ASSERT_ok _ _ 1 1); [lia|lia|].
  apply solve_ok; [graph 2%nat|]. intros result flow.
  apply (TEST_ASSERT_ok _ _ 0 0); [lia|lia|]. apply Return_ok.
Qed.

Lemma test_bottleneck_ok : test_ok 1 3 (test_bottleneck sv malloc_ok).
Proof.
  apply (TEST_ASSERT_ok _ _ 1 2); [lia|lia|].
  apply solve_ok; [graph 3%nat|]. intros result flow.
  apply (TEST_ASSERT_ok _ _ 1 1); [lia|lia|].
  apply (TEST_ASSERT_ok _ _ 0 0); [lia|lia|]. apply Return_ok.
Qed.

Lemma test_diamond_ok : test_ok 1 2 (test_diamond sv malloc_ok).
Proof.
  apply (TEST_ASSERT_ok _ _ 1 1); [lia|lia|].
  apply solve_ok; [graph 4%nat|]. intros result flow.
  apply (TEST_ASSERT_ok _ _ 0 0); [lia|lia|]. apply Return_ok.
Qed.

Lemma test_zero_capacity_ok : test_ok 1 2 (test_zero_capacity sv malloc_ok).
Proof.
  apply (TEST_ASSERT_ok _ _ 1 1); [lia|lia|].
  apply solve_ok; [graph 5%nat|]. intros result flow.
  apply (TEST_ASSERT_ok _ _ 0 0); [lia|lia|]. apply Return_ok.
Qed.

Lemma test_linear_chain_ok : test_ok 1 2 (test_linear_chain sv malloc_ok).
Proof.
  apply (TEST_ASSERT_ok _ _ 1 1); [lia|lia|].
  apply solve_ok; [graph 6%nat|]. intros result flow.
  apply (TEST_ASSERT_ok _ _ 0 0); [lia|lia|]. apply Return_ok.
Qed.

Lemma maxflow_main_spec :
  exists code c verdicts,
    main sv malloc_ok = Some (code, c, verdicts) /\
    length verdicts = 9%nat /\
    9 <= tests_run c <= 18 /\
    0 <= tests_passed c /\
    tests_run c - tests_passed c = failed_count verdicts /\
    (code = 0 \/ code = 1) /\
    (code = 0 <-> Forall (fun b => b = true) verdicts) /\
    verdicts !! 6%nat = Some true /\
    verdicts !! 8%nat = Some true.
Proof.
  unfold main, tests. cbn [foldl RUN_TEST].
  destruct (test_simple_two_nodes_ok {| tests_run := 0; tests_passed := 0 |})
    as (c1 & v1 & Hrun1 & Hv1 & Hp1 & Hr1 & Hd1); cbn [tests_run tests_passed] in *;
    [lia|lia|].
  rewrite Hrun1. cbn [RUN_TEST app].
  destruct (test_parallel_paths_ok c1) as (c2 & v2 & Hrun2 & Hv2 & Hp2 & Hr2 & Hd2);
    [lia|lia|].
  rewrite Hrun2. cbn [RUN_TEST app].
  destruct (test_no_path_ok c2) as (c3 & v3 & Hrun3 & Hv3 & Hp3 & Hr3 & Hd3);
    [lia|lia|].
  rewrite Hrun3. cbn [RUN_TEST app].
  destruct (test_bottleneck_ok c3) as (c4 & v4 & Hrun4 & Hv4 & Hp4 & Hr4 & Hd4);
    [lia|lia|].
  rewrite Hrun4. cbn [RUN_TEST app].
  destruct (test_diamond_ok c4) as (c5 & v5 & Hrun5 & Hv5 & Hp5 & Hr5 & Hd5);
    [lia|lia|].
  rewrite Hrun5. cbn [RUN_TEST app].
  destruct (test_zero_capacity_ok c5) as (c6 & v6 & Hrun6 & Hv6 & Hp6 & Hr6 & Hd6);
    [lia|lia|].
  rewrite Hrun6. cbn [RUN_TEST app].
  unfold test_single_node, test_negative_capacity.
  destruct (skipped_ok c6) as (c7 & v7 & Hrun7 & _ & Hp7 & Hr7 & Hd7); [lia|lia|].
  destruct (skipped_value c6) as (c7' & Hval7).
  rewrite Hval7 in Hrun7. injection Hrun7 as <- <-. rewrite Hval7. cbn [RUN_TEST app].
  destruct (test_linear_chain_ok c7') as (c8 & v8 & Hrun8 & Hv8 & Hp8 & Hr8 & Hd8);
    [lia|lia|].
  rewrite Hrun8. cbn [RUN_TEST app].
  destruct (skipped_ok c8) as (c9 & v9 & Hrun9 & _ & Hp9 & Hr9 & Hd9); [lia|lia|].
  destruct (skipped_value c8) as (c9' & Hval9).
  rewrite Hval9 in Hrun9. injection Hrun9 as <- <-. rewrite Hval9. cbn [RUN_TEST app].
  eexists _, c9', _. split; [reflexivity|].
  split; [reflexivity|]. split; [lia|]. split; [lia|].
  assert (Hcount : failed_count
            [negb (v1 =? 0); negb (v2 =? 0); negb (v3 =? 0); negb (v4 =? 0);
             negb (v5 =? 0); negb (v6 =? 0); negb (1 =? 0); negb (v8 =? 0);
             negb (1 =? 0)]
          = (1 - v1) + (1 - v2) + (1 - v3) + (1 - v4) + (1 - v5) + (1 - v6) + (1 - v8)).
  { destruct Hv1 as [-> | ->], Hv2 as [-> | ->], Hv3 as [-> | ->], Hv4 as [-> | ->],
      Hv5 as [-> | ->], Hv6 as [-> | ->], Hv8 as [-> | ->]; reflexivity. }
  split; [rewrite Hcount; lia|].
  split; [destruct (tests_passed c9' =? tests_run c9'); auto|].
  split; [|split; reflexivity].
  assert (Hall : Forall (fun b => b = true)
            [negb (v1 =? 0); negb (v2 =? 0); negb (v3 =? 0); negb (v4 =? 0);
             negb (v5 =? 0); negb (v6 =? 0); negb (1 =? 0); negb (v8 =? 0);
             negb (1 =? 0)]
          <-> (1 - v1) + (1 - v2) + (1 - v3) + (1 - v4) + (1 - v5) + (1 - v6) + (1 - v8) = 0).
  { rewrite !Forall_cons.
    destruct Hv1 as [-> | ->], Hv2 as [-> | ->], Hv3 as [-> | ->], Hv4 as [-> | ->],
      Hv5 as [-> | ->], Hv6 as [-> | ->], Hv8 as [-> | ->]; cbn;
      split; intros Hx; try lia; try (repeat split; auto; constructor);
      destruct Hx as (? & ? & ? & ? & ? & ? & ? & ? & ? & ?); discriminate. }
  rewrite Hall.
  destruct (Z.eqb_spec (tests_passed c9') (tests_run c9')); split; lia.
Qed.

End DriverFacts.

(** X23.  The exit status of the max-flow test driver.  For every solver
    that returns on the graphs of the seven tests that call it, and whatever
    [malloc] does, [main] runs all nine tests: a test that fails stops at
    its first failed assertion and the others still run; between 9 and 18
    assertions are counted; [tests_run - tests_passed] is the number of
    [FAIL] verdicts; the exit status is 0 exactly when every verdict is
    [PASS]; and the two skipped tests are reported as [PASS] whatever the
    solver does. *)
Theorem maxflow_tests_exit_status (sv : MaxflowTest.solver) (malloc_ok : Z -> bool) :
  Forall (solver_returns sv) test_graphs ->
  exists code c verdicts,
    MaxflowTest.main sv malloc_ok = Some (code, c, verdicts) /\
    length verdicts = 9%nat /\
    9 <= MaxflowTest.tests_run c <= 18 /\
    0 <= MaxflowTest.tests_passed c /\
    MaxflowTest.tests_run c - MaxflowTest.tests_passed c = failed_count verdicts /\
    (code = 0 \/ code = 1) /\
    (code = 0 <-> Forall (fun b => b = true) verdicts) /\
    verdicts !! 6%nat = Some true /\
    verdicts !! 8%nat = Some true.
Proof. apply maxflow_main_spec. Qed.

Lemma maxflow_tests_exit_status_witness :
  Forall (solver_returns model_solver) test_graphs /\
  exists code c verdicts,
    MaxflowTest.main model_solver (fun _ => true) = Some (code, c, verdicts) /\
    length verdicts = 9%nat /\
    9 <= MaxflowTest.tests_run c <= 18 /\
    0 <= MaxflowTest.tests_passed c /\
    MaxflowTest.tests_run c - MaxflowTest.tests_passed c = failed_count verdicts /\
    (code = 0 \/ code = 1) /\
    (code = 0 <-> Forall (fun b => b = true) verdicts) /\
    verdicts !! 6%nat = Some true /\
    verdicts !! 8%nat = Some true.
Proof.
  assert (Hreturns : Forall (solver_returns model_solver) test_graphs).
  { repeat constructor; vm_compute; eexists; reflexivity. }
  split; [exact Hreturns|].
  exact (maxflow_tests_exit_status model_solver (fun _ => true) Hreturns).
Defined.

(** * The validation pipeline on well-formed descriptors *)

Lemma clue_values_within_cap_field (field clues : cstring) :
  (SEMI ∉ field) -> clue_field clues ->
  clue_values_within_cap (field ++ SEMI :: clues) = true.
Proof.
  intros Hfield Hclues. unfold clue_values_within_cap, clue_values_verdict.
  rewrite strchr_semi_split by exact Hfield.
  rewrite (clue_field_pass _ Hclues). reflexivity.
Qed.

Lemma render_entries_clue_field (init : list (ascii * cstring)) (last : ascii * cstring) :
  Forall field_entry (init ++ [last]) ->
  clue_field (render_entries init ++ last.1 :: last.2).
Proof.
  induction init as [|e init IH]; intros Hall.
  - apply Forall_cons in Hall as [[Hop Hlen] _].
    apply clue_field_last; assumption.
  - cbn [app] in Hall. apply Forall_cons in Hall as [[Hop Hlen] Hall].
    unfold render_entries. cbn [flat_map app].
    rewrite <- !app_assoc. cbn [app].
    apply clue_field_more; [exact Hop|exact Hlen|].
    apply IH. exact Hall.
Qed.

Lemma cage_sizes_flag_iff (roots : list Z) (a max_size : Z) :
  length roots = Z.to_nat a -> 0 <= a ->
  in_range a roots ->
  ((cage_sizes_within_limit roots a max_size).1 = true <->
   forall r, cage_size roots r <= max_size).
Proof.
  intros Hlen Ha Hrange. split.
  - apply cage_sizes_flag_sound; assumption.
  - intros Hall.
    destruct (cage_sizes_counts roots a max_size ltac:(lia) Hrange)
      as (counts & Heq & (_ & _ & _ & Hwit)).
    rewrite Heq. cbn [fst snd] in *. apply Z.leb_le.
    destruct Hwit as [[-> ->]|(r & _ & <-)].
    + apply (Hall 0).
    + apply Hall.
Qed.

(** X24.  The validation pipeline on a descriptor in the generator's
    format.  For a grid of width [1 <= w <= 46340], take a root array of
    [w*w] cell indices printed in decimal and joined by commas, a [';'], and
    one clue entry (a letter and five digits) per cell that is its own root,
    joined by commas.  [test_combination] counts such a descriptor as a
    success exactly when, if the cage cap is enabled, no cage has more
    cells than [max_cage_size], and, if the multiplication cap is enabled,
    no cage whose entry has operator ['m'] has more than [max_mul_cells]. *)
Theorem descriptor_accepted_iff_within_caps (w : Z) (roots : list Z)
    (init : list (ascii * cstring)) (last : ascii * cstring)
    (max_cage_size max_mul_cells : Z) :
  1 <= w <= 46340 ->
  length roots = Z.to_nat (w * w) ->
  in_range (w * w) roots ->
  Forall field_entry (init ++ [last]) ->
  Forall digit_entry (init ++ [last]) ->
  length (init ++ [last]) = length (own_roots roots (w * w)) ->
  (descriptor_accepted w max_cage_size max_mul_cells
     (join_commas (dec <$> roots) ++ SEMI :: render_entries init ++ last.1 :: last.2)
   = true
   <->
   (0 < max_cage_size -> forall r, cage_size roots r <= max_cage_size) /\
   (0 < max_mul_cells ->
    forall (k : nat) i e,
      own_roots roots (w * w) !! k = Some i ->
      (init ++ [last]) !! k = Some e ->
      e.1 = "m"%char ->
      cage_size roots i <= max_mul_cells)).
Proof.
  intros Hw Hlen Hrange Hfield Hdigit Hcount.
  assert (Ha : wrap32 (w * w) = w * w) by (apply wrap32_small; nia).
  assert (Hsemi : SEMI ∉ join_commas (dec <$> roots)).
  { apply join_commas_digits_no_semi, Forall_fmap.
    eapply Forall_impl; [exact Hrange|]. intros r Hr. cbv beta in Hr.
    unfold compose. apply dec_nonneg. lia. }
  unfold descriptor_accepted.
  rewrite clue_values_within_cap_field
    by (try exact Hsemi; apply render_entries_clue_field; exact Hfield).
  cbn [negb].
  rewrite parse_root_indices_dec by (assumption || lia).
  rewrite Ha.
  pose proof (cage_sizes_flag_iff roots (w * w) max_cage_size Hlen ltac:(nia) Hrange)
    as Hcage.
  destruct (parse_ops_reads_spec w roots (replicate (Z.to_nat (w * w)) NUL)
              (join_commas (dec <$> roots)) init last [] Hsemi Hdigit)
    as (ops' & Hops & _ & Hat & _).
  { rewrite Ha. exact Hcount. }
  { rewrite Ha. apply length_replicate. }
  rewrite app_nil_r in Hops. rewrite Ha in Hat.
  destruct (own_roots_cells roots (w * w)) as [_ Hcells].
  rewrite Forall_forall in Hcells.
  assert (Hmult : mult_cages_within_limit roots ops' (w * w) max_mul_cells = true <->
                  forall (k : nat) i e,
                    own_roots roots (w * w) !! k = Some i ->
                    (init ++ [last]) !! k = Some e ->
                    e.1 = "m"%char ->
                    cage_size roots i <= max_mul_cells).
  { split.
    - intros Hflag k i e Hcell Hentry Hop.
      destruct (Hcells i) as [Hi Hroot].
      { apply list_elem_of_lookup. exists k. exact Hcell. }
      apply (mult_cages_flag_sound roots ops' (w * w) max_mul_cells Hlen Hrange Hflag);
        [exact Hi|exact Hroot|].
      rewrite (Hat k i e Hcell Hentry). exact Hop.
    - intros Hall. apply mult_cages_flag_complete; [exact Hlen|exact Hrange|].
      intros i Hi Hroot Hop.
      assert (Hin : i ∈ own_roots roots (w * w)).
      { unfold own_roots. apply list_elem_of_In, filter_In. split.
        - apply list_elem_of_In, elem_of_seqZ. lia.
        - apply Z.eqb_eq. exact Hroot. }
      apply list_elem_of_lookup in Hin as [k Hcell].
      destruct (lookup_lt_is_Some_2 (init ++ [last]) k) as [e Hentry].
      { rewrite Hcount. apply lookup_lt_Some in Hcell. exact Hcell. }
      apply (Hall k i e Hcell Hentry).
      rewrite <- (Hat k i e Hcell Hentry). exact Hop. }
  rewrite Hops.
  destruct (Z.gtb_spec max_cage_size 0) as [Hc|Hc];
    destruct (Z.gtb_spec max_mul_cells 0) as [Hm|Hm]; cbn [orb andb].
  - destruct (cage_sizes_within_limit roots (w * w) max_cage_size).1; cbn [negb].
    + destruct (mult_cages_within_limit roots ops' (w * w) max_mul_cells); cbn [negb].
      * split; [intros _|reflexivity]. split; intros _; [apply Hcage|apply Hmult]; reflexivity.
      * split; [discriminate|]. intros [_ Hall].
        apply Hmult, Hall. exact Hm.
    + split; [discriminate|]. intros [Hall _].
      apply Hcage, Hall. exact Hc.
  - destruct (cage_sizes_within_limit roots (w * w) max_cage_size).1; cbn [negb].
    + split; [intros _|reflexivity]. split; [intros _; apply Hcage; reflexivity|lia].
    + split; [discriminate|]. intros [Hall _].
      apply Hcage, Hall. exact Hc.
  - destruct (mult_cages_within_limit roots ops' (w * w) max_mul_cells); cbn [negb].
    + split; [intros _|reflexivity]. split; [lia|intros _; apply Hmult; reflexivity].
    + split; [discriminate|]. intros [_ Hall].
      apply Hmult, Hall. exact Hm.
  - split; [intros _|reflexivity]. split; lia.
Qed.

Lemma descriptor_accepted_iff_within_caps_witness :
  (1 <= 3 <= 46340 /\
   length [0; 0; 0; 3; 3; 3; 6; 6; 6] = Z.to_nat (3 * 3) /\
   in_range (3 * 3) [0; 0; 0; 3; 3; 3; 6; 6; 6] /\
   Forall field_entry ([("a"%char, lit "00006"); ("m"%char, lit "00006")]
                         ++ [("s"%char, lit "00001")]) /\
   Forall digit_entry ([("a"%char, lit "00006"); ("m"%char, lit "00006")]
                         ++ [("s"%char, lit "00001")]) /\
   length ([("a"%char, lit "00006"); ("m"%char, lit "00006")]
             ++ [("s"%char, lit "00001")])
   = length (own_roots [0; 0; 0; 3; 3; 3; 6; 6; 6] (3 * 3))) /\
  (descriptor_accepted 3 CLASSIK_MAX_CAGE_SIZE 2
     (join_commas (dec <$> [0; 0; 0; 3; 3; 3; 6; 6; 6]) ++ SEMI ::
        render_entries [("a"%char, lit "00006"); ("m"%char, lit "00006")]
        ++ "s"%char :: lit "00001")
   = true
   <->
   (0 < CLASSIK_MAX_CAGE_SIZE ->
    forall r, cage_size [0; 0; 0; 3; 3; 3; 6; 6; 6] r <= CLASSIK_MAX_CAGE_SIZE) /\
   (0 < 2 ->
    forall (k : nat) i e,
      own_roots [0; 0; 0; 3; 3; 3; 6; 6; 6] (3 * 3) !! k = Some i ->
      ([("a"%char, lit "00006"); ("m"%char, lit "00006")]
         ++ [("s"%char, lit "00001")]) !! k = Some e ->
      e.1 = "m"%char ->
      cage_size [0; 0; 0; 3; 3; 3; 6; 6; 6] i <= 2)).
Proof.
  assert (Hw : 1 <= 3 <= 46340) by lia.
  assert (Hlen : length [0; 0; 0; 3; 3; 3; 6; 6; 6] = Z.to_nat (3 * 3)) by reflexivity.
  assert (Hrange : in_range (3 * 3) [0; 0; 0; 3; 3; 3; 6; 6; 6])
    by (repeat constructor; lia).
  assert (Hfield : Forall field_entry
            ([("a"%char, lit "00006"); ("m"%char, lit "00006")]
               ++ [("s"%char, lit "00001")]))
    by (repeat constructor).
  assert (Hdigit : Forall digit_entry
            ([("a"%char, lit "00006"); ("m"%char, lit "00006")]
               ++ [("s"%char, lit "00001")]))
    by (repeat constructor).
  assert (Hcount : length ([("a"%char, lit "00006"); ("m"%char, lit "00006")]
                             ++ [("s"%char, lit "00001")])
                   = length (own_roots [0; 0; 0; 3; 3; 3; 6; 6; 6] (3 * 3)))
    by reflexivity.
  split; [auto 10|].
  exact (descriptor_accepted_iff_within_caps 3 [0; 0; 0; 3; 3; 3; 6; 6; 6]
           [("a"%char, lit "00006"); ("m"%char, lit "00006")]
           ("s"%char, lit "00001") CLASSIK_MAX_CAGE_SIZE 2
           Hw Hlen Hrange Hfield Hdigit Hcount).
Defined.
